(** * s3-wal: a write-ahead log kept as one S3 object per record

    Shallow embedding of package [s3_log] (type [S3WAL] with [Append],
    [Read], [LastRecord], [Recover], [Truncate] and their helpers) together
    with a small executable model of the S3 calls the package issues
    ([PutObject], [GetObject], [ListObjectsV2] behind the SDK paginator and
    [DeleteObjects]) and of the library functions it relies on
    ([fmt.Sprintf "%020d"], [strconv.ParseUint], [binary.Write]/[binary.Read]
    in big-endian order, [sha256.Sum256]).  The three [main] functions
    that use the package (two demonstration programs and the command line
    [cmd/s3wal]) are embedded over the same model.

    Conventions: a [uint64] is a [Z] in [0, 2^64) with wrap-around written
    out; a Go [string] (an object key, a prefix) is a [string]; a [[]byte]
    is a [list byte]. *)

From Stdlib Require Import ZArith Lia List.
From Stdlib.Strings Require Import Ascii String Byte.
From stdpp Require Import base decidable option list sorting gmap strings.

Local Open Scope Z_scope.

(** ** Machine integers and bytes *)

Module U64.
Definition modulus : Z := 2 ^ 64.
Definition max : Z := modulus - 1.
Definition wrap (x : Z) : Z := x mod modulus.
Definition add (x y : Z) : Z := wrap (x + y).
Definition In (x : Z) : Prop := 0 <= x < modulus.
End U64.

#[global] Instance byte_eq_dec : EqDecision byte := Byte.byte_eq_dec.

Definition byte_of_Z (z : Z) : byte :=
  match Byte.of_N (Z.to_N (z mod 256)) with
  | Some b => b
  | None => x00
  end.

Definition Z_of_byte (b : byte) : Z := Z.of_N (Byte.to_N b).

(** [binary.BigEndian]: the [n] low-order bytes of [v], most significant
    first ([binary.Write] of a [uint64] is [be_bytes 8]). *)
Fixpoint be_bytes (n : nat) (v : Z) : list byte :=
  match n with
  | O => []
  | S n' => be_bytes n' (v / 256) ++ [byte_of_Z (v mod 256)]
  end.

(** [binary.BigEndian.Uint64] and friends: the value of a big-endian byte
    string. *)
Definition be_value (bs : list byte) : Z :=
  fold_left (fun acc b => acc * 256 + Z_of_byte b) bs 0.

(** ** SHA-256 (FIPS 180-4), the [crypto/sha256] digest *)

Module SHA256.

Definition Size : nat := 32.

Definition w32 (x : Z) : Z := x mod 2 ^ 32.
Definition add32 (x y : Z) : Z := w32 (x + y).
Definition rotr (n x : Z) : Z :=
  Z.lor (Z.shiftr x n) (w32 (Z.shiftl x (32 - n))).
Definition shr (n x : Z) : Z := Z.shiftr x n.
Definition not32 (x : Z) : Z := Z.lxor x (2 ^ 32 - 1).

Definition Ch (x y z : Z) : Z := Z.lxor (Z.land x y) (Z.land (not32 x) z).
Definition Maj (x y z : Z) : Z :=
  Z.lxor (Z.land x y) (Z.lxor (Z.land x z) (Z.land y z)).
Definition bsig0 (x : Z) : Z := Z.lxor (rotr 2 x) (Z.lxor (rotr 13 x) (rotr 22 x)).
Definition bsig1 (x : Z) : Z := Z.lxor (rotr 6 x) (Z.lxor (rotr 11 x) (rotr 25 x)).
Definition ssig0 (x : Z) : Z := Z.lxor (rotr 7 x) (Z.lxor (rotr 18 x) (shr 3 x)).
Definition ssig1 (x : Z) : Z := Z.lxor (rotr 17 x) (Z.lxor (rotr 19 x) (shr 10 x)).

(** The constants of the standard are derived from the first primes:
    the round constants are the first 32 bits of the fractional parts of
    the cube roots of the first 64 primes, the initial hash value those of
    the square roots of the first 8. *)
Definition is_prime (p : Z) : bool :=
  forallb (fun d => negb (p mod d =? 0)) (seqZ 2 (p - 2)).

Definition primes64 : list Z := filter (fun p => is_prime p = true) (seqZ 2 310).

(** Integer cube root of [n], found bit by bit from bit [bits - 1] down. *)
Fixpoint icbrt (bits : nat) (n r : Z) : Z :=
  match bits with
  | O => r
  | S b =>
      let r' := r + 2 ^ Z.of_nat b in
      icbrt b n (if r' * r' * r' <=? n then r' else r)
  end.

Definition frac_cbrt32 (p : Z) : Z := w32 (icbrt 36 (p * 2 ^ 96) 0).
Definition frac_sqrt32 (p : Z) : Z := w32 (Z.sqrt (p * 2 ^ 64)).

Definition K : list Z := Eval vm_compute in (frac_cbrt32 <$> primes64).

Record digest := Digest { ha : Z; hb : Z; hc : Z; hd : Z; he : Z; hf : Z; hg : Z; hh : Z }.

Definition init : digest :=
  Eval vm_compute in
    (let h i := frac_sqrt32 (nth i primes64 0) in
     Digest (h 0%nat) (h 1%nat) (h 2%nat) (h 3%nat) (h 4%nat) (h 5%nat) (h 6%nat) (h 7%nat)).

(** Padding: a 1 bit, zeros up to 56 mod 64, then the bit length on 8 bytes. *)
Definition pad (msg : list byte) : list byte :=
  let len := Z.of_nat (length msg) in
  msg ++ [x80] ++ repeat x00 (Z.to_nat ((55 - len) mod 64)) ++ be_bytes 8 (8 * len).

Fixpoint words (n : nat) (bs : list byte) : list Z :=
  match n with
  | O => []
  | S n' => be_value (take 4 bs) :: words n' (drop 4 bs)
  end.

Fixpoint blocks (n : nat) (bs : list byte) : list (list Z) :=
  match n with
  | O => []
  | S n' => words 16 (take 64 bs) :: blocks n' (drop 64 bs)
  end.

(** Message schedule: extends the 16 words of a block to 64. *)
Definition schedule_step (ws : list Z) (t : nat) : list Z :=
  let w i := nth (t - i) ws 0 in
  ws ++ [add32 (add32 (ssig1 (w 2%nat)) (w 7%nat)) (add32 (ssig0 (w 15%nat)) (w 16%nat))].

Definition schedule (block : list Z) : list Z :=
  fold_left schedule_step (seq 16 48) block.

Definition round (s : digest) (kw : Z * Z) : digest :=
  let t1 := add32 (add32 (add32 (hh s) (bsig1 (he s))) (add32 (Ch (he s) (hf s) (hg s)) (fst kw))) (snd kw) in
  let t2 := add32 (bsig0 (ha s)) (Maj (ha s) (hb s) (hc s)) in
  Digest (add32 t1 t2) (ha s) (hb s) (hc s) (add32 (hd s) t1) (he s) (hf s) (hg s).

Definition compress (s : digest) (block : list Z) : digest :=
  let r := fold_left round (combine K (schedule block)) s in
  Digest (add32 (ha s) (ha r)) (add32 (hb s) (hb r)) (add32 (hc s) (hc r))
         (add32 (hd s) (hd r)) (add32 (he s) (he r)) (add32 (hf s) (hf r))
         (add32 (hg s) (hg r)) (add32 (hh s) (hh r)).

Definition output (s : digest) : list byte :=
  be_bytes 4 (ha s) ++ be_bytes 4 (hb s) ++ be_bytes 4 (hc s) ++ be_bytes 4 (hd s) ++
  be_bytes 4 (he s) ++ be_bytes 4 (hf s) ++ be_bytes 4 (hg s) ++ be_bytes 4 (hh s).

(** [sha256.Sum256] (also what [sha256.New], [Write]..., [Sum(nil)] yields
    for the concatenation of the writes). *)
Definition Sum256 (msg : list byte) : list byte :=
  let p := pad msg in
  output (fold_left compress (blocks (length p / 64) p) init).

End SHA256.

Arguments SHA256.Sum256 : simpl never.

(** Lower-case hexadecimal, as [hex.EncodeToString] prints a digest. *)
Definition hex_digit (b : Z) : ascii :=
  ascii_of_N (Z.to_N (if b <? 10 then 48 + b else 87 + b)).

Definition hex (bs : list byte) : string :=
  string_of_list_ascii
    (flat_map (fun b => [hex_digit (Z_of_byte b / 16); hex_digit (Z_of_byte b mod 16)]) bs).


(** ** Results and errors

    One constructor per [fmt.Errorf]/[errors.New] site of the package; an
    error wrapped with [%w] keeps the wrapped error as an argument. *)

(** What an S3 call can fail with: the key is absent, or the request did
    not go through (transport, throttling, permissions). *)
Inductive S3Error :=
| NoSuchKey
| RequestFailed (msg : string).

(** [strconv.NumError] of [ParseUint]. *)
Inductive NumError :=
| ErrSyntax
| ErrRange.

Inductive Error :=
| ErrInvalidKeyFormat (key : string)
| ErrParseUint (e : NumError) (s : string)
| ErrChecksumLength
| ErrPrepareBody (e : Error)
| ErrPutObject (offset : Z) (e : S3Error)
| ErrGetObject (key : string) (e : S3Error)
| ErrReadBody (key : string) (msg : string)
| ErrTooShort (key : string)
| ErrOffsetMismatch (key : string) (expected got : Z)
| ErrChecksumMismatch (offset : Z) (key : string)
| ErrListObjects (e : S3Error)
| ErrEmpty
| ErrParseLastKey (key : string) (e : Error)
| ErrListRecover (e : S3Error)
| ErrListTruncate (e : S3Error)
| ErrDeleteObjects (e : S3Error)
| ErrDeleteObjectsErrors (parts : list (string * string))
| PanicNilKey.

Inductive result (E A : Type) :=
| Ok (a : A)
| Err (e : E).
Arguments Ok {E A} a.
Arguments Err {E A} e.

Definition is_Ok {E A} (r : result E A) : Prop :=
  match r with Ok _ => True | Err _ => False end.

#[global] Instance is_Ok_dec {E A : Type} (r : result E A) : Decision (is_Ok r) :=
  match r with
  | Ok _ => left I
  | Err _ => right (fun H => H)
  end.

(** The spec's [NotFound]: the GetObject of [Read] answered NoSuchKey. *)
Definition NotFound (e : Error) : Prop :=
  exists key, e = ErrGetObject key NoSuchKey.

(** ** Object keys *)

Definition digit_char (d : Z) : ascii := ascii_of_N (Z.to_N (48 + d)).

(** The decimal digits of [n], as [fmt] and [strconv.FormatUint] produce
    them: least significant digit first into the buffer, stopping when the
    quotient is 0.  20 digits hold every [uint64]. *)
Fixpoint fmt_digits (fuel : nat) (n : Z) (acc : string) : string :=
  match fuel with
  | O => acc
  | S fuel' =>
      let acc' := String (digit_char (n mod 10)) acc in
      if n / 10 =? 0 then acc' else fmt_digits fuel' (n / 10) acc'
  end.

Definition FormatUint (n : Z) : string := fmt_digits 20 n "".

(** The [0] flag with a width: pad with zeros on the left. *)
Definition zero_pad (width : nat) (s : string) : string :=
  (string_of_list_ascii (repeat "0"%char (width - String.length s)) ++ s)%string.

(** [fmt.Sprintf("%020d", offset)] *)
Definition Sprintf_020d (offset : Z) : string := zero_pad 20 (FormatUint offset).

(** [strings.LastIndexByte]: index of the last [c] in [s], or -1. *)
Fixpoint LastIndexByte_from (i : Z) (found : Z) (s : string) (c : ascii) : Z :=
  match s with
  | EmptyString => found
  | String a s' => LastIndexByte_from (i + 1) (if Ascii.eqb a c then i else found) s' c
  end.

Definition LastIndexByte (s : string) (c : ascii) : Z := LastIndexByte_from 0 (-1) s c.

(** The slice [s[n:]]. *)
Fixpoint string_from (n : nat) (s : string) : string :=
  match n, s with
  | O, _ => s
  | S n', String _ s' => string_from n' s'
  | S _, EmptyString => EmptyString
  end.

(** [strconv.ParseUint(s, 10, 64)]: digits only, no sign, no underscores;
    [cutoff] is the smallest number whose tenfold overflows. *)
Definition cutoff : Z := U64.max / 10 + 1.

Fixpoint ParseUint_digits (s0 s : string) (n : Z) : result Error Z :=
  match s with
  | EmptyString => Ok n
  | String c s' =>
      let v := Z.of_N (N_of_ascii c) in
      if (48 <=? v) && (v <=? 57) then
        let d := v - 48 in
        if cutoff <=? n then Err (ErrParseUint ErrRange s0)
        else
          let n10 := U64.wrap (n * 10) in
          let n1 := U64.add n10 d in
          if (n1 <? n10) || (U64.max <? n1) then Err (ErrParseUint ErrRange s0)
          else ParseUint_digits s0 s' n1
      else Err (ErrParseUint ErrSyntax s0)
  end.

Definition ParseUint (s : string) : result Error Z :=
  match s with
  | EmptyString => Err (ErrParseUint ErrSyntax s)
  | _ => ParseUint_digits s s 0
  end.

(** ** The log and its records *)

Record Record_ := { Offset : Z; Data : list byte }.

(** [S3WAL]: the client and bucket are the [S3] state threaded through
    the methods; the mutex guards [length] and has no effect on a single
    caller. *)
Module S3WAL.
Record t := { prefix : string; length : Z }.
End S3WAL.
Abbreviation S3WAL := S3WAL.t.

(** The assignment [w.length = n]. *)
Definition set_length (w : S3WAL) (n : Z) : S3WAL :=
  {| S3WAL.prefix := S3WAL.prefix w; S3WAL.length := n |}.

(** [strings.Trim(s, "/")] *)
Fixpoint TrimLeft_slash (s : string) : string :=
  match s with
  | String "/" s' => TrimLeft_slash s'
  | _ => s
  end.

Definition Trim_slash (s : string) : string :=
  String.rev (TrimLeft_slash (String.rev (TrimLeft_slash s))).

Definition NewS3WAL (prefix0 : string) : S3WAL :=
  {| S3WAL.prefix := Trim_slash prefix0; S3WAL.length := 0 |}.

Definition getObjectKey (w : S3WAL) (offset : Z) : string :=
  (S3WAL.prefix w ++ "/" ++ Sprintf_020d offset)%string.

Definition getOffsetFromKey (key : string) : result Error Z :=
  let idx := LastIndexByte key "/" in
  if (idx <? 0) || (idx =? Z.of_nat (String.length key) - 1) then
    Err (ErrInvalidKeyFormat key)
  else
    ParseUint (string_from (Z.to_nat (idx + 1)) key).

(** ** Record framing *)

Definition prepareBody (offset : Z) (data : list byte) : result Error (list byte) :=
  let written := be_bytes 8 offset ++ data in
  let checksum := SHA256.Sum256 written in
  if negb (length checksum =? SHA256.Size)%nat then Err ErrChecksumLength
  else Ok (written ++ checksum).

Definition bytes_Equal (a b : list byte) : bool :=
  bool_decide (a = b).

(** [validateChecksum]: the trailing 32 bytes equal the digest of what
    precedes them. *)
Definition validateChecksum (full : list byte) : bool :=
  if (length full <? SHA256.Size)%nat then false
  else
    let dataPart := take (length full - SHA256.Size) full in
    let stored := drop (length full - SHA256.Size) full in
    bytes_Equal (SHA256.Sum256 dataPart) stored.

(** ** The object store

    One bucket.  [faults] scripts the outcome of the requests to come, one
    entry per request, so that every failure the package handles can
    happen.  A [Refused] request fails before it reaches the bucket and
    has no effect.  An [Interrupted] request reaches the bucket and takes
    effect there, but its response does not come back whole: a write or a
    delete is done and still reported as failed, the body of an object
    breaks while it is read, and a response without a body cannot be
    decoded.  [locked] holds the keys the service refuses to delete
    (reported as per-key errors of [DeleteObjects]), [MaxKeys] is the page
    size of a listing. *)

Inductive Fault :=
| Served
| Refused (msg : string)
| Interrupted (msg : string).

Record S3 := {
  objects : gmap string (list byte);
  locked : gset string;
  MaxKeys : positive;
  faults : list Fault
}.

Definition next_fault (c : S3) : Fault * S3 :=
  (hd Served (faults c),
   {| objects := objects c; locked := locked c; MaxKeys := MaxKeys c;
      faults := tl (faults c) |}).

Definition set_objects (c : S3) (m : gmap string (list byte)) : S3 :=
  {| objects := m; locked := locked c; MaxKeys := MaxKeys c; faults := faults c |}.

(** [PutObject]: create or overwrite, unconditionally.  The client can
    be told of a failure although the object is stored. *)
Definition PutObject (c : S3) (key : string) (body : list byte) : result S3Error unit * S3 :=
  let '(f, c') := next_fault c in
  match f with
  | Served => (Ok tt, set_objects c' (<[key := body]> (objects c')))
  | Refused msg => (Err (RequestFailed msg), c')
  | Interrupted msg =>
      (Err (RequestFailed msg), set_objects c' (<[key := body]> (objects c')))
  end.

(** The body of a GetObject response, an [io.ReadCloser]. *)
Record Body := { content : list byte; broken : option string }.

Definition ReadAll (b : Body) : result string (list byte) :=
  match broken b with
  | Some msg => Err msg
  | None => Ok (content b)
  end.

(** [GetObject].  The answer for a missing key is an error response that
    the SDK decodes to [NoSuchKey]; when that response is broken the SDK
    reports the decoding failure instead. *)
Definition GetObject (c : S3) (key : string) : result S3Error Body * S3 :=
  let '(f, c') := next_fault c in
  match f with
  | Refused msg => (Err (RequestFailed msg), c')
  | Served =>
      match objects c' !! key with
      | None => (Err NoSuchKey, c')
      | Some b => (Ok {| content := b; broken := None |}, c')
      end
  | Interrupted msg =>
      match objects c' !! key with
      | None => (Err (RequestFailed msg), c')
      | Some b => (Ok {| content := b; broken := Some msg |}, c')
      end
  end.

(** The keys of the bucket that start with [pfx], in the order S3 lists
    them (byte-wise lexicographic). *)
Definition keys_under (pfx : string) (m : gmap string (list byte)) : list string :=
  merge_sort String.le (filter (fun k => String.prefix pfx k) (map_to_list m).*1).

Definition keys_after (token : option string) (ks : list string) : list string :=
  match token with
  | None => ks
  | Some t => filter (fun k => ¬ String.le k t) ks
  end.

Record Object := { Key : option string }.

Definition key_object (k : string) : Object := {| Key := Some k |}.

Record ListObjectsV2Output := {
  Contents : list Object;
  IsTruncated : bool;
  NextContinuationToken : option string
}.

(** [ListObjectsV2]: the first [MaxKeys] keys under the prefix that come
    after the continuation token (the last key of the previous page). *)
Definition ListObjectsV2 (c : S3) (pfx : string) (token : option string)
  : result S3Error ListObjectsV2Output * S3 :=
  let '(f, c') := next_fault c in
  match f with
  | Served =>
      let rest := keys_after token (keys_under pfx (objects c')) in
      let n := Pos.to_nat (MaxKeys c') in
      let page := take n rest in
      let truncated := bool_decide (n < length rest)%nat in
      (Ok {| Contents := key_object <$> page;
             IsTruncated := truncated;
             NextContinuationToken := if truncated then last page else None |}, c')
  | Refused msg | Interrupted msg => (Err (RequestFailed msg), c')
  end.

(** [DeleteObjects] (not quiet): deletes the keys that are not locked and
    reports one error per locked key.  As with [PutObject], the deletions
    can be done and the call still fail. *)
Definition delete_unlocked (lk : gset string) (keys : list string)
    (m : gmap string (list byte)) : gmap string (list byte) :=
  foldr (fun k m' => if decide (k ∈ lk) then m' else delete k m') m keys.

Definition DeleteObjects (c : S3) (keys : list string)
  : result S3Error (list (string * string)) * S3 :=
  let '(f, c') := next_fault c in
  match f with
  | Served =>
      (Ok ((fun k => (k, "AccessDenied"%string)) <$> filter (fun k => k ∈ locked c') keys),
       set_objects c' (delete_unlocked (locked c') keys (objects c')))
  | Refused msg => (Err (RequestFailed msg), c')
  | Interrupted msg =>
      (Err (RequestFailed msg),
       set_objects c' (delete_unlocked (locked c') keys (objects c')))
  end.

(** The SDK's [ListObjectsV2Paginator]. *)
Record Paginator := { pfx : string; firstPage : bool; nextToken : option string }.

Definition NewListObjectsV2Paginator (prefix : string) : Paginator :=
  {| pfx := prefix; firstPage := true; nextToken := None |}.

Definition HasMorePages (p : Paginator) : bool :=
  firstPage p ||
  match nextToken p with
  | Some t => negb (String.eqb t "")
  | None => false
  end.

Definition NextPage (p : Paginator) (c : S3)
  : result S3Error ListObjectsV2Output * Paginator * S3 :=
  match ListObjectsV2 c (pfx p) (nextToken p) with
  | (Err e, c') => (Err e, p, c')
  | (Ok out, c') =>
      (Ok out,
       {| pfx := pfx p; firstPage := false;
          nextToken := if IsTruncated out then NextContinuationToken out else None |},
       c')
  end.

(** The loop [for paginator.HasMorePages() { page, err := paginator.NextPage(ctx);
    if err != nil { return wrap(err) }; body }] shared by [LastRecord],
    [Recover] and [Truncate].  [None]: the fuel ran out before the
    listing ended. *)
Fixpoint forPages {A : Type} (fuel : nat) (wrap : S3Error -> Error)
    (body : A -> list Object -> S3 -> result Error A * S3)
    (p : Paginator) (acc : A) (c : S3) : option (result Error A * S3) :=
  if HasMorePages p then
    match fuel with
    | O => None
    | S fuel' =>
        match NextPage p c with
        | (Err e, _, c') => Some (Err (wrap e), c')
        | (Ok page, p', c') =>
            match body acc (Contents page) c' with
            | (Err e, c'') => Some (Err e, c'')
            | (Ok acc', c'') => forPages fuel' wrap body p' acc' c''
            end
        end
    end
  else Some (Ok acc, c).

(** Every page but the last holds at least one key, so a listing takes at
    most one request more than there are keys under the prefix. *)
Definition page_fuel (prefix : string) (c : S3) : nat :=
  S (length (keys_under prefix (objects c))).

(** ** The operations of the log *)

Definition Append (w : S3WAL) (data : list byte) (c : S3) : result Error Z * S3WAL * S3 :=
  let next := U64.add (S3WAL.length w) 1 in
  match prepareBody next data with
  | Err e => (Err (ErrPrepareBody e), w, c)
  | Ok body =>
      match PutObject c (getObjectKey w next) body with
      | (Err e, c') => (Err (ErrPutObject next e), w, c')
      | (Ok _, c') => (Ok next, set_length w next, c')
      end
  end.

(** The part of [Read] that follows [io.ReadAll]: the checks on the
    fetched bytes and the extraction of the payload. *)
Definition parseRecord (key : string) (offset : Z) (data : list byte) : result Error Record_ :=
  if (length data <? 8 + SHA256.Size)%nat then Err (ErrTooShort key)
  else
    let storedOffset := be_value (take 8 data) in
    if negb (storedOffset =? offset) then Err (ErrOffsetMismatch key offset storedOffset)
    else if negb (validateChecksum data) then Err (ErrChecksumMismatch offset key)
    else
      Ok {| Offset := storedOffset;
            Data := drop 8 (take (length data - SHA256.Size) data) |}.

Definition Read (w : S3WAL) (offset : Z) (c : S3) : result Error Record_ * S3 :=
  let key := getObjectKey w offset in
  match GetObject c key with
  | (Err e, c') => (Err (ErrGetObject key e), c')
  | (Ok out, c') =>
      match ReadAll out with
      | Err msg => (Err (ErrReadBody key msg), c')
      | Ok data => (parseRecord key offset data, c')
      end
  end.

(** Body of the page loop of [LastRecord]: the last key of a non-empty
    page. *)
Definition lastKey_step (lastKey : string) (contents : list Object) (c : S3)
  : result Error string * S3 :=
  match last contents with
  | None => (Ok lastKey, c)
  | Some obj =>
      match Key obj with
      | Some k => (Ok k, c)
      | None => (Err PanicNilKey, c)
      end
  end.

Definition LastRecord (w : S3WAL) (c : S3) : option (result Error Record_ * S3WAL * S3) :=
  let prefix := (S3WAL.prefix w ++ "/")%string in
  match forPages (page_fuel prefix c) ErrListObjects lastKey_step
                 (NewListObjectsV2Paginator prefix) ""%string c with
  | None => None
  | Some (Err e, c') => Some (Err e, w, c')
  | Some (Ok lastKey, c') =>
      if String.eqb lastKey "" then Some (Err ErrEmpty, set_length w 0, c')
      else
        match getOffsetFromKey lastKey with
        | Err e => Some (Err (ErrParseLastKey lastKey e), w, c')
        | Ok offset =>
            let w' := set_length w offset in
            let '(r, c'') := Read w' offset c' in
            Some (r, w', c'')
        end
  end.

(** Body of the page loop of [Recover]. *)
Definition maxOffset_step (maxOffset : Z) (obj : Object) : Z :=
  match Key obj with
  | None => maxOffset
  | Some k =>
      match getOffsetFromKey k with
      | Err _ => maxOffset
      | Ok offset => if maxOffset <? offset then offset else maxOffset
      end
  end.

Definition recover_page (maxOffset : Z) (contents : list Object) (c : S3)
  : result Error Z * S3 :=
  (Ok (fold_left maxOffset_step contents maxOffset), c).

Definition Recover (w : S3WAL) (c : S3) : option (result Error Z * S3WAL * S3) :=
  let prefix := (S3WAL.prefix w ++ "/")%string in
  match forPages (page_fuel prefix c) ErrListRecover recover_page
                 (NewListObjectsV2Paginator prefix) 0 c with
  | None => None
  | Some (Err e, c') => Some (Err e, w, c')
  | Some (Ok maxOffset, c') => Some (Ok maxOffset, set_length w maxOffset, c')
  end.

Definition batchDelete (c : S3) (keys : list string) : result Error unit * S3 :=
  match keys with
  | [] => (Ok tt, c)
  | _ =>
      match DeleteObjects c keys with
      | (Err e, c') => (Err (ErrDeleteObjects e), c')
      | (Ok [], c') => (Ok tt, c')
      | (Ok errors, c') => (Err (ErrDeleteObjectsErrors errors), c')
      end
  end.

(** The store's limit on the keys of one [DeleteObjects] request. *)
Definition batch_limit : nat := 1000.

(** Body of the page loop of [Truncate]. *)
Fixpoint truncate_page (afterOffset : Z) (keysToDelete : list string)
    (contents : list Object) (c : S3) : result Error (list string) * S3 :=
  match contents with
  | [] => (Ok keysToDelete, c)
  | obj :: rest =>
      match Key obj with
      | None => truncate_page afterOffset keysToDelete rest c
      | Some k =>
          match getOffsetFromKey k with
          | Err _ => truncate_page afterOffset keysToDelete rest c
          | Ok offset =>
              let keysToDelete' :=
                if afterOffset <? offset then keysToDelete ++ [k] else keysToDelete in
              if (length keysToDelete' =? batch_limit)%nat then
                match batchDelete c keysToDelete' with
                | (Err e, c') => (Err e, c')
                | (Ok _, c') => truncate_page afterOffset [] rest c'
                end
              else truncate_page afterOffset keysToDelete' rest c
          end
      end
  end.

Definition Truncate (w : S3WAL) (afterOffset : Z) (c : S3)
  : option (result Error unit * S3WAL * S3) :=
  let prefix := (S3WAL.prefix w ++ "/")%string in
  match forPages (page_fuel prefix c) ErrListTruncate (truncate_page afterOffset)
                 (NewListObjectsV2Paginator prefix) [] c with
  | None => None
  | Some (Err e, c') => Some (Err e, w, c')
  | Some (Ok keysToDelete, c') =>
      match (if (0 <? length keysToDelete)%nat then batchDelete c' keysToDelete
             else (Ok tt, c')) with
      | (Err e, c'') => Some (Err e, w, c'')
      | (Ok _, c'') =>
          Some (Ok tt, set_length w (if afterOffset =? 0 then 0 else afterOffset), c'')
      end
  end.

(** The spec's [zero_pad_decimal]: the [k] low-order decimal digits of [n],
    most significant first, put before [acc]. *)
Fixpoint dec_fixed (k : nat) (n : Z) (acc : string) : string :=
  match k with
  | O => acc
  | S k' => dec_fixed k' (n / 10) (String (digit_char (n mod 10)) acc)
  end.

Definition zero_pad_decimal (offset : Z) (width : nat) : string :=
  dec_fixed width offset "".

Definition zeros (k : nat) : string := string_of_list_ascii (repeat "0"%char k).

(** ** Sample states *)

Module Sample.

Definition bucket (page : positive) (fs : list Fault) : S3 :=
  {| objects := ∅; locked := ∅; MaxKeys := page; faults := fs |}.

Definition wal : S3WAL := NewS3WAL "/wal/".

Definition rec1 : list byte := list_byte_of_string "Record #1".
Definition rec2 : list byte := list_byte_of_string "Record #2".
Definition rec3 : list byte := list_byte_of_string "Record #3".

(** The state an operation leaves behind ([w] and [c] unchanged when the
    fuel of a listing ran out, which never happens). *)
Definition after {A : Type} (w : S3WAL) (c : S3)
    (r : option (result Error A * S3WAL * S3)) : S3WAL * S3 :=
  match r with
  | Some (_, w', c') => (w', c')
  | None => (w, c)
  end.

Definition append (data : list byte) (s : S3WAL * S3) : S3WAL * S3 :=
  after (fst s) (snd s) (Some (Append (fst s) data (snd s))).

Definition truncate (k : Z) (s : S3WAL * S3) : S3WAL * S3 :=
  after (fst s) (snd s) (Truncate (fst s) k (snd s)).

(** Three records appended to an empty prefix, listed two keys a page. *)
Definition three : S3WAL * S3 :=
  append rec3 (append rec2 (append rec1 (wal, bucket 2 []))).

(** A stray object under the prefix whose name is no offset. *)
Definition stray : S3WAL * S3 :=
  (fst three,
   set_objects (snd three) (<["wal/zzz"%string := rec1]> (objects (snd three)))).

(** [Truncate] far beyond the end, then [Append]: the cached length wraps. *)
Definition wrapped : S3WAL * S3 :=
  append rec1 (truncate U64.max (wal, bucket 2 [])).

(** [Truncate(5)] on the empty log, then [Append]. *)
Definition gapped : S3WAL * S3 :=
  append rec1 (truncate 5 (wal, bucket 2 [])).


(** The log of three records with the object of offset 2 locked against
    deletion. *)
Definition held : S3WAL * S3 :=
  (fst three,
   {| objects := objects (snd three);
      locked := {["wal/00000000000000000002"%string]};
      MaxKeys := MaxKeys (snd three);
      faults := faults (snd three) |}).

(** [Truncate(5)] on the log of three records. *)
Definition overshot : S3WAL * S3 := truncate 5 three.

(** The frame of record 1 copied under the key of offset 4. *)
Definition misplaced : S3WAL * S3 :=
  (fst three,
   set_objects (snd three)
     (<["wal/00000000000000000004"%string :=
          be_bytes 8 1 ++ rec1 ++ SHA256.Sum256 (be_bytes 8 1 ++ rec1)]>
        (objects (snd three)))).

(** Under the key of offset 4, a frame with the digest of something else. *)
Definition flipped : S3WAL * S3 :=
  (fst three,
   set_objects (snd three)
     (<["wal/00000000000000000004"%string := be_bytes 8 4 ++ rec1 ++ SHA256.Sum256 []]>
        (objects (snd three)))).

(** A second log whose prefix lies under the prefix of the first, with one
    record, in the store of the log of three records. *)
Definition inner : S3WAL := NewS3WAL "wal/inner".

Definition nested : S3WAL * S3 := append rec1 (inner, snd three).

(** A second [Append] whose write is interrupted: the store has the
    object, the handle is told of a failure. *)
Definition orphaned : S3WAL * S3 :=
  append rec2 (append rec1 (wal, bucket 2 [Served; Interrupted "timeout"])).

End Sample.

(** ** Vocabulary of the statements *)

(** The number of [ListObjectsV2] requests a complete listing of [prefix]
    takes: one per page, and one for an empty listing. *)
Definition list_requests (prefix : string) (c : S3) : nat :=
  S ((length (keys_under prefix (objects c)) - 1) / Pos.to_nat (MaxKeys c)).

(** All the requests of a complete listing are served. *)
Definition listing_served (prefix : string) (c : S3) : Prop :=
  Forall (fun f => f = Served) (take (list_requests prefix c) (faults c)).

(** The client after a served listing: bucket untouched, outcomes used up. *)
Definition after_listing (prefix : string) (c : S3) : S3 :=
  {| objects := objects c; locked := locked c; MaxKeys := MaxKeys c;
     faults := drop (list_requests prefix c) (faults c) |}.

(** The key names an offset beyond [afterOffset]: what [Truncate] deletes. *)
Definition beyond (afterOffset : Z) (key : string) : bool :=
  match getOffsetFromKey key with
  | Ok offset => afterOffset <? offset
  | Err _ => false
  end.

(** Where a paginator stands in the listing [ks] after [i] requests:
    [done] has been returned, [rest] is still to come. *)
Record position (ks : list string) (p : Paginator) (i : nat)
    (done rest : list string) : Prop := {
  pos_split : ks = done ++ rest;
  pos_first : firstPage p = true -> i = O /\ done = [] /\ nextToken p = None;
  pos_later : firstPage p = false ->
    (i <> O) /\
    match nextToken p with
    | Some t => last done = Some t /\ rest <> [] /\ t <> ""%string
    | None => rest = []
    end
}.

(** ** Histories of calls *)

Inductive Op :=
| OpAppend (data : list byte)
| OpRead (offset : Z)
| OpLastRecord
| OpRecover
| OpTruncate (afterOffset : Z).

(** The log and the store after one call, whatever the call returned. *)
Definition run (o : Op) (w : S3WAL) (c : S3) : option (S3WAL * S3) :=
  match o with
  | OpAppend data => let '(_, w', c') := Append w data c in Some (w', c')
  | OpRead offset => Some (w, snd (Read w offset c))
  | OpLastRecord =>
      match LastRecord w c with Some (_, w', c') => Some (w', c') | None => None end
  | OpRecover =>
      match Recover w c with Some (_, w', c') => Some (w', c') | None => None end
  | OpTruncate afterOffset =>
      match Truncate w afterOffset c with Some (_, w', c') => Some (w', c') | None => None end
  end.

(** States reachable from a new log over a store with nothing under the
    prefix, by any calls whose [Truncate]s satisfy [ok]. *)
Inductive reachable (ok : Z -> S3WAL -> S3 -> Prop) (prefix0 : string)
  : S3WAL -> S3 -> Prop :=
| reach_new (c : S3) :
    keys_under (S3WAL.prefix (NewS3WAL prefix0) +:+ "/") (objects c) = [] ->
    reachable ok prefix0 (NewS3WAL prefix0) c
| reach_call (o : Op) (w : S3WAL) (c : S3) (w' : S3WAL) (c' : S3) :
    reachable ok prefix0 w c ->
    match o with
    | OpAppend _ => S3WAL.length w < U64.max
    | OpTruncate afterOffset => ok afterOffset w c
    | _ => True
    end ->
    run o w c = Some (w', c') ->
    reachable ok prefix0 w' c'.

(** A [Truncate] within the log that goes through. *)
Definition truncate_within (afterOffset : Z) (w : S3WAL) (c : S3) : Prop :=
  0 <= afterOffset <= S3WAL.length w /\
  exists w' c', Truncate w afterOffset c = Some (Ok tt, w', c').

(** The keys of the offsets 1 to [n]. *)
Definition keys_upto (w : S3WAL) (n : Z) : list string :=
  getObjectKey w <$> seqZ 1 n.

(** ** Invariants used in the proofs *)

(** The last key of a page, or [acc] for an empty page: what the loop of
    [LastRecord] computes on the keys of a page. *)
Definition last_or (acc : string) (page : list string) : string :=
  match last page with
  | Some k => k
  | None => acc
  end.

(** The state of a truncation that has gone through the keys [done]:
    the keys beyond [a] among them are either deleted already or pending
    in [acc]. *)
Definition truncating (a : Z) (c : S3) (done : list string) (acc : list string)
    (c1 : S3) : Prop :=
  locked c1 = locked c /\ MaxKeys c1 = MaxKeys c /\
  exists deleted : list string,
    (forall k, objects c1 !! k = if decide (k ∈ deleted) then None else objects c !! k) /\
    (forall k, k ∈ deleted \/ k ∈ acc <-> k ∈ done /\ beyond a k = true).

(** The store holds, under the prefix, exactly the keys of the offsets 1
    to the cached length. *)
Definition contiguous (w : S3WAL) (c : S3) : Prop :=
  0 <= S3WAL.length w <= U64.max /\
  forall k, k ∈ keys_under (S3WAL.prefix w +:+ "/") (objects c) <->
            exists i, 1 <= i <= S3WAL.length w /\ k = getObjectKey w i.

(** The same, or one key more: an [Append] whose [PutObject] failed with
    the object stored leaves the key of the next offset behind. *)
Definition nearly_contiguous (w : S3WAL) (c : S3) : Prop :=
  contiguous w c \/
  (0 <= S3WAL.length w /\ contiguous (set_length w (S3WAL.length w + 1)) c).

(** ** Vocabulary of the further properties *)

(** [k] slashes. *)
Definition slashes (k : nat) : string := string_of_list_ascii (repeat "/"%char k).

(** The store [c1] is the store [c] less some keys of [ks] that name an
    offset beyond [a]; nothing else differs. *)
Definition pruned (a : Z) (c : S3) (ks : list string) (c1 : S3) : Prop :=
  locked c1 = locked c /\ MaxKeys c1 = MaxKeys c /\
  forall k, objects c1 !! k = objects c !! k \/
            (objects c1 !! k = None /\ k ∈ ks /\ beyond a k = true).

(** Every request to come is served. *)
Definition all_served (c : S3) : Prop := Forall (fun f => f = Served) (faults c).

(** The log [w] over the store [c] holds the records [ds]: the cached
    length is their number, the keys under the prefix are those of the
    offsets 1 to that number, and the object of offset [i] is what
    [prepareBody] makes of record [i]. *)
Definition holds (w : S3WAL) (c : S3) (ds : list (list byte)) : Prop :=
  S3WAL.length w = Z.of_nat (length ds) /\
  contiguous w c /\
  forall (i : nat) (d : list byte), ds !! i = Some d ->
    exists body, prepareBody (Z.of_nat (S i)) d = Ok body /\
                 objects c !! getObjectKey w (Z.of_nat (S i)) = Some body.

(** The record at [offset] in the list of records of a log. *)
Definition record_at (ds : list (list byte)) (offset : Z) : option (list byte) :=
  if offset <=? 0 then None else ds !! Z.to_nat (offset - 1).

(** ** The programs

    The three [main] functions of the repository, from the point where the
    SDK client exists: the two demonstration programs and the command line
    of [cmd/s3wal].  A run threads the lines printed, the handle and the
    store; [log.Fatal] and [log.Fatalf] end it.  Lines keep the format
    string and the arguments given to it. *)

Module Prog.

Inductive Arg :=
| ArgUint (n : Z)
| ArgBytes (b : list byte)
| ArgString (s : string)
| ArgError (e : Error).

Inductive Line :=
| Print (format : string) (args : list Arg)
| Fatal (format : string) (args : list Arg).

Record state := { out : list Line; wal : S3WAL; client : S3 }.

(** A step of a program.  The outer [None] is a listing whose fuel ran
    out, which does not happen; the inner [None] is an exit by
    [log.Fatal]. *)
Definition M (A : Type) : Type := state -> option (option A * state).

#[global] Instance M_ret : MRet M := fun A a s => Some (Some a, s).

#[global] Instance M_bind : MBind M := fun A B f m s =>
  match m s with
  | None => None
  | Some (None, s') => Some (None, s')
  | Some (Some a, s') => f a s'
  end.

Definition printf (format : string) (args : list Arg) : M unit := fun s =>
  Some (Some tt, {| out := out s ++ [Print format args]; wal := wal s; client := client s |}).

Definition fatalf {A : Type} (format : string) (args : list Arg) : M A := fun s =>
  Some (None, {| out := out s ++ [Fatal format args]; wal := wal s; client := client s |}).

Definition wal_Append (data : list byte) : M (result Error Z) := fun s =>
  let '(r, w', c') := Append (wal s) data (client s) in
  Some (Some r, {| out := out s; wal := w'; client := c' |}).

Definition wal_Read (offset : Z) : M (result Error Record_) := fun s =>
  let '(r, c') := Read (wal s) offset (client s) in
  Some (Some r, {| out := out s; wal := wal s; client := c' |}).

Definition wal_LastRecord : M (result Error Record_) := fun s =>
  match LastRecord (wal s) (client s) with
  | None => None
  | Some (r, w', c') => Some (Some r, {| out := out s; wal := w'; client := c' |})
  end.

Definition wal_Recover : M (result Error Z) := fun s =>
  match Recover (wal s) (client s) with
  | None => None
  | Some (r, w', c') => Some (Some r, {| out := out s; wal := w'; client := c' |})
  end.

Definition wal_Truncate (afterOffset : Z) : M (result Error unit) := fun s =>
  match Truncate (wal s) afterOffset (client s) with
  | None => None
  | Some (r, w', c') => Some (Some r, {| out := out s; wal := w'; client := c' |})
  end.

(** [lastOffset, _ := wal.Recover(ctx)]: the error is dropped, and
    [Recover] returns 0 with it. *)
Definition value_or_zero (r : result Error Z) : Z :=
  match r with
  | Ok n => n
  | Err _ => 0
  end.

Fixpoint for_each {A : Type} (items : list A) (body : A -> M unit) : M unit :=
  match items with
  | [] => mret tt
  | x :: rest => body x ;; for_each rest body
  end.

(** The state a program starts in: [wal := s3_log.NewS3WAL(client, bucket, prefix)]. *)
Definition start (prefix : string) (c : S3) : state :=
  {| out := []; wal := NewS3WAL prefix; client := c |}.

End Prog.

(** The demonstration program that appends five records. *)
Module Demo.
Import Prog.

Definition record (i : Z) : list byte :=
  list_byte_of_string ("Record #" +:+ FormatUint i).

Definition body : M unit :=
  r ← wal_Recover;
  printf "Last offset:" [ArgUint (value_or_zero r)];;
  for_each (seqZ 1 5) (fun i =>
    let data := record i in
    r ← wal_Append data;
    match r with
    | Err e => fatalf "Append failed: %v" [ArgError e]
    | Ok offset =>
        printf "Appended record at offset: %d, data: %s" [ArgUint offset; ArgBytes data]
    end);;
  r ← wal_Read 3;
  match r with
  | Err e => fatalf "Read failed: %v" [ArgError e]
  | Ok rec => printf "Read record at offset %d: %s" [ArgUint (Offset rec); ArgBytes (Data rec)]
  end;;
  r ← wal_LastRecord;
  match r with
  | Err e => fatalf "LastRecord failed: %v" [ArgError e]
  | Ok rec => printf "Last record: offset=%d, data=%s" [ArgUint (Offset rec); ArgBytes (Data rec)]
  end;;
  printf "Truncating WAL after offset 2..." [];;
  r ← wal_Truncate 2;
  match r with
  | Err e => fatalf "Truncate failed: %v" [ArgError e]
  | Ok _ => mret tt
  end;;
  r ← wal_Recover;
  printf "Last offset after truncate:" [ArgUint (value_or_zero r)].

Definition main (prefix : string) (c : S3) : option (option unit * state) :=
  body (start prefix c).

End Demo.

(** The demonstration program that appends one record. *)
Module Hello.
Import Prog.

Definition greeting : list byte := list_byte_of_string "Hello S3 WAL!".

Definition body : M unit :=
  r ← wal_Recover;
  printf "Last offset:" [ArgUint (value_or_zero r)];;
  r ← wal_Append greeting;
  match r with
  | Err e => fatalf "Append failed: %v" [ArgError e]
  | Ok offset => printf "Appended record at offset:" [ArgUint offset]
  end;;
  r ← wal_LastRecord;
  match r with
  | Err e => fatalf "Failed to get last record: %v" [ArgError e]
  | Ok rec => printf "Last record: offset=%d, data=%s" [ArgUint (Offset rec); ArgBytes (Data rec)]
  end.

Definition main (prefix : string) (c : S3) : option (option unit * state) :=
  body (start prefix c).

End Hello.

(** The command line [s3wal <command> [args]]; [args] is [flag.Args()]. *)
Module Cmd.
Import Prog.

Definition commands : string :=
  "Commands: append <data>, read <offset>, last, truncate <offset>, recover".

Definition body (args : list string) : M unit :=
  match args with
  | [] => printf "Usage: s3wal <command> [args]" [];; printf commands []
  | cmd :: operands =>
      if String.eqb cmd "append" then
        match operands with
        | [] => fatalf "Usage: s3wal append <data>" []
        | arg1 :: _ =>
            let data := list_byte_of_string arg1 in
            r ← wal_Append data;
            match r with
            | Err e => fatalf "Append failed: %v" [ArgError e]
            | Ok offset =>
                printf "Appended record at offset: %d, data: %s" [ArgUint offset; ArgBytes data]
            end
        end
      else if String.eqb cmd "read" then
        match operands with
        | [] => fatalf "Usage: s3wal read <offset>" []
        | arg1 :: _ =>
            match ParseUint arg1 with
            | Err e => fatalf "Invalid offset: %v" [ArgError e]
            | Ok offset =>
                r ← wal_Read offset;
                match r with
                | Err e => fatalf "Read failed: %v" [ArgError e]
                | Ok rec =>
                    printf "Offset: %d, Data: %s" [ArgUint (Offset rec); ArgBytes (Data rec)]
                end
            end
        end
      else if String.eqb cmd "last" then
        r ← wal_LastRecord;
        match r with
        | Err e => fatalf "LastRecord failed: %v" [ArgError e]
        | Ok rec =>
            printf "Last record: offset=%d, data=%s" [ArgUint (Offset rec); ArgBytes (Data rec)]
        end
      else if String.eqb cmd "truncate" then
        match operands with
        | [] => fatalf "Usage: s3wal truncate <offset>" []
        | arg1 :: _ =>
            match ParseUint arg1 with
            | Err e => fatalf "Invalid offset: %v" [ArgError e]
            | Ok offset =>
                r ← wal_Truncate offset;
                match r with
                | Err e => fatalf "Truncate failed: %v" [ArgError e]
                | Ok _ => printf "Truncated WAL after offset %d" [ArgUint offset]
                end
            end
        end
      else if String.eqb cmd "recover" then
        r ← wal_Recover;
        match r with
        | Err e => fatalf "Recover failed: %v" [ArgError e]
        | Ok lastOffset => printf "Last offset: %d" [ArgUint lastOffset]
        end
      else
        printf "Unknown command:" [ArgString cmd];; printf commands []
  end.

Definition main (prefix : string) (args : list string) (c : S3)
  : option (option unit * state) :=
  body args (start prefix c).

(** Invocations one after the other on the same store, as a shell script
    makes them: each is a new process with a new handle. *)
Fixpoint script (prefix : string) (invocations : list (list string)) (c : S3)
  : option (list (list Line) * S3) :=
  match invocations with
  | [] => Some ([], c)
  | args :: rest =>
      match main prefix args c with
      | None => None
      | Some (_, s) =>
          match script prefix rest (client s) with
          | None => None
          | Some (outs, c') => Some (out s :: outs, c')
          end
      end
  end.

End Cmd.


(** * Properties *)

(** ** SHA-256 test vectors (FIPS 180-4) *)

Example sha256_empty :
  hex (SHA256.Sum256 []) =
  "e3b0c44298fc1c149afbf4c8996fb92427ae41e4649b934ca495991b7852b855"%string.
Proof. vm_compute. reflexivity. Qed.

Example sha256_abc :
  hex (SHA256.Sum256 (list_byte_of_string "abc")) =
  "ba7816bf8f01cfea414140de5dae2223b00361a396177a9cb410ff61f20015ad"%string.
Proof. vm_compute. reflexivity. Qed.

Example sha256_two_blocks :
  hex (SHA256.Sum256 (list_byte_of_string
        "abcdbcdecdefdefgefghfghighijhijkijkljklmklmnlmnomnopnopq")) =
  "248d6a61d20638b8e5c026930c3e6039a33ce45964ff2167f6ecedd419db06c1"%string.
Proof. vm_compute. reflexivity. Qed.

(** ** Bytes and big-endian integers *)

Lemma Z_of_byte_range (b : byte) : 0 <= Z_of_byte b < 256.
Proof.
  unfold Z_of_byte. pose proof (Byte.to_N_bounded b). lia.
Qed.

Lemma Z_of_byte_of_Z (z : Z) : Z_of_byte (byte_of_Z z) = z mod 256.
Proof.
  unfold Z_of_byte, byte_of_Z.
  assert (Hr : 0 <= z mod 256 < 256) by (apply Z.mod_pos_bound; lia).
  destruct (Byte.of_N (Z.to_N (z mod 256))) as [b|] eqn:E.
  - apply Byte.to_of_N in E. rewrite E. lia.
  - apply Byte.of_N_None_iff in E. lia.
Qed.

Lemma be_bytes_length (n : nat) (v : Z) : length (be_bytes n v) = n.
Proof.
  revert v. induction n as [|n IH]; intros v; simpl; [reflexivity|].
  rewrite length_app, IH. simpl. lia.
Qed.

Lemma be_value_snoc (bs : list byte) (b : byte) :
  be_value (bs ++ [b]) = be_value bs * 256 + Z_of_byte b.
Proof. unfold be_value. rewrite fold_left_app. reflexivity. Qed.

Lemma be_value_be_bytes (n : nat) (v : Z) :
  be_value (be_bytes n v) = v mod 256 ^ Z.of_nat n.
Proof.
  revert v. induction n as [|n IH]; intros v.
  - simpl. rewrite Z.mod_1_r. reflexivity.
  - cbn [be_bytes]. rewrite be_value_snoc, IH, Z_of_byte_of_Z.
    rewrite Nat2Z.inj_succ, Z.pow_succ_r by lia.
    rewrite Z.rem_mul_r, Z.mod_mod by lia. ring.
Qed.

Lemma be_value_be_bytes_u64 (v : Z) : U64.In v -> be_value (be_bytes 8 v) = v.
Proof.
  intros Hv. rewrite be_value_be_bytes. apply Z.mod_small. exact Hv.
Qed.

Lemma U64_add_In (x y : Z) : U64.In (U64.add x y).
Proof. unfold U64.In, U64.add, U64.wrap. apply Z.mod_pos_bound. reflexivity. Qed.

(** ** The digest has 32 bytes *)

Lemma Sum256_length (msg : list byte) : length (SHA256.Sum256 msg) = SHA256.Size.
Proof.
  unfold SHA256.Sum256, SHA256.output.
  rewrite !length_app, !be_bytes_length. reflexivity.
Qed.

(** ** Framing *)

Lemma prepareBody_eq (offset : Z) (data : list byte) :
  prepareBody offset data =
  Ok (be_bytes 8 offset ++ data ++ SHA256.Sum256 (be_bytes 8 offset ++ data)).
Proof.
  unfold prepareBody. rewrite Sum256_length, Nat.eqb_refl. cbn [negb].
  rewrite <- app_assoc. reflexivity.
Qed.

Lemma validateChecksum_framed (payload : list byte) :
  validateChecksum (payload ++ SHA256.Sum256 payload) = true.
Proof.
  unfold validateChecksum. rewrite length_app, Sum256_length.
  destruct (Nat.ltb_spec (length payload + SHA256.Size) SHA256.Size) as [H|_].
  - lia.
  - replace (length payload + SHA256.Size - SHA256.Size)%nat with (length payload) by lia.
    rewrite take_app_length, drop_app_length.
    unfold bytes_Equal. apply bool_decide_eq_true. reflexivity.
Qed.

Lemma parseRecord_framed (key : string) (offset : Z) (data : list byte) :
  U64.In offset ->
  parseRecord key offset
    (be_bytes 8 offset ++ data ++ SHA256.Sum256 (be_bytes 8 offset ++ data))
  = Ok {| Offset := offset; Data := data |}.
Proof.
  intros Hoff. unfold parseRecord.
  set (hdr := be_bytes 8 offset).
  set (sum := SHA256.Sum256 (hdr ++ data)).
  assert (Hh : length hdr = 8%nat) by apply be_bytes_length.
  assert (Hs : length sum = SHA256.Size) by apply Sum256_length.
  assert (Htake : take 8 (hdr ++ data ++ sum) = hdr)
    by (rewrite <- Hh; apply take_app_length).
  assert (Hlen : length (hdr ++ data ++ sum) = (length (hdr ++ data) + SHA256.Size)%nat)
    by (rewrite !length_app; lia).
  rewrite Htake, Hlen.
  destruct (Nat.ltb_spec (length (hdr ++ data) + SHA256.Size) (8 + SHA256.Size)) as [H|_].
  { rewrite length_app in H. lia. }
  assert (Hv : be_value hdr = offset) by (apply be_value_be_bytes_u64, Hoff).
  rewrite !Hv, Z.eqb_refl. cbn [negb].
  rewrite app_assoc. unfold sum. rewrite validateChecksum_framed. cbn [negb].
  replace (length (hdr ++ data) + SHA256.Size - SHA256.Size)%nat
    with (length (hdr ++ data)) by lia.
  rewrite take_app_length.
  rewrite <- Hh, drop_app_length. reflexivity.
Qed.

(** C4. For every [uint64] offset and every payload (the empty one
    included), [prepareBody] yields the 8 big-endian bytes of the offset,
    then the payload, then the 32-byte SHA-256 of (offset bytes ++ payload),
    at least 40 bytes in all; and the checks of [Read] on these bytes, for
    the offset of the key, give back exactly (offset, payload), whose
    length is the total length minus 40. *)
Theorem prepareBody_parseRecord_roundtrip (key : string) (offset : Z) (data : list byte) :
  U64.In offset ->
  exists body : list byte,
    prepareBody offset data = Ok body /\
    body = be_bytes 8 offset ++ data ++ SHA256.Sum256 (be_bytes 8 offset ++ data) /\
    length (be_bytes 8 offset) = 8%nat /\
    length (SHA256.Sum256 (be_bytes 8 offset ++ data)) = 32%nat /\
    (40 <= length body)%nat /\
    parseRecord key offset body = Ok {| Offset := offset; Data := data |} /\
    length data = (length body - 40)%nat.
Proof.
  intros Hoff. eexists. split; [apply prepareBody_eq|].
  split; [reflexivity|].
  rewrite !length_app, Sum256_length, be_bytes_length. unfold SHA256.Size.
  repeat split; try lia.
  apply parseRecord_framed. exact Hoff.
Qed.

Lemma prepareBody_parseRecord_roundtrip_witness :
  exists body : list byte,
    prepareBody 7 [] = Ok body /\
    body = be_bytes 8 7 ++ [] ++ SHA256.Sum256 (be_bytes 8 7 ++ []) /\
    length (be_bytes 8 7) = 8%nat /\
    length (SHA256.Sum256 (be_bytes 8 7 ++ [])) = 32%nat /\
    (40 <= length body)%nat /\
    parseRecord "wal/00000000000000000007" 7 body = Ok {| Offset := 7; Data := [] |} /\
    length (@nil byte) = (length body - 40)%nat.
Proof.
  apply (prepareBody_parseRecord_roundtrip "wal/00000000000000000007" 7 []).
  unfold U64.In, U64.modulus. lia.
Defined.

(** ** Strings *)

Lemma append_cons (x : ascii) (a b : string) : String x a +:+ b = String x (a +:+ b).
Proof. reflexivity. Qed.

Lemma append_nil (b : string) : "" +:+ b = b.
Proof. reflexivity. Qed.

Lemma append_assoc (a b c : string) : (a +:+ b) +:+ c = a +:+ (b +:+ c).
Proof. induction a as [|x a IH]; [reflexivity|]. rewrite !append_cons. f_equal. exact IH. Qed.

Lemma append_length (a b : string) :
  String.length (a +:+ b) = (String.length a + String.length b)%nat.
Proof.
  induction a as [|x a IH]; [reflexivity|].
  rewrite append_cons. cbn [String.length]. rewrite IH. reflexivity.
Qed.

Lemma compare_refl (s : string) : String.compare s s = Eq.
Proof.
  induction s as [|a s IH]; simpl; [reflexivity|].
  unfold Ascii.compare. rewrite N.compare_refl. exact IH.
Qed.

Lemma compare_append (p x y : string) :
  String.compare (p +:+ x) (p +:+ y) = String.compare x y.
Proof.
  induction p as [|a p IH]; [reflexivity|].
  rewrite !append_cons. cbn [String.compare].
  unfold Ascii.compare. rewrite N.compare_refl. exact IH.
Qed.

Lemma zeros_length (k : nat) : String.length (zeros k) = k.
Proof. induction k as [|k IH]; simpl; [reflexivity|]. unfold zeros in IH. rewrite IH. reflexivity. Qed.

Lemma zeros_snoc (k : nat) (acc : string) :
  zeros k +:+ String "0" acc = String "0" (zeros k +:+ acc).
Proof.
  induction k as [|k IH]; [reflexivity|].
  change (zeros (S k)) with (String "0" (zeros k)). rewrite !append_cons, IH. reflexivity.
Qed.

(** ** Decimal keys *)

Lemma digit_char_code (d : Z) :
  0 <= d < 10 -> Z.of_N (N_of_ascii (digit_char d)) = 48 + d.
Proof.
  intros Hd. unfold digit_char. rewrite N_ascii_embedding; lia.
Qed.

Lemma digit_char_zero : digit_char 0 = "0"%char.
Proof. reflexivity. Qed.

Lemma dec_fixed_length (k : nat) (n : Z) (acc : string) :
  String.length (dec_fixed k n acc) = (k + String.length acc)%nat.
Proof.
  revert n acc. induction k as [|k IH]; intros n acc; simpl; [reflexivity|].
  rewrite IH. simpl. lia.
Qed.

Lemma dec_fixed_zero (z : nat) (acc : string) : dec_fixed z 0 acc = zeros z +:+ acc.
Proof.
  revert acc. induction z as [|z IH]; intros acc; [reflexivity|].
  cbn [dec_fixed]. change (0 / 10) with 0. change (0 mod 10) with 0.
  rewrite digit_char_zero, IH, zeros_snoc. reflexivity.
Qed.

Lemma dec_fixed_lead (j z : nat) (n : Z) (acc : string) :
  0 <= n < 10 ^ Z.of_nat j ->
  dec_fixed (j + z) n acc = zeros z +:+ dec_fixed j n acc.
Proof.
  revert n acc. induction j as [|j IH]; intros n acc Hn.
  - assert (n = 0) by (change (10 ^ Z.of_nat 0) with 1 in Hn; lia). subst n.
    apply dec_fixed_zero.
  - cbn [Nat.add dec_fixed]. apply IH.
    rewrite Nat2Z.inj_succ, Z.pow_succ_r in Hn by lia.
    split; [apply Z.div_pos; lia|].
    apply Z.div_lt_upper_bound; lia.
Qed.

(** [fmt] stops at the leading digit; the digits it writes are the low
    [j] digits of [n] for the [j] at which the quotient vanishes. *)
Lemma fmt_digits_dec_fixed (fuel : nat) (n : Z) (acc : string) :
  (1 <= fuel)%nat -> 0 <= n < 10 ^ Z.of_nat fuel ->
  exists j : nat, (1 <= j <= fuel)%nat /\ n < 10 ^ Z.of_nat j /\
                  fmt_digits fuel n acc = dec_fixed j n acc.
Proof.
  revert n acc. induction fuel as [|fuel IH]; intros n acc Hf Hn; [lia|].
  cbn [fmt_digits].
  rewrite Nat2Z.inj_succ, Z.pow_succ_r in Hn by lia.
  destruct (Z.eqb_spec (n / 10) 0) as [Hq|Hq].
  - exists 1%nat. split; [lia|]. split.
    + change (10 ^ Z.of_nat 1) with 10.
      pose proof (Z.div_mod n 10 ltac:(lia)) as Hdm.
      pose proof (Z.mod_pos_bound n 10 ltac:(lia)). lia.
    + reflexivity.
  - assert (Hq1 : 0 <= n / 10 < 10 ^ Z.of_nat fuel).
    { split; [apply Z.div_pos; lia|]. apply Z.div_lt_upper_bound; lia. }
    assert (Hfuel : (1 <= fuel)%nat).
    { destruct fuel; [|lia]. change (10 ^ Z.of_nat 0) with 1 in Hq1. lia. }
    destruct (IH (n / 10) (String (digit_char (n mod 10)) acc) Hfuel Hq1)
      as (j & Hj & Hlt & Heq).
    exists (S j). split; [lia|]. split.
    + rewrite Nat2Z.inj_succ, Z.pow_succ_r by lia.
      pose proof (Z.div_mod n 10 ltac:(lia)) as Hdm.
      pose proof (Z.mod_pos_bound n 10 ltac:(lia)). lia.
    + cbn [dec_fixed]. exact Heq.
Qed.

(** Refinement: the formatted suffix of a key is the spec's 20-digit
    zero-padded decimal. *)
Lemma Sprintf_020d_fixed (offset : Z) :
  U64.In offset -> Sprintf_020d offset = zero_pad_decimal offset 20.
Proof.
  intros Ho. unfold Sprintf_020d, zero_pad, FormatUint, zero_pad_decimal.
  assert (Hn : 0 <= offset < 10 ^ Z.of_nat 20).
  { unfold U64.In, U64.modulus in Ho. change (10 ^ Z.of_nat 20) with 100000000000000000000.
    change (2 ^ 64) with 18446744073709551616 in Ho. lia. }
  destruct (fmt_digits_dec_fixed 20 offset "" ltac:(lia) Hn) as (j & Hj & Hlt & ->).
  rewrite dec_fixed_length. cbn [String.length].
  replace 20%nat with (j + (20 - (j + 0)))%nat at 2 by lia.
  rewrite dec_fixed_lead by lia. reflexivity.
Qed.


Lemma ParseUint_digit_step (s0 s : string) (d v : Z) :
  0 <= d < 10 -> 0 <= v -> v * 10 + d <= U64.max ->
  ParseUint_digits s0 (String (digit_char d) s) v = ParseUint_digits s0 s (v * 10 + d).
Proof.
  intros Hd Hv Hmax. cbn [ParseUint_digits].
  rewrite digit_char_code by exact Hd.
  unfold cutoff, U64.add, U64.wrap, U64.max, U64.modulus in *.
  change (2 ^ 64) with 18446744073709551616 in *.
  change ((18446744073709551616 - 1) / 10 + 1) with 1844674407370955162.
  destruct (Z.leb_spec 48 (48 + d)); [|lia].
  destruct (Z.leb_spec (48 + d) 57); [|lia]. cbn [andb].
  destruct (Z.leb_spec 1844674407370955162 v); [lia|].
  replace (48 + d - 48) with d by lia.
  rewrite (Z.mod_small (v * 10)) by lia.
  rewrite (Z.mod_small (v * 10 + d)) by lia.
  destruct (Z.ltb_spec (v * 10 + d) (v * 10)); [lia|].
  destruct (Z.ltb_spec (18446744073709551616 - 1) (v * 10 + d)); [lia|].
  reflexivity.
Qed.

Lemma ParseUint_digits_dec_fixed (s0 : string) (k : nat) (n : Z) (acc : string) (m : Z) :
  0 <= n < 10 ^ Z.of_nat k -> 0 <= m -> m * 10 ^ Z.of_nat k + n <= U64.max ->
  ParseUint_digits s0 (dec_fixed k n acc) m =
  ParseUint_digits s0 acc (m * 10 ^ Z.of_nat k + n).
Proof.
  revert n acc. induction k as [|k IH]; intros n acc Hn Hm Hmax.
  - change (10 ^ Z.of_nat 0) with 1 in *. cbn [dec_fixed]. f_equal. lia.
  - rewrite Nat2Z.inj_succ, Z.pow_succ_r in * by lia.
    set (P := 10 ^ Z.of_nat k) in *.
    assert (HP : 0 < P) by (apply Z.pow_pos_nonneg; lia).
    pose proof (Z.div_mod n 10 ltac:(lia)) as Hdm.
    pose proof (Z.mod_pos_bound n 10 ltac:(lia)) as Hmod.
    assert (Hq : 0 <= n / 10 < P).
    { split; [apply Z.div_pos; lia|]. apply Z.div_lt_upper_bound; lia. }
    cbn [dec_fixed]. rewrite IH; [|exact Hq|exact Hm|nia].
    rewrite ParseUint_digit_step; [|exact Hmod|nia|nia].
    f_equal. nia.
Qed.

Lemma ParseUint_zero_pad_decimal (offset : Z) :
  U64.In offset -> ParseUint (zero_pad_decimal offset 20) = Ok offset.
Proof.
  intros Ho. unfold zero_pad_decimal.
  assert (Hn : 0 <= offset < 10 ^ Z.of_nat 20).
  { unfold U64.In, U64.modulus in Ho. change (10 ^ Z.of_nat 20) with 100000000000000000000.
    change (2 ^ 64) with 18446744073709551616 in Ho. lia. }
  assert (Hmax : 0 * 10 ^ Z.of_nat 20 + offset <= U64.max).
  { unfold U64.In, U64.max in *. lia. }
  pose proof (dec_fixed_length 20 offset "") as Hlen.
  unfold ParseUint. destruct (dec_fixed 20 offset "") as [|c s] eqn:E.
  - discriminate Hlen.
  - rewrite <- E, ParseUint_digits_dec_fixed by (exact Hn || lia || exact Hmax).
    cbn [ParseUint_digits]. f_equal; lia.
Qed.

Lemma digit_char_compare (d e : Z) :
  0 <= d < 10 -> 0 <= e < 10 ->
  Ascii.compare (digit_char d) (digit_char e) = (d ?= e).
Proof.
  intros Hd He. unfold Ascii.compare.
  rewrite <- N2Z.inj_compare, !digit_char_code by assumption.
  apply Z.add_compare_mono_l.
Qed.

Lemma compare_dec_fixed (k : nat) (a b : Z) (acc1 acc2 : string) :
  0 <= a < 10 ^ Z.of_nat k -> 0 <= b < 10 ^ Z.of_nat k ->
  String.compare (dec_fixed k a acc1) (dec_fixed k b acc2) =
  match a ?= b with
  | Eq => String.compare acc1 acc2
  | c => c
  end.
Proof.
  revert a b acc1 acc2. induction k as [|k IH]; intros a b acc1 acc2 Ha Hb.
  - change (10 ^ Z.of_nat 0) with 1 in *.
    assert (a = 0) by lia. assert (b = 0) by lia. subst. reflexivity.
  - rewrite Nat2Z.inj_succ, Z.pow_succ_r in * by lia.
    set (P := 10 ^ Z.of_nat k) in *.
    pose proof (Z.div_mod a 10 ltac:(lia)) as Hda.
    pose proof (Z.mod_pos_bound a 10 ltac:(lia)) as Hma.
    pose proof (Z.div_mod b 10 ltac:(lia)) as Hdb.
    pose proof (Z.mod_pos_bound b 10 ltac:(lia)) as Hmb.
    cbn [dec_fixed]. rewrite IH.
    2:{ split; [apply Z.div_pos; lia|]. apply Z.div_lt_upper_bound; lia. }
    2:{ split; [apply Z.div_pos; lia|]. apply Z.div_lt_upper_bound; lia. }
    cbn [String.compare]. rewrite digit_char_compare by assumption.
    destruct (Z.compare_spec (a / 10) (b / 10)) as [Hq|Hq|Hq];
      destruct (Z.compare_spec (a mod 10) (b mod 10)) as [Hr|Hr|Hr];
      destruct (Z.compare_spec a b) as [Hab|Hab|Hab];
      try reflexivity; lia.
Qed.

(** ** Locating the offset in a key *)

Lemma LastIndexByte_from_append (i found : Z) (s1 s2 : string) (c : ascii) :
  LastIndexByte_from i found (s1 +:+ s2) c =
  LastIndexByte_from (i + Z.of_nat (String.length s1)) (LastIndexByte_from i found s1 c) s2 c.
Proof.
  revert i found. induction s1 as [|a s1 IH]; intros i found.
  - rewrite append_nil. cbn [String.length LastIndexByte_from]. f_equal. lia.
  - rewrite append_cons. cbn [String.length LastIndexByte_from]. rewrite IH. f_equal. lia.
Qed.

Lemma digit_char_not_slash (d : Z) : 0 <= d < 10 -> Ascii.eqb (digit_char d) "/" = false.
Proof.
  intros Hd. apply Ascii.eqb_neq. intros E.
  pose proof (digit_char_code d Hd) as Hc. rewrite E in Hc. cbn in Hc. lia.
Qed.

Lemma LastIndexByte_from_dec_fixed (i found : Z) (k : nat) (n : Z) (acc : string) :
  LastIndexByte_from i found (dec_fixed k n acc) "/" =
  LastIndexByte_from (i + Z.of_nat k) found acc "/".
Proof.
  revert i n acc. induction k as [|k IH]; intros i n acc.
  - cbn [dec_fixed]. f_equal. lia.
  - cbn [dec_fixed]. rewrite IH. cbn [LastIndexByte_from].
    rewrite digit_char_not_slash by (apply Z.mod_pos_bound; lia).
    f_equal. lia.
Qed.

Lemma string_from_append (s1 s2 : string) :
  string_from (String.length s1) (s1 +:+ s2) = s2.
Proof.
  induction s1 as [|a s1 IH]; [reflexivity|].
  rewrite append_cons. cbn [String.length string_from]. exact IH.
Qed.

Lemma getObjectKey_fixed (w : S3WAL) (offset : Z) :
  U64.In offset ->
  getObjectKey w offset = (S3WAL.prefix w +:+ "/") +:+ zero_pad_decimal offset 20.
Proof.
  intros Ho. unfold getObjectKey. rewrite Sprintf_020d_fixed by exact Ho.
  rewrite append_assoc. reflexivity.
Qed.

Lemma getOffsetFromKey_fixed (p : string) (offset : Z) :
  U64.In offset ->
  getOffsetFromKey ((p +:+ "/") +:+ zero_pad_decimal offset 20) = Ok offset.
Proof.
  intros Ho. pose proof (ParseUint_zero_pad_decimal offset Ho) as HP.
  unfold zero_pad_decimal in *. unfold getOffsetFromKey, LastIndexByte.
  rewrite LastIndexByte_from_append.
  rewrite LastIndexByte_from_dec_fixed. cbn [LastIndexByte_from].
  rewrite LastIndexByte_from_append. cbn [LastIndexByte_from String.length].
  change (Ascii.eqb "/" "/") with true. cbv iota.
  rewrite !append_length, dec_fixed_length.
  cbn [String.length].
  destruct (Z.ltb_spec (0 + Z.of_nat (String.length p)) 0) as [H|_]; [lia|].
  destruct (Z.eqb_spec (0 + Z.of_nat (String.length p))
              (Z.of_nat (String.length p + 1 + (20 + 0)) - 1)) as [H|_]; [lia|].
  cbn [orb].
  replace (Z.to_nat (0 + Z.of_nat (String.length p) + 1))
    with (String.length (p +:+ "/")) by (rewrite append_length; cbn [String.length]; lia).
  rewrite string_from_append. exact HP.
Qed.

Lemma getOffsetFromKey_getObjectKey (w : S3WAL) (offset : Z) :
  U64.In offset -> getOffsetFromKey (getObjectKey w offset) = Ok offset.
Proof.
  intros Ho. rewrite getObjectKey_fixed by exact Ho. apply getOffsetFromKey_fixed, Ho.
Qed.

Lemma getObjectKey_compare (w : S3WAL) (a b : Z) :
  U64.In a -> U64.In b ->
  String.compare (getObjectKey w a) (getObjectKey w b) = (a ?= b).
Proof.
  intros Ha Hb. rewrite !getObjectKey_fixed by assumption.
  rewrite compare_append. unfold zero_pad_decimal.
  assert (Hr : forall x, U64.In x -> 0 <= x < 10 ^ Z.of_nat 20).
  { intros x Hx. unfold U64.In, U64.modulus in Hx.
    change (10 ^ Z.of_nat 20) with 100000000000000000000.
    change (2 ^ 64) with 18446744073709551616 in Hx. lia. }
  rewrite compare_dec_fixed by auto.
  destruct (a ?= b); reflexivity.
Qed.

(** C5. The key of an offset decodes to that offset, so distinct offsets
    have distinct keys, and for [uint64] offsets the byte-wise
    lexicographic order of the keys is the numeric order of the offsets:
    [a < b] exactly when the key of [a] is smaller than the key of [b]. *)
Theorem getObjectKey_bijective_monotone (w : S3WAL) (a b : Z) :
  U64.In a -> U64.In b ->
  getObjectKey w a = (S3WAL.prefix w +:+ "/") +:+ zero_pad_decimal a 20 /\
  getOffsetFromKey (getObjectKey w a) = Ok a /\
  (getObjectKey w a = getObjectKey w b -> a = b) /\
  (a < b -> String.ltb (getObjectKey w a) (getObjectKey w b) = true) /\
  (String.ltb (getObjectKey w a) (getObjectKey w b) = true -> a < b).
Proof.
  intros Ha Hb.
  split; [apply getObjectKey_fixed, Ha|].
  split; [apply getOffsetFromKey_getObjectKey, Ha|].
  pose proof (getObjectKey_compare w a b Ha Hb) as Hc.
  unfold String.ltb. rewrite Hc.
  split; [|split].
  - intros E. rewrite E, compare_refl in Hc. symmetry in Hc.
    apply Z.compare_eq_iff in Hc. exact Hc.
  - intros Hlt. apply Z.compare_lt_iff in Hlt. rewrite Hlt. reflexivity.
  - destruct (Z.compare_spec a b); intros; (discriminate || assumption).
Qed.

Lemma getObjectKey_bijective_monotone_witness :
  let w := NewS3WAL "wal" in
  getObjectKey w 9 = (S3WAL.prefix w +:+ "/") +:+ zero_pad_decimal 9 20 /\
  getOffsetFromKey (getObjectKey w 9) = Ok 9 /\
  (getObjectKey w 9 = getObjectKey w 10 -> 9 = 10) /\
  (9 < 10 -> String.ltb (getObjectKey w 9) (getObjectKey w 10) = true) /\
  (String.ltb (getObjectKey w 9) (getObjectKey w 10) = true -> 9 < 10).
Proof.
  apply (getObjectKey_bijective_monotone (NewS3WAL "wal") 9 10);
    unfold U64.In, U64.modulus; lia.
Defined.

(** ** The store calls *)

Lemma PutObject_Ok (c c' : S3) (key : string) (body : list byte) (u : unit) :
  PutObject c key body = (Ok u, c') ->
  hd Served (faults c) = Served /\
  objects c' = <[key := body]> (objects c) /\
  locked c' = locked c /\ MaxKeys c' = MaxKeys c /\ faults c' = tl (faults c).
Proof.
  unfold PutObject, next_fault. destruct (hd Served (faults c)); intros E; inversion E.
  repeat split; reflexivity.
Qed.

(** A failed [PutObject] was refused, with the bucket as before, or
    interrupted, with the object stored. *)
Lemma PutObject_Err (c c' : S3) (key : string) (body : list byte) (e : S3Error) :
  PutObject c key body = (Err e, c') ->
  hd Served (faults c) <> Served /\
  (exists msg, e = RequestFailed msg /\
     ((hd Served (faults c) = Refused msg /\ objects c' = objects c) \/
      (hd Served (faults c) = Interrupted msg /\
       objects c' = <[key := body]> (objects c)))) /\
  locked c' = locked c /\ MaxKeys c' = MaxKeys c /\ faults c' = tl (faults c).
Proof.
  unfold PutObject, next_fault. destruct (hd Served (faults c)) as [|msg|msg];
    intros E; inversion E; (split; [discriminate|]);
    (split; [exists msg; split; [reflexivity|]|repeat split; reflexivity]).
  - left. split; reflexivity.
  - right. split; reflexivity.
Qed.

(** Whatever [PutObject] returns, no other key is touched. *)
Lemma PutObject_other (c c' : S3) (key : string) (body : list byte)
    (r : result S3Error unit) (k : string) :
  PutObject c key body = (r, c') -> k <> key -> objects c' !! k = objects c !! k.
Proof.
  unfold PutObject, next_fault. destruct (hd Served (faults c)); intros E Hk;
    inversion E; cbn [set_objects objects]; try reflexivity;
    apply lookup_insert_ne; congruence.
Qed.

Lemma GetObject_served (c : S3) (key : string) :
  hd Served (faults c) = Served ->
  fst (GetObject c key) =
  match objects c !! key with
  | Some b => Ok {| content := b; broken := None |}
  | None => Err NoSuchKey
  end.
Proof.
  intros Hf. unfold GetObject, next_fault. rewrite Hf. cbn [objects].
  destruct (objects c !! key); reflexivity.
Qed.

Lemma Read_served (w : S3WAL) (offset : Z) (c : S3) :
  hd Served (faults c) = Served ->
  fst (Read w offset c) =
  match objects c !! getObjectKey w offset with
  | Some b => parseRecord (getObjectKey w offset) offset b
  | None => Err (ErrGetObject (getObjectKey w offset) NoSuchKey)
  end.
Proof.
  intros Hf. unfold Read.
  pose proof (GetObject_served c (getObjectKey w offset) Hf) as Hg.
  destruct (GetObject c (getObjectKey w offset)) as [[out|e] c'];
    cbn [fst] in Hg; subst;
    destruct (objects c !! getObjectKey w offset); try discriminate.
  - inversion Hg. reflexivity.
  - inversion Hg. reflexivity.
Qed.

(** [Read] looks at nothing but the object under its key and the outcome
    of its one request. *)
Lemma Read_ext (w1 w2 : S3WAL) (offset : Z) (c1 c2 : S3) :
  S3WAL.prefix w1 = S3WAL.prefix w2 ->
  objects c1 !! getObjectKey w1 offset = objects c2 !! getObjectKey w1 offset ->
  hd Served (faults c1) = hd Served (faults c2) ->
  fst (Read w1 offset c1) = fst (Read w2 offset c2).
Proof.
  intros Hp Ho Hf.
  assert (Hk : getObjectKey w2 offset = getObjectKey w1 offset)
    by (unfold getObjectKey; rewrite Hp; reflexivity).
  unfold Read, GetObject, next_fault. rewrite Hk, <- Hf. cbn [objects]. rewrite <- Ho.
  destruct (hd Served (faults c1)); [| reflexivity |];
    destruct (objects c1 !! getObjectKey w1 offset); reflexivity.
Qed.

Lemma Read_state (w : S3WAL) (offset : Z) (c : S3) :
  objects (snd (Read w offset c)) = objects c /\
  locked (snd (Read w offset c)) = locked c /\
  MaxKeys (snd (Read w offset c)) = MaxKeys c /\
  faults (snd (Read w offset c)) = tl (faults c).
Proof.
  unfold Read, GetObject, next_fault. cbn [objects].
  destruct (hd Served (faults c)); [| repeat split; reflexivity |];
    (destruct (objects c !! getObjectKey w offset); [|repeat split; reflexivity]);
    unfold ReadAll; cbn [broken content]; repeat split; reflexivity.
Qed.

(** ** Append and Read *)

Lemma Append_inv (w : S3WAL) (data : list byte) (c : S3) (r : result Error Z)
    (w' : S3WAL) (c' : S3) :
  Append w data c = (r, w', c') ->
  let next := U64.add (S3WAL.length w) 1 in
  let body := be_bytes 8 next ++ data ++ SHA256.Sum256 (be_bytes 8 next ++ data) in
  (exists u, PutObject c (getObjectKey w next) body = (Ok u, c') /\
             r = Ok next /\ w' = set_length w next) \/
  (exists e, PutObject c (getObjectKey w next) body = (Err e, c') /\
             r = Err (ErrPutObject next e) /\ w' = w).
Proof.
  unfold Append. rewrite prepareBody_eq. cbv zeta.
  destruct (PutObject c _ _) as [[u|e] c1]; intros E; inversion E; subst.
  - left. exists u. auto.
  - right. exists e. auto.
Qed.

(** C1. When [Append(data)] succeeds with offset [o]: [o] is the cached
    length before the call plus 1 (in [uint64] arithmetic, hence the
    integer successor whenever the cache is below 2^64-1), the cached
    length becomes [o], and a [Read(o)] on the store as [Append] left it,
    its request served, returns the record [(o, data)]. *)
Theorem Append_then_Read (w : S3WAL) (data : list byte) (c : S3)
    (o : Z) (w' : S3WAL) (c' : S3) :
  Append w data c = (Ok o, w', c') ->
  o = U64.add (S3WAL.length w) 1 /\
  (0 <= S3WAL.length w < U64.max -> o = S3WAL.length w + 1) /\
  S3WAL.length w' = o /\
  forall c2 : S3,
    objects c2 = objects c' -> hd Served (faults c2) = Served ->
    fst (Read w' o c2) = Ok {| Offset := o; Data := data |}.
Proof.
  intros HA. apply Append_inv in HA. cbv zeta in HA.
  destruct HA as [(u & HP & Hr & Hw)|(e & _ & Hr & _)]; [|discriminate].
  inversion Hr as [Ho]. clear Hr. rewrite <- Ho in *.
  split; [reflexivity|]. split.
  { intros Hl. rewrite Ho. unfold U64.add, U64.wrap, U64.max in *.
    apply Z.mod_small. lia. }
  split; [subst w'; reflexivity|].
  intros c2 Hobj Hserved.
  apply PutObject_Ok in HP. destruct HP as (_ & Hput & _).
  rewrite Read_served by exact Hserved.
  assert (Hk : getObjectKey w' o = getObjectKey w o) by (subst w'; reflexivity).
  rewrite Hk, Hobj, Hput, lookup_insert_eq.
  apply parseRecord_framed. rewrite Ho. apply U64_add_In.
Qed.

Lemma Append_then_Read_witness :
  let w := Sample.wal in
  let c := Sample.bucket 2 [] in
  let c' := snd (Append w Sample.rec1 c) in
  let w' := snd (fst (Append w Sample.rec1 c)) in
  1 = U64.add (S3WAL.length w) 1 /\
  (0 <= S3WAL.length w < U64.max -> 1 = S3WAL.length w + 1) /\
  S3WAL.length w' = 1 /\
  forall c2 : S3,
    objects c2 = objects c' -> hd Served (faults c2) = Served ->
    fst (Read w' 1 c2) = Ok {| Offset := 1; Data := Sample.rec1 |}.
Proof.
  apply (Append_then_Read Sample.wal Sample.rec1 (Sample.bucket 2 [])).
  vm_compute. reflexivity.
Defined.

(** C6. When the store write of [Append(data)] fails, [Append] returns the
    put error for the offset it tried and the cached length is as before.
    The store is as before when the request was refused; when it was
    interrupted the object may be stored all the same, and then only the
    key of that offset differs. An [Append] that follows tries that same
    offset: if it succeeds it returns it, and the object under that key
    is the new record. *)
Theorem Append_put_failure (w : S3WAL) (data : list byte) (c : S3) (e : S3Error) (c1 : S3) :
  let next := U64.add (S3WAL.length w) 1 in
  PutObject c (getObjectKey w next)
    (be_bytes 8 next ++ data ++ SHA256.Sum256 (be_bytes 8 next ++ data)) = (Err e, c1) ->
  Append w data c = (Err (ErrPutObject next e), w, c1) /\
  (forall k, k <> getObjectKey w next -> objects c1 !! k = objects c !! k) /\
  (forall msg, hd Served (faults c) = Refused msg -> objects c1 = objects c) /\
  forall (data2 : list byte) (r : result Error Z) (w2 : S3WAL) (c2 : S3),
    Append w data2 c1 = (r, w2, c2) ->
    (r = Ok next /\ S3WAL.length w2 = next /\
     objects c2 !! getObjectKey w next =
       Some (be_bytes 8 next ++ data2 ++ SHA256.Sum256 (be_bytes 8 next ++ data2))) \/
    (exists e2, r = Err (ErrPutObject next e2) /\ w2 = w).
Proof.
  intros next HP. split; [|split; [|split]].
  - unfold Append. rewrite prepareBody_eq. fold next. rewrite HP. reflexivity.
  - intros k Hk. eapply PutObject_other; eassumption.
  - intros msg Hf. apply PutObject_Err in HP.
    destruct HP as (_ & (msg' & _ & [[_ Ho]|[Hi _]]) & _); [exact Ho|congruence].
  - intros data2 r w2 c2 HA. apply Append_inv in HA. cbv zeta in HA. fold next in HA.
    destruct HA as [(u & HP2 & Hr & Hw)|(e2 & _ & Hr & Hw)].
    + left. subst. split; [reflexivity|]. split; [reflexivity|].
      apply PutObject_Ok in HP2. destruct HP2 as (_ & Ho & _).
      rewrite Ho. apply lookup_insert_eq.
    + right. exists e2. split; assumption.
Qed.

Lemma Append_put_failure_witness :
  let w := Sample.wal in
  let c := Sample.bucket 2 [Interrupted "timeout"] in
  let c1 := snd (Append w Sample.rec1 c) in
  Append w Sample.rec1 c = (Err (ErrPutObject 1 (RequestFailed "timeout")), w, c1) /\
  (forall k, k <> getObjectKey w 1 -> objects c1 !! k = objects c !! k) /\
  (forall msg, hd Served (faults c) = Refused msg -> objects c1 = objects c) /\
  forall (data2 : list byte) (r : result Error Z) (w2 : S3WAL) (c2 : S3),
    Append w data2 c1 = (r, w2, c2) ->
    (r = Ok 1 /\ S3WAL.length w2 = 1 /\
     objects c2 !! getObjectKey w 1 =
       Some (be_bytes 8 1 ++ data2 ++ SHA256.Sum256 (be_bytes 8 1 ++ data2))) \/
    (exists e2, r = Err (ErrPutObject 1 e2) /\ w2 = w).
Proof.
  apply (Append_put_failure Sample.wal Sample.rec1
           (Sample.bucket 2 [Interrupted "timeout"]) (RequestFailed "timeout")).
  vm_compute. reflexivity.
Defined.

(** ** What a listing returns *)

Lemma keys_under_elem (pfx : string) (m : gmap string (list byte)) (k : string) :
  k ∈ keys_under pfx m <-> is_Some (m !! k) /\ String.prefix pfx k = true.
Proof.
  unfold keys_under. rewrite merge_sort_Permutation, list_elem_of_filter, list_elem_of_fmap.
  split.
  - intros [Hp [[k' v] [-> Hin]]]. apply elem_of_map_to_list in Hin.
    split; [exists v; exact Hin | apply Is_true_true_1, Hp].
  - intros [[v Hv] Hp]. split; [apply Is_true_true_2, Hp|].
    exists (k, v). split; [reflexivity | apply elem_of_map_to_list, Hv].
Qed.

Lemma keys_under_sorted (pfx : string) (m : gmap string (list byte)) :
  StronglySorted String.le (keys_under pfx m).
Proof. apply StronglySorted_merge_sort; apply _. Qed.

Lemma keys_under_NoDup (pfx : string) (m : gmap string (list byte)) :
  NoDup (keys_under pfx m).
Proof.
  unfold keys_under. rewrite merge_sort_Permutation.
  apply NoDup_filter, NoDup_fst_map_to_list.
Qed.

Lemma prefix_nonempty (p k : string) : String.prefix (p +:+ "/") k = true -> k <> ""%string.
Proof. intros H ->. destruct p; discriminate H. Qed.

Lemma keys_under_nonempty (p : string) (m : gmap string (list byte)) :
  Forall (fun k => k <> ""%string) (keys_under (p +:+ "/") m).
Proof.
  apply Forall_forall. intros k Hk. apply keys_under_elem in Hk.
  eapply prefix_nonempty, Hk.
Qed.

(** A sorted duplicate-free list is determined by its elements. *)
Lemma sorted_keys_unique (l1 l2 : list string) :
  StronglySorted String.le l1 -> NoDup l1 ->
  StronglySorted String.le l2 -> NoDup l2 ->
  (forall k, k ∈ l1 <-> k ∈ l2) -> l1 = l2.
Proof.
  intros S1 N1 S2 N2 H. apply (StronglySorted_unique String.le); try assumption.
  apply NoDup_Permutation; assumption.
Qed.

Lemma StronglySorted_filter_keys (P : string -> Prop) `{!forall k, Decision (P k)}
    (l : list string) :
  StronglySorted String.le l -> StronglySorted String.le (filter P l).
Proof.
  induction 1 as [|x l Hl IH Hx]; [constructor|].
  rewrite filter_cons. destruct (decide (P x)); [|exact IH].
  constructor; [exact IH|].
  apply Forall_forall. intros y Hy. apply list_elem_of_filter in Hy.
  rewrite Forall_forall in Hx. apply Hx, Hy.
Qed.

Lemma filter_all {A : Type} (P : A -> Prop) `{!forall x, Decision (P x)} (l : list A) :
  Forall P l -> filter P l = l.
Proof.
  induction 1 as [|x l Hx _ IH]; [reflexivity|].
  rewrite filter_cons_True by exact Hx. f_equal. exact IH.
Qed.

Lemma filter_none {A : Type} (P : A -> Prop) `{!forall x, Decision (P x)} (l : list A) :
  Forall (fun x => ¬ P x) l -> filter P l = [].
Proof.
  induction 1 as [|x l Hx _ IH]; [reflexivity|].
  rewrite filter_cons_False by exact Hx. exact IH.
Qed.

(** The keys after the last key returned are the keys not yet returned. *)
Lemma keys_after_last (done rest : list string) :
  StronglySorted String.le (done ++ rest) -> NoDup (done ++ rest) ->
  keys_after (last done) (done ++ rest) = rest.
Proof.
  intros HS HN. destruct (last done) as [t|] eqn:Hl.
  2:{ apply last_None in Hl. subst done. reflexivity. }
  unfold keys_after. rewrite filter_app.
  apply last_Some in Hl. destruct Hl as [d' ->].
  apply StronglySorted_app in HS. destruct HS as (Hcross & Hd & _).
  apply StronglySorted_app in Hd. destruct Hd as (Hd & _ & _).
  apply NoDup_app in HN. destruct HN as (_ & Hdisj & _).
  rewrite filter_none, filter_all; [reflexivity| |].
  - apply Forall_forall. intros k Hk Hle.
    assert (Ht : t ∈ d' ++ [t]) by (apply elem_of_app; right; constructor).
    pose proof (Hcross t k Ht Hk) as Htk.
    assert (k = t) by (apply (anti_symm String.le); assumption). subst k.
    exact (Hdisj t Ht Hk).
  - apply Forall_forall. intros k Hk Hn. apply Hn.
    apply elem_of_app in Hk. destruct Hk as [Hk|Hk].
    + apply Hd; [exact Hk | constructor].
    + apply list_elem_of_singleton in Hk. subst k. reflexivity.
Qed.

(** ** The page loop *)

Lemma HasMorePages_position (ks : list string) (p : Paginator) (i : nat)
    (done rest : list string) :
  position ks p i done rest ->
  if HasMorePages p then i = O \/ rest <> [] else done = ks.
Proof.
  intros [Hs Hf Hl]. unfold HasMorePages.
  destruct (firstPage p); cbn [orb].
  - left. apply Hf. reflexivity.
  - destruct (Hl eq_refl) as [_ Hn]. destruct (nextToken p) as [t|].
    + destruct Hn as (_ & Hr & Ht).
      apply String.eqb_neq in Ht. rewrite Ht. cbn [negb]. right. exact Hr.
    + subst rest. rewrite app_nil_r in Hs. symmetry. exact Hs.
Qed.

Lemma position_token (ks : list string) (p : Paginator) (i : nat)
    (done rest : list string) :
  position ks p i done rest -> HasMorePages p = true -> nextToken p = last done.
Proof.
  intros [Hs Hf Hl]. unfold HasMorePages.
  destruct (firstPage p); cbn [orb].
  - intros _. destruct (Hf eq_refl) as (_ & -> & ->). reflexivity.
  - destruct (Hl eq_refl) as [_ Hn]. destruct (nextToken p) as [t|]; [|discriminate].
    intros _. symmetry. apply Hn.
Qed.

Lemma ListObjectsV2_served (c : S3) (prefix0 : string) (token : option string) :
  hd Served (faults c) = Served ->
  ListObjectsV2 c prefix0 token =
  (let rest := keys_after token (keys_under prefix0 (objects c)) in
   let n := Pos.to_nat (MaxKeys c) in
   (Ok {| Contents := key_object <$> take n rest;
          IsTruncated := bool_decide (n < length rest)%nat;
          NextContinuationToken :=
            if bool_decide (n < length rest)%nat then last (take n rest) else None |},
    snd (next_fault c))).
Proof. intros Hf. unfold ListObjectsV2, next_fault. rewrite Hf. reflexivity. Qed.

Lemma ListObjectsV2_failed (c : S3) (prefix0 : string) (token : option string) (msg : string) :
  hd Served (faults c) = Refused msg \/ hd Served (faults c) = Interrupted msg ->
  ListObjectsV2 c prefix0 token = (Err (RequestFailed msg), snd (next_fault c)).
Proof. intros [Hf|Hf]; unfold ListObjectsV2, next_fault; rewrite Hf; reflexivity. Qed.

Section page_loop.
Context {A : Type}.
Variable wrap : S3Error -> Error.
Variable body : A -> list Object -> S3 -> result Error A * S3.
Variable prefix0 : string.
Variable ks : list string.
Variable page_size : positive.

(** What holds after [i] requests have returned the keys [done] ... *)
Variable J : nat -> list string -> A -> S3 -> Prop.
(** ... and when the loop stops on an error. *)
Variable E : Error -> S3 -> Prop.

Hypothesis ks_nonempty : Forall (fun k => k <> ""%string) ks.

Hypothesis J_listing : forall i done rest acc c,
  J i done acc c -> ks = done ++ rest ->
  MaxKeys c = page_size /\
  keys_after (last done) (keys_under prefix0 (objects c)) = rest.

Hypothesis J_refused : forall i done rest acc c msg,
  J i done acc c -> ks = done ++ rest -> i = O \/ rest <> [] ->
  hd Served (faults c) = Refused msg \/ hd Served (faults c) = Interrupted msg ->
  E (wrap (RequestFailed msg)) (snd (next_fault c)).

Hypothesis J_page : forall i done page rest acc c,
  J i done acc c -> ks = done ++ page ++ rest ->
  page = take (Pos.to_nat page_size) (page ++ rest) ->
  i = O \/ page <> [] ->
  hd Served (faults c) = Served ->
  match body acc (key_object <$> page) (snd (next_fault c)) with
  | (Ok acc', c') => J (S i) (done ++ page) acc' c'
  | (Err e, c') => E e c'
  end.

Lemma forPages_run (fuel : nat) : forall p i done rest acc c,
  pfx p = prefix0 ->
  position ks p i done rest ->
  J i done acc c ->
  (HasMorePages p = true -> (length rest < fuel)%nat) ->
  exists r c', forPages fuel wrap body p acc c = Some (r, c') /\
               match r with
               | Ok a => exists n, (if HasMorePages p then i < n else i <= n)%nat /\
                                   J n ks a c'
               | Err e => E e c'
               end.
Proof.
  induction fuel as [|fuel IH]; intros p i done rest acc c Hpfx Hpos HJ Hfuel.
  - pose proof (HasMorePages_position _ _ _ _ _ Hpos) as Hm.
    cbn [forPages]. destruct (HasMorePages p).
    + specialize (Hfuel eq_refl). lia.
    + subst done. exists (Ok acc), c. split; [reflexivity|]. exists i. split; [lia|exact HJ].
  - pose proof (HasMorePages_position _ _ _ _ _ Hpos) as Hm.
    pose proof (position_token _ _ _ _ _ Hpos) as Htok.
    cbn [forPages]. destruct (HasMorePages p).
    2:{ subst done. exists (Ok acc), c. split; [reflexivity|].
        exists i. split; [lia|exact HJ]. }
    specialize (Htok eq_refl). specialize (Hfuel eq_refl).
    destruct (J_listing _ _ _ _ _ HJ (pos_split _ _ _ _ _ Hpos)) as [HMK Hafter].
    unfold NextPage. rewrite Hpfx, Htok.
    destruct (hd Served (faults c)) as [|msg|msg] eqn:Hfault.
    2:{ rewrite (ListObjectsV2_failed c prefix0 (last done) msg) by (left; exact Hfault).
        exists (Err (wrap (RequestFailed msg))), (snd (next_fault c)).
        split; [reflexivity|].
        eapply J_refused; [exact HJ|exact (pos_split _ _ _ _ _ Hpos)|exact Hm|].
        left. exact Hfault. }
    2:{ rewrite (ListObjectsV2_failed c prefix0 (last done) msg) by (right; exact Hfault).
        exists (Err (wrap (RequestFailed msg))), (snd (next_fault c)).
        split; [reflexivity|].
        eapply J_refused; [exact HJ|exact (pos_split _ _ _ _ _ Hpos)|exact Hm|].
        right. exact Hfault. }
    rewrite ListObjectsV2_served by exact Hfault. cbv zeta.
    rewrite Hafter, HMK.
    set (n := Pos.to_nat page_size).
    assert (Hn : (1 <= n)%nat) by (unfold n; lia).
    cbn [Contents IsTruncated NextContinuationToken pfx].
    pose proof (take_drop n rest) as Htd.
    assert (Hks : ks = done ++ take n rest ++ drop n rest).
    { rewrite Htd. exact (pos_split _ _ _ _ _ Hpos). }
    assert (Hpage : i = O \/ take n rest <> []).
    { destruct Hm as [Hm|Hm]; [left; exact Hm|right].
      destruct rest; [congruence|]. destruct n; [lia|]. discriminate. }
    pose proof (J_page i done (take n rest) (drop n rest) acc c HJ Hks
                  ltac:(rewrite Htd; reflexivity) Hpage Hfault) as Hbody.
    destruct (body acc (key_object <$> take n rest) (snd (next_fault c)))
      as [[acc'|e] c'].
    2:{ exists (Err e), c'. split; [reflexivity|exact Hbody]. }
    destruct (IH {| pfx := prefix0; firstPage := false;
                    nextToken := if bool_decide (n < length rest)%nat
                                 then (if bool_decide (n < length rest)%nat
                                       then last (take n rest) else None)
                                 else None |}
                 (S i) (done ++ take n rest) (drop n rest) acc' c')
      as (r & c2 & Hrun & Hr).
    + reflexivity.
    + split.
      * rewrite <- app_assoc. exact Hks.
      * cbn [firstPage]. discriminate.
      * cbn [firstPage nextToken]. intros _. split; [lia|].
        destruct (bool_decide (n < length rest)%nat) eqn:Htr.
        -- apply bool_decide_eq_true in Htr.
           destruct (last (take n rest)) as [t|] eqn:Hlast.
           ++ split; [|split].
              ** rewrite last_app, Hlast. reflexivity.
              ** intros Hd. apply (f_equal length) in Hd.
                 rewrite length_drop in Hd. cbn in Hd. lia.
              ** apply last_Some_elem_of in Hlast.
                 rewrite Forall_forall in ks_nonempty. apply ks_nonempty.
                 rewrite Hks. apply elem_of_app. right.
                 apply elem_of_app. left. exact Hlast.
           ++ apply last_None in Hlast. apply (f_equal length) in Hlast.
              rewrite length_take in Hlast. cbn in Hlast. lia.
        -- apply bool_decide_eq_false in Htr. apply drop_ge. lia.
    + exact Hbody.
    + unfold HasMorePages. cbn [firstPage nextToken orb]. intros Hmore.
      rewrite length_drop.
      destruct (bool_decide (n < length rest)%nat) eqn:Htr; [|discriminate].
      apply bool_decide_eq_true in Htr. lia.
    + exists r, c2. split; [exact Hrun|].
      destruct r as [a|e]; [|exact Hr].
      destruct Hr as (m & Hm' & HJm). exists m. split; [|exact HJm].
      destruct (HasMorePages _) in Hm'; lia.
Qed.
End page_loop.


(** ** Listings whose loop body only computes *)

Lemma hd_drop {A : Type} (d : A) (i : nat) (l : list A) :
  hd d (drop i l) = default d (l !! i).
Proof.
  revert l. induction i as [|i IH]; intros [|x l]; cbn; try reflexivity. apply IH.
Qed.

Lemma tl_drop {A : Type} (i : nat) (l : list A) : tl (drop i l) = drop (S i) l.
Proof.
  revert l. induction i as [|i IH]; intros [|x l].
  - reflexivity.
  - reflexivity.
  - reflexivity.
  - exact (IH l).
Qed.

Lemma served_next (i : nat) (fs : list Fault) :
  Forall (fun f => f = Served) (take i fs) ->
  hd Served (drop i fs) = Served ->
  Forall (fun f => f = Served) (take (S i) fs).
Proof.
  intros HF Hh. rewrite hd_drop in Hh.
  destruct (fs !! i) as [x|] eqn:Hx.
  - rewrite (take_S_r _ _ _ Hx). apply Forall_app. split; [exact HF|].
    constructor; [exact Hh|constructor].
  - apply lookup_ge_None in Hx. rewrite take_ge by lia. rewrite take_ge in HF by lia.
    exact HF.
Qed.

Lemma not_served (i n : nat) (fs : list Fault) (f : Fault) :
  (i < n)%nat -> hd Served (drop i fs) = f -> f <> Served ->
  ¬ Forall (fun f => f = Served) (take n fs).
Proof.
  intros Hi Hh Hf HF. rewrite hd_drop in Hh.
  destruct (fs !! i) as [x|] eqn:Hx; cbn in Hh; [|congruence]. subst x.
  rewrite Forall_forall in HF. apply Hf, HF.
  apply list_elem_of_lookup. exists i. rewrite lookup_take_lt by exact Hi. exact Hx.
Qed.

Lemma div_pages (n i q : nat) : (1 <= n)%nat -> (q < n)%nat -> ((i * n + q) / n = i)%nat.
Proof.
  intros Hn Hq. rewrite Nat.div_add_l by lia. rewrite Nat.div_small by exact Hq. lia.
Qed.

Lemma requests_full (n i : nat) :
  (1 <= n)%nat -> (1 <= i)%nat -> (S ((i * n - 1) / n) = i)%nat.
Proof.
  intros Hn Hi. destruct i as [|i]; [lia|]. f_equal.
  replace (S i * n - 1)%nat with (i * n + (n - 1))%nat by lia.
  apply div_pages; lia.
Qed.

Lemma requests_last (n i q : nat) :
  (1 <= n)%nat -> (q <= n)%nat -> i = O \/ (1 <= q)%nat ->
  (S ((i * n + q - 1) / n) = S i)%nat.
Proof.
  intros Hn Hq Hi. f_equal. destruct q as [|q].
  - destruct Hi as [->|Hi]; [|lia]. cbn. apply Nat.Div0.div_0_l.
  - replace (i * n + S q - 1)%nat with (i * n + q)%nat by lia. apply div_pages; lia.
Qed.

Lemma requests_more (n i len : nat) :
  (1 <= n)%nat -> (i * n < len)%nat -> (i < S ((len - 1) / n))%nat.
Proof.
  intros Hn Hlen.
  assert (i <= (len - 1) / n)%nat; [|lia].
  apply Nat.div_le_lower_bound; lia.
Qed.

Section pure_loop.
Context {A : Type}.
Variable wrap : S3Error -> Error.
Variable body : A -> list Object -> S3 -> result Error A * S3.
Variable f : A -> list string -> A.
Variable p0 : string.
Variable c : S3.
Variable acc0 : A.

Hypothesis body_pure : forall acc page c1,
  body acc (key_object <$> page) c1 = (Ok (f acc page), c1).
Hypothesis f_nil : forall acc, f acc [] = acc.
Hypothesis f_app : forall acc l1 l2, f (f acc l1) l2 = f acc (l1 ++ l2).

Lemma forPages_pure :
  let prefix0 := p0 +:+ "/" in
  let ks := keys_under prefix0 (objects c) in
  exists r c', forPages (page_fuel prefix0 c) wrap body
                 (NewListObjectsV2Paginator prefix0) acc0 c = Some (r, c') /\
    objects c' = objects c /\ locked c' = locked c /\ MaxKeys c' = MaxKeys c /\
    match r with
    | Ok a => a = f acc0 ks /\ listing_served prefix0 c /\ c' = after_listing prefix0 c
    | Err e => exists s3e, e = wrap s3e /\ ¬ listing_served prefix0 c
    end.
Proof.
  intros prefix0 ks. set (n := Pos.to_nat (MaxKeys c)).
  pose (J := fun (i : nat) (done : list string) (acc : A) (c1 : S3) =>
    objects c1 = objects c /\ locked c1 = locked c /\ MaxKeys c1 = MaxKeys c /\
    faults c1 = drop i (faults c) /\
    Forall (fun x => x = Served) (take i (faults c)) /\
    acc = f acc0 done /\
    (length done = (i * n)%nat \/ (done = ks /\ i = list_requests prefix0 c))).
  pose (E := fun (e : Error) (c1 : S3) =>
    objects c1 = objects c /\ locked c1 = locked c /\ MaxKeys c1 = MaxKeys c /\
    exists s3e, e = wrap s3e /\ ¬ listing_served prefix0 c).
  assert (Hn : (1 <= n)%nat) by (unfold n; lia).
  destruct (forPages_run wrap body prefix0 ks (MaxKeys c) J E
              (keys_under_nonempty _ _))
    with (fuel := page_fuel prefix0 c) (p := NewListObjectsV2Paginator prefix0)
         (i := O) (done := @nil string) (rest := ks) (acc := acc0) (c := c)
    as (r & c' & Hrun & Hr).
  - (* listing *)
    intros i done rest acc c1 (Ho & _ & Hmk & _) Hsplit. split; [exact Hmk|].
    rewrite Ho. fold ks. rewrite Hsplit. apply keys_after_last; rewrite <- Hsplit.
    + apply keys_under_sorted.
    + apply keys_under_NoDup.
  - (* a refused request *)
    intros i done rest acc c1 msg (Ho & Hl & Hmk & Hfs & _ & _ & Hcount) Hsplit Hi Hf.
    unfold E. cbn [next_fault snd objects locked MaxKeys].
    repeat (split; [assumption|]).
    exists (RequestFailed msg). split; [reflexivity|].
    unfold listing_served, list_requests. fold ks n.
    assert (Hlt : (i < S ((length ks - 1) / n))%nat).
    { destruct Hcount as [Hlen|[Hd Hi']].
      - destruct Hi as [->|Hrest]; [lia|]. apply requests_more; [exact Hn|].
        rewrite Hsplit, length_app, Hlen. destruct rest; [congruence|]. cbn. lia.
      - subst done. destruct Hi as [->|Hrest].
        + lia.
        + apply (f_equal length) in Hsplit. rewrite length_app in Hsplit.
          destruct rest; [congruence|]. cbn in Hsplit. lia. }
    rewrite Hfs in Hf.
    destruct Hf as [Hf|Hf]; eapply not_served; try exact Hlt; try exact Hf; discriminate.
  - (* a page *)
    intros i done page rest acc c1 (Ho & Hl & Hmk & Hfs & Hsv & Hacc & Hcount)
      Hsplit Hpage Hi Hf.
    rewrite body_pure. unfold J. cbn [next_fault snd objects locked MaxKeys faults].
    repeat (split; [assumption|]).
    rewrite Hfs, tl_drop. split; [reflexivity|].
    split; [apply served_next; [exact Hsv | rewrite <- Hfs; exact Hf]|].
    split; [rewrite Hacc; apply f_app|].
    assert (Hlen : length done = (i * n)%nat).
    { destruct Hcount as [Hlen|[Hd Hi']]; [exact Hlen|]. subst done.
      apply (f_equal length) in Hsplit. rewrite !length_app in Hsplit.
      assert (page = []) by (destruct page; [reflexivity | cbn in Hsplit; lia]).
      subst page. destruct Hi as [->|Hne]; [|congruence].
      unfold list_requests in Hi'. lia. }
    assert (Hpl : length page = Nat.min n (length page + length rest)).
    { rewrite Hpage at 1. fold n. rewrite length_take, length_app. reflexivity. }
    destruct rest as [|k rest].
    + right. rewrite app_nil_r in Hsplit. split; [symmetry; exact Hsplit|].
      unfold list_requests. fold ks n. rewrite Hsplit, length_app, Hlen.
      symmetry. apply requests_last; [exact Hn|lia|].
      destruct Hi as [Hi|Hi]; [left; exact Hi|right].
      destruct page; [congruence|cbn; lia].
    + left. rewrite length_app, Hlen. cbn [length] in Hpl. lia.
  - reflexivity.
  - split; [reflexivity| |]; cbn [firstPage NewListObjectsV2Paginator].
    + intros _. repeat split.
    + discriminate.
  - unfold J. repeat split; try reflexivity.
    + cbn [take]. constructor.
    + symmetry. apply f_nil.
    + left. reflexivity.
  - intros _. unfold page_fuel. fold ks. lia.
  - exists r, c'. split; [exact Hrun|].
    destruct r as [a|e].
    + destruct Hr as (m & Hm & Ho & Hl & Hmk & Hfs & Hsv & Hacc & Hcount).
      cbn [HasMorePages NewListObjectsV2Paginator firstPage orb] in Hm.
      assert (Hreq : m = list_requests prefix0 c).
      { destruct Hcount as [Hlen|[_ Hm']]; [|exact Hm'].
        unfold list_requests. fold ks n. rewrite Hlen. symmetry.
        apply requests_full; lia. }
      subst m.
      split; [exact Ho|]. split; [exact Hl|]. split; [exact Hmk|].
      split; [exact Hacc|]. split; [exact Hsv|].
      destruct c' as [o l m fs]. cbn [objects locked MaxKeys faults] in *.
      subst o l m fs. reflexivity.
    + destruct Hr as (Ho & Hl & Hmk & Herr). repeat (split; [assumption|]). exact Herr.
Qed.
End pure_loop.


(** ** Decoded offsets are [uint64] values *)

Lemma ParseUint_digits_range (s0 s : string) (n o : Z) :
  U64.In n -> ParseUint_digits s0 s n = Ok o -> U64.In o.
Proof.
  revert n. induction s as [|a s IH]; intros n Hn; cbn [ParseUint_digits].
  - intros E. inversion E. subst. exact Hn.
  - destruct (_ && _); [|discriminate].
    destruct (cutoff <=? n); [discriminate|].
    destruct (_ || _); [discriminate|].
    apply IH. apply U64_add_In.
Qed.

Lemma getOffsetFromKey_range (key : string) (o : Z) :
  getOffsetFromKey key = Ok o -> U64.In o.
Proof.
  unfold getOffsetFromKey. destruct (_ || _); [discriminate|].
  unfold ParseUint. destruct (string_from _ key); [discriminate|].
  apply ParseUint_digits_range. unfold U64.In, U64.modulus. lia.
Qed.

(** ** Recover *)

Lemma maxOffset_fold (ks : list string) (m0 : Z) :
  let m := fold_left maxOffset_step (key_object <$> ks) m0 in
  m0 <= m /\
  (forall k o, k ∈ ks -> getOffsetFromKey k = Ok o -> o <= m) /\
  (m = m0 \/ exists k, k ∈ ks /\ getOffsetFromKey k = Ok m).
Proof.
  revert m0. induction ks as [|k ks IH]; intros m0; cbn [fmap list_fmap fold_left].
  - split; [lia|]. split; [|left; reflexivity].
    intros k o Hk. apply elem_of_nil in Hk. destruct Hk.
  - specialize (IH (maxOffset_step m0 (key_object k))). cbv zeta in IH.
    destruct IH as (Hle & Hub & Hatt).
    assert (Hstep : m0 <= maxOffset_step m0 (key_object k) /\
                    (forall o, getOffsetFromKey k = Ok o -> o <= maxOffset_step m0 (key_object k)) /\
                    (maxOffset_step m0 (key_object k) = m0 \/
                     getOffsetFromKey k = Ok (maxOffset_step m0 (key_object k)))).
    { unfold maxOffset_step. cbn [Key key_object].
      destruct (getOffsetFromKey k) as [o|e].
      - destruct (Z.ltb_spec m0 o).
        + split; [lia|]. split; [intros o' E; inversion E; lia|]. right. reflexivity.
        + split; [lia|]. split; [intros o' E; inversion E; lia|]. left. reflexivity.
      - split; [lia|]. split; [discriminate|]. left. reflexivity. }
    destruct Hstep as (H1 & H2 & H3).
    split; [lia|]. split.
    + intros k' o Hk' Ho. apply elem_of_cons in Hk'. destruct Hk' as [->|Hk'].
      * specialize (H2 o Ho). lia.
      * eapply Hub; eassumption.
    + destruct Hatt as [Hm|(k' & Hk' & Ho)].
      * destruct H3 as [H3|H3].
        -- left. lia.
        -- right. exists k. split; [constructor|]. rewrite Hm. exact H3.
      * right. exists k'. split; [constructor; exact Hk'|exact Ho].
Qed.

Lemma Recover_run (w : S3WAL) (c : S3) :
  let prefix0 := S3WAL.prefix w +:+ "/" in
  let m := fold_left maxOffset_step (key_object <$> keys_under prefix0 (objects c)) 0 in
  exists r w' c',
    Recover w c = Some (r, w', c') /\
    objects c' = objects c /\ locked c' = locked c /\ MaxKeys c' = MaxKeys c /\
    match r with
    | Ok o => listing_served prefix0 c /\ o = m /\ w' = set_length w m /\
              c' = after_listing prefix0 c
    | Err e => ¬ listing_served prefix0 c /\ w' = w /\ exists s3e, e = ErrListRecover s3e
    end.
Proof.
  intros prefix0 m.
  destruct (forPages_pure ErrListRecover recover_page
              (fun acc page => fold_left maxOffset_step (key_object <$> page) acc)
              (S3WAL.prefix w) c 0)
    as (r & c' & Hrun & Ho & Hl & Hmk & Hr).
  - reflexivity.
  - reflexivity.
  - intros acc l1 l2. rewrite fmap_app, fold_left_app. reflexivity.
  - unfold Recover. cbv zeta. rewrite Hrun.
    destruct r as [a|e].
    + destruct Hr as (Ha & Hs & Hc'). subst a.
      exists (Ok m), (set_length w m), c'. repeat split; assumption.
    + destruct Hr as (s3e & -> & Hns).
      exists (Err (ErrListRecover s3e)), w, c'. repeat split; try assumption.
      exists s3e. reflexivity.
Qed.

(** The outcome of [Recover], by the outcome of its listing, with the
    bounds on the value it computes. *)
Lemma Recover_bounds (w : S3WAL) (c : S3) :
  let prefix0 := S3WAL.prefix w +:+ "/" in
  let ks := keys_under prefix0 (objects c) in
  exists (r : result Error Z) (w' : S3WAL) (c' : S3),
    Recover w c = Some (r, w', c') /\
    objects c' = objects c /\
    match r with
    | Ok m =>
        listing_served prefix0 c /\
        w' = set_length w m /\
        0 <= m /\
        (forall k o, k ∈ ks -> getOffsetFromKey k = Ok o -> o <= m) /\
        (m = 0 \/ exists k, k ∈ ks /\ getOffsetFromKey k = Ok m)
    | Err e =>
        ¬ listing_served prefix0 c /\ w' = w /\ exists s3e, e = ErrListRecover s3e
    end.
Proof.
  intros prefix0 ks.
  destruct (Recover_run w c) as (r & w' & c' & Hrun & Ho & _ & _ & Hr).
  exists r, w', c'. split; [exact Hrun|]. split; [exact Ho|].
  destruct r as [o|e]; [|exact Hr].
  destruct Hr as (Hs & -> & Hw & _).
  destruct (maxOffset_fold ks 0) as (Hle & Hub & Hatt). cbv zeta in *.
  fold prefix0 ks in Hw |- *.
  repeat (split; [assumption|]). exact Hatt.
Qed.

(** C3. [Recover] always returns.  When every request of the listing is
    served it succeeds, whatever the keys look like: the value [m] it
    returns and stores in the cache bounds the offset of every key under
    the prefix that decodes, and is the offset of one of them, or 0 when
    none decodes.  It fails only when a request of the listing failed,
    with that error, leaving the cache alone. *)
Theorem Recover_max_offset (w : S3WAL) (c : S3) :
  let prefix0 := S3WAL.prefix w +:+ "/" in
  let ks := keys_under prefix0 (objects c) in
  exists (r : result Error Z) (w' : S3WAL) (c' : S3),
    Recover w c = Some (r, w', c') /\
    objects c' = objects c /\
    (forall k, k ∈ ks <-> is_Some (objects c !! k) /\ String.prefix prefix0 k = true) /\
    match r with
    | Ok m =>
        listing_served prefix0 c /\
        w' = set_length w m /\
        (forall k o, k ∈ ks -> getOffsetFromKey k = Ok o -> o <= m) /\
        ((exists k, k ∈ ks /\ getOffsetFromKey k = Ok m) \/
         (m = 0 /\ forall k o, k ∈ ks -> getOffsetFromKey k <> Ok o))
    | Err e =>
        ¬ listing_served prefix0 c /\ w' = w /\ exists s3e, e = ErrListRecover s3e
    end.
Proof.
  intros prefix0 ks.
  destruct (Recover_bounds w c) as (r & w' & c' & Hrun & Ho & Hr).
  exists r, w', c'. split; [exact Hrun|]. split; [exact Ho|].
  split; [intros k; apply keys_under_elem|].
  destruct r as [m|e]; [|exact Hr].
  cbv zeta in Hr. fold prefix0 ks in Hr.
  destruct Hr as (Hs & Hw & Hle & Hub & Hatt).
  split; [exact Hs|]. split; [exact Hw|]. split; [exact Hub|].
  destruct Hatt as [Hm|Hatt]; [|left; exact Hatt].
  destruct (decide (Exists (fun k => is_Ok (getOffsetFromKey k)) ks)) as [Hex|Hnex].
  - left. apply Exists_exists in Hex. destruct Hex as (k & Hk & Hok).
    destruct (getOffsetFromKey k) as [o|e] eqn:Hd; [|destruct Hok].
    exists k. split; [exact Hk|].
    pose proof (Hub k o Hk Hd). pose proof (getOffsetFromKey_range k o Hd) as Hr.
    unfold U64.In in Hr. rewrite Hd. f_equal. lia.
  - right. split; [exact Hm|]. intros k o Hk Hd. apply Hnex.
    apply Exists_exists. exists k. split; [exact Hk|]. rewrite Hd. exact I.
Qed.


(** ** LastRecord *)

Lemma last_key_object (page : list string) :
  last (key_object <$> page) = key_object <$> last page.
Proof. apply fmap_last. Qed.

Lemma lastKey_step_pure (acc : string) (page : list string) (c1 : S3) :
  lastKey_step acc (key_object <$> page) c1 = (Ok (last_or acc page), c1).
Proof.
  unfold lastKey_step, last_or. rewrite last_key_object.
  destruct (last page); reflexivity.
Qed.

Lemma last_or_app (acc : string) (l1 l2 : list string) :
  last_or (last_or acc l1) l2 = last_or acc (l1 ++ l2).
Proof.
  unfold last_or. rewrite last_app. destruct (last l2); reflexivity.
Qed.

Lemma last_greatest (ks : list string) (k : string) :
  StronglySorted String.le ks -> last ks = Some k ->
  k ∈ ks /\ forall k', k' ∈ ks -> String.le k' k.
Proof.
  intros HS Hl. apply last_Some in Hl. destruct Hl as [l' ->].
  split; [apply elem_of_app; right; constructor|].
  intros k' Hk'. apply elem_of_app in Hk'. destruct Hk' as [Hk'|Hk'].
  - eapply StronglySorted_app_1_elem_of; [exact HS|exact Hk'|constructor].
  - apply list_elem_of_singleton in Hk'. subst. reflexivity.
Qed.

(** What [LastRecord] does, by the outcome of its listing. *)
Lemma LastRecord_run (w : S3WAL) (c : S3) :
  let prefix0 := S3WAL.prefix w +:+ "/" in
  let ks := keys_under prefix0 (objects c) in
  let c1 := after_listing prefix0 c in
  exists r w' c',
    LastRecord w c = Some (r, w', c') /\
    objects c' = objects c /\ locked c' = locked c /\ MaxKeys c' = MaxKeys c /\
    ((¬ listing_served prefix0 c /\ w' = w /\ exists s3e, r = Err (ErrListObjects s3e)) \/
     (listing_served prefix0 c /\
      match last ks with
      | None => r = Err ErrEmpty /\ w' = set_length w 0 /\ c' = c1
      | Some k =>
          match getOffsetFromKey k with
          | Err e => r = Err (ErrParseLastKey k e) /\ w' = w /\ c' = c1
          | Ok o => w' = set_length w o /\ (r, c') = Read (set_length w o) o c1
          end
      end)).
Proof.
  intros prefix0 ks c1.
  destruct (forPages_pure ErrListObjects lastKey_step last_or (S3WAL.prefix w) c ""%string)
    as (r & c' & Hrun & Ho & Hl & Hmk & Hr).
  - apply lastKey_step_pure.
  - reflexivity.
  - apply last_or_app.
  - unfold LastRecord. cbv zeta. rewrite Hrun.
    destruct r as [a|e].
    2:{ destruct Hr as (s3e & -> & Hns).
        exists (Err (ErrListObjects s3e)), w, c'. split; [reflexivity|].
        repeat (split; [assumption|]).
        left. split; [exact Hns|]. split; [reflexivity|]. exists s3e. reflexivity. }
    destruct Hr as (Ha & Hs & Hc'). fold prefix0 ks in Ha, Hs, Hc'. fold c1 in Hc'.
    unfold last_or in Ha.
    destruct (last ks) as [k|] eqn:Hlast.
    + subst a.
      assert (Hne : k <> ""%string).
      { pose proof (keys_under_nonempty (S3WAL.prefix w) (objects c)) as Hf.
        rewrite Forall_forall in Hf. apply Hf. eapply last_Some_elem_of, Hlast. }
      apply String.eqb_neq in Hne. rewrite Hne.
      destruct (getOffsetFromKey k) as [o|e] eqn:Hd.
      * destruct (Read (set_length w o) o c') as [r c2] eqn:HR.
        pose proof (Read_state (set_length w o) o c') as HRs. rewrite HR in HRs.
        cbn [snd] in HRs. destruct HRs as (Ho2 & Hl2 & Hmk2 & _).
        exists r, (set_length w o), c2.
        split; [reflexivity|]. split; [congruence|]. split; [congruence|].
        split; [congruence|]. right. split; [exact Hs|].
        split; [reflexivity|]. rewrite <- Hc'. symmetry. exact HR.
      * exists (Err (ErrParseLastKey k e)), w, c'. split; [reflexivity|].
        repeat (split; [assumption|]).
        right. split; [exact Hs|]. repeat split. exact Hc'.
    + subst a. cbn [String.eqb].
      exists (Err ErrEmpty), (set_length w 0), c'. split; [reflexivity|].
      repeat (split; [assumption|]).
      right. split; [exact Hs|]. repeat split. exact Hc'.
Qed.

(** C7, amended. With at least one object under the prefix and the
    listing served, [LastRecord] takes the lexicographically greatest key
    under the prefix, whatever its form: when that key decodes to an offset
    it stores the offset in the cache, reads the record there and returns
    what [Read] returns; when that key is malformed it fails on it and
    leaves the cache alone.  With no object under the prefix it fails with
    the empty-log error. *)
Theorem LastRecord_greatest_key (w : S3WAL) (c : S3) :
  let prefix0 := S3WAL.prefix w +:+ "/" in
  let ks := keys_under prefix0 (objects c) in
  let c1 := after_listing prefix0 c in
  listing_served prefix0 c ->
  (forall k, k ∈ ks <-> is_Some (objects c !! k) /\ String.prefix prefix0 k = true) /\
  match last ks with
  | None =>
      ks = [] /\ LastRecord w c = Some (Err ErrEmpty, set_length w 0, c1)
  | Some k =>
      k ∈ ks /\ (forall k', k' ∈ ks -> String.le k' k) /\
      match getOffsetFromKey k with
      | Ok o =>
          LastRecord w c =
          Some (fst (Read (set_length w o) o c1), set_length w o,
                snd (Read (set_length w o) o c1))
      | Err e => LastRecord w c = Some (Err (ErrParseLastKey k e), w, c1)
      end
  end.
Proof.
  intros prefix0 ks c1 Hserved.
  split; [intros k; apply keys_under_elem|].
  destruct (LastRecord_run w c) as (r & w' & c' & Hrun & _ & _ & _ & [(Hns & _)|(_ & Hr)]);
    [contradiction|].
  cbv zeta in Hr. fold prefix0 ks c1 in Hr.
  destruct (last ks) as [k|] eqn:Hlast.
  - destruct (last_greatest ks k (keys_under_sorted _ _) Hlast) as [Hin Hmax].
    split; [exact Hin|]. split; [exact Hmax|].
    destruct (getOffsetFromKey k) as [o|e].
    + destruct Hr as [-> HR]. rewrite <- HR. exact Hrun.
    + destruct Hr as (-> & -> & ->). exact Hrun.
  - split; [apply last_None, Hlast|]. destruct Hr as (-> & -> & ->). exact Hrun.
Qed.



(** ** Truncate *)

Lemma delete_unlocked_lookup (lk : gset string) (keys : list string)
    (m : gmap string (list byte)) (k : string) :
  delete_unlocked lk keys m !! k =
  if decide (k ∈ keys /\ k ∉ lk) then None else m !! k.
Proof.
  induction keys as [|x keys IH]; cbn [delete_unlocked foldr].
  - destruct (decide _) as [[H _]|_]; [|reflexivity]. apply elem_of_nil in H. destruct H.
  - fold (delete_unlocked lk keys m). destruct (decide (x ∈ lk)) as [Hx|Hx].
    + rewrite IH. destruct (decide (k ∈ keys /\ k ∉ lk)) as [[H1 H2]|H];
        destruct (decide (k ∈ x :: keys /\ k ∉ lk)) as [[H3 H4]|H'];
        try reflexivity.
      * exfalso. apply H'. split; [right; exact H1|exact H2].
      * exfalso. apply elem_of_cons in H3. destruct H3 as [->|H3]; [contradiction|].
        apply H. split; assumption.
    + destruct (decide (k = x)) as [->|Hne].
      * rewrite lookup_delete_eq.
        destruct (decide (x ∈ x :: keys /\ x ∉ lk)) as [_|H]; [reflexivity|].
        exfalso. apply H. split; [left|exact Hx].
      * rewrite lookup_delete_ne by congruence. rewrite IH.
        destruct (decide (k ∈ keys /\ k ∉ lk)) as [[H1 H2]|H];
          destruct (decide (k ∈ x :: keys /\ k ∉ lk)) as [[H3 H4]|H'];
          try reflexivity.
        -- exfalso. apply H'. split; [right; exact H1|exact H2].
        -- exfalso. apply elem_of_cons in H3. destruct H3 as [->|H3]; [congruence|].
           apply H. split; assumption.
Qed.

Lemma batchDelete_Ok (c1 c2 : S3) (keys : list string) (u : unit) :
  batchDelete c1 keys = (Ok u, c2) ->
  locked c2 = locked c1 /\ MaxKeys c2 = MaxKeys c1 /\
  forall k, objects c2 !! k = if decide (k ∈ keys) then None else objects c1 !! k.
Proof.
  unfold batchDelete. destruct keys as [|x keys].
  - intros E. inversion E. subst. split; [reflexivity|]. split; [reflexivity|]. intros k.
    destruct (decide (k ∈ [])) as [H|_]; [|reflexivity]. apply elem_of_nil in H. destruct H.
  - remember (x :: keys) as ks eqn:Hks. clear Hks.
    unfold DeleteObjects, next_fault.
    destruct (hd Served (faults c1)); [|discriminate|discriminate].
    cbn [locked objects].
    destruct (filter (fun k => k ∈ locked c1) ks) as [|y l] eqn:Hf;
      cbn [fmap list_fmap]; [|discriminate].
    intros E. inversion E. subst c2. cbn [set_objects locked MaxKeys objects].
    split; [reflexivity|]. split; [reflexivity|].
    intros k. rewrite delete_unlocked_lookup.
    destruct (decide (k ∈ ks)) as [Hk|Hk].
    + destruct (decide (k ∈ ks /\ k ∉ locked c1)) as [_|H]; [reflexivity|].
      exfalso. apply H. split; [exact Hk|].
      intros Hl. eapply (filter_nil_not_elem_of _ _ k Hf); eassumption.
    + destruct (decide (k ∈ ks /\ k ∉ locked c1)) as [[H _]|_]; [contradiction|reflexivity].
Qed.

Lemma beyond_decoded (a : Z) (k : string) (o : Z) :
  getOffsetFromKey k = Ok o -> beyond a k = (a <? o).
Proof. intros H. unfold beyond. rewrite H. reflexivity. Qed.

Lemma beyond_malformed (a : Z) (k : string) (e : Error) :
  getOffsetFromKey k = Err e -> beyond a k = false.
Proof. intros H. unfold beyond. rewrite H. reflexivity. Qed.

Lemma truncating_skip (a : Z) (c : S3) (done acc : list string) (c1 : S3) (k : string) :
  beyond a k = false -> truncating a c done acc c1 -> truncating a c (done ++ [k]) acc c1.
Proof.
  intros Hb (Hl & Hm & deleted & Hobj & Hmem). split; [exact Hl|]. split; [exact Hm|].
  exists deleted. split; [exact Hobj|]. intros k'. rewrite Hmem, elem_of_app, list_elem_of_singleton.
  split; [intros [H1 H2]; auto|].
  intros [[H| ->] H2]; [auto|congruence].
Qed.

Lemma truncating_keep (a : Z) (c : S3) (done acc : list string) (c1 : S3) (k : string) :
  beyond a k = true -> truncating a c done acc c1 ->
  truncating a c (done ++ [k]) (acc ++ [k]) c1.
Proof.
  intros Hb (Hl & Hm & deleted & Hobj & Hmem). split; [exact Hl|]. split; [exact Hm|].
  exists deleted. split; [exact Hobj|]. intros k'.
  rewrite !elem_of_app, !list_elem_of_singleton.
  specialize (Hmem k'). split.
  - intros [H|[H| ->]]; [| |auto]; destruct Hmem as [Hmem _]; destruct Hmem; auto.
  - intros [[H| ->] H2]; [|auto]. destruct Hmem as [_ Hmem]. destruct Hmem; auto.
Qed.

Lemma truncating_flush (a : Z) (c : S3) (done acc : list string) (c1 c2 : S3) (u : unit) :
  truncating a c done acc c1 -> batchDelete c1 acc = (Ok u, c2) ->
  truncating a c done [] c2.
Proof.
  intros (Hl & Hm & deleted & Hobj & Hmem) HB. apply batchDelete_Ok in HB.
  destruct HB as (Hl2 & Hm2 & Hobj2).
  split; [congruence|]. split; [congruence|].
  exists (deleted ++ acc). split.
  - intros k. rewrite Hobj2, Hobj.
    destruct (decide (k ∈ acc)) as [H1|H1]; destruct (decide (k ∈ deleted)) as [H2|H2];
      destruct (decide (k ∈ deleted ++ acc)) as [H3|H3]; try reflexivity;
      exfalso; rewrite elem_of_app in H3; tauto.
  - intros k. rewrite <- Hmem, elem_of_app. split; [intros [H|H]; [exact H|]|tauto].
    apply elem_of_nil in H. destruct H.
Qed.

Lemma truncate_page_truncating (a : Z) (c : S3) (page : list string) :
  forall (done acc : list string) (c1 : S3),
    truncating a c done acc c1 ->
    match truncate_page a acc (key_object <$> page) c1 with
    | (Ok acc', c2) => truncating a c (done ++ page) acc' c2
    | (Err _, _) => True
    end.
Proof.
  induction page as [|k page IH]; intros done acc c1 HT.
  - cbn. rewrite app_nil_r. exact HT.
  - cbn [fmap list_fmap truncate_page key_object Key]. fold (fmap key_object page).
    replace (done ++ k :: page) with ((done ++ [k]) ++ page)
      by (rewrite <- app_assoc; reflexivity).
    destruct (getOffsetFromKey k) as [o|e] eqn:Hd.
    2:{ apply IH. apply truncating_skip; [|exact HT]. eapply beyond_malformed, Hd. }
    pose proof (beyond_decoded a k o Hd) as Hb.
    set (acc1 := if a <? o then acc ++ [k] else acc).
    assert (HT1 : truncating a c (done ++ [k]) acc1 c1).
    { unfold acc1. destruct (a <? o).
      - apply truncating_keep; assumption.
      - apply truncating_skip; assumption. }
    destruct (length acc1 =? batch_limit)%nat.
    + destruct (batchDelete c1 acc1) as [[u|e] c2] eqn:HB; [|exact I].
      apply IH. eapply truncating_flush; eassumption.
    + apply IH. exact HT1.
Qed.

Lemma keys_under_removed (p : string) (m m' : gmap string (list byte)) (D : list string) :
  (forall k, m' !! k = if decide (k ∈ D) then None else m !! k) ->
  keys_under p m' = filter (fun k => k ∉ D) (keys_under p m).
Proof.
  intros Hm. apply sorted_keys_unique.
  - apply keys_under_sorted.
  - apply keys_under_NoDup.
  - apply StronglySorted_filter_keys, keys_under_sorted.
  - apply NoDup_filter, keys_under_NoDup.
  - intros k. rewrite list_elem_of_filter, !keys_under_elem, Hm.
    destruct (decide (k ∈ D)) as [H|H].
    + split; [intros [[v Hv] _]; discriminate | tauto].
    + tauto.
Qed.

Lemma keys_after_filter (P : string -> Prop) `{!forall k, Decision (P k)}
    (tok : option string) (l : list string) :
  keys_after tok (filter P l) = filter P (keys_after tok l).
Proof.
  destruct tok as [t|]; [|reflexivity]. unfold keys_after.
  rewrite !list_filter_filter. apply list_filter_iff. intros k. tauto.
Qed.

(** Deleting keys already listed does not disturb the rest of a listing. *)
Lemma truncating_listing (a : Z) (c : S3) (p : string) (done rest acc : list string) (c1 : S3) :
  truncating a c done acc c1 ->
  keys_under p (objects c) = done ++ rest ->
  keys_after (last done) (keys_under p (objects c1)) = rest.
Proof.
  intros (_ & _ & deleted & Hobj & Hmem) Hks.
  rewrite (keys_under_removed p (objects c) (objects c1) deleted Hobj), Hks.
  rewrite keys_after_filter.
  pose proof (keys_under_sorted p (objects c)) as HS.
  pose proof (keys_under_NoDup p (objects c)) as HN. rewrite Hks in HS, HN.
  rewrite keys_after_last by assumption.
  apply filter_all, Forall_forall. intros k Hk Hdel.
  apply NoDup_app in HN. destruct HN as (_ & Hdisj & _).
  apply (Hdisj k); [|exact Hk]. apply (Hmem k). left. exact Hdel.
Qed.

(** [Truncate] always returns; when it returns no error it has removed
    exactly the keys under the prefix that decode to an offset beyond
    [afterOffset], and set the cache. *)
Lemma Truncate_run (w : S3WAL) (afterOffset : Z) (c : S3) :
  let prefix0 := S3WAL.prefix w +:+ "/" in
  exists r w' c',
    Truncate w afterOffset c = Some (r, w', c') /\
    match r with
    | Ok _ =>
        w' = set_length w afterOffset /\
        locked c' = locked c /\ MaxKeys c' = MaxKeys c /\
        forall k, objects c' !! k =
                  if decide (String.prefix prefix0 k = true /\ beyond afterOffset k = true)
                  then None else objects c !! k
    | Err _ => w' = w
    end.
Proof.
  intros prefix0.
  destruct (forPages_run ErrListTruncate (truncate_page afterOffset) prefix0
              (keys_under prefix0 (objects c)) (MaxKeys c)
              (fun _ done acc c1 => truncating afterOffset c done acc c1)
              (fun _ _ => True) (keys_under_nonempty _ _))
    with (fuel := page_fuel prefix0 c) (p := NewListObjectsV2Paginator prefix0)
         (i := O) (done := @nil string) (rest := keys_under prefix0 (objects c))
         (acc := @nil string) (c := c)
    as (r & c1 & Hrun & Hr).
  - intros i done rest acc c1 HT Hsplit. split; [apply HT|].
    eapply truncating_listing; eassumption.
  - intros. exact I.
  - intros i done page rest acc c1 HT _ _ _ _.
    pose proof (truncate_page_truncating afterOffset c page done acc (snd (next_fault c1))) as H.
    destruct (truncate_page afterOffset acc (key_object <$> page) (snd (next_fault c1)))
      as [[acc'|e] c2]; [|exact I].
    apply H. destruct HT as (Hl & Hm & deleted & Hobj & Hmem).
    split; [exact Hl|]. split; [exact Hm|]. exists deleted. split; assumption.
  - reflexivity.
  - split; [reflexivity| |]; cbn [firstPage NewListObjectsV2Paginator].
    + intros _. repeat split.
    + discriminate.
  - split; [reflexivity|]. split; [reflexivity|]. exists []. split.
    + intros k. destruct (decide _) as [H|_]; [|reflexivity]. apply elem_of_nil in H. destruct H.
    + intros k. split; [intros [H|H]|intros [H _]]; apply elem_of_nil in H; destruct H.
  - intros _. unfold page_fuel. lia.
  - unfold Truncate. cbv zeta. fold prefix0. rewrite Hrun.
    destruct r as [acc|e].
    2:{ exists (Err e), w, c1. split; reflexivity. }
    destruct Hr as (_ & _ & HT).
    assert (Hfinal : exists r2 c2,
      (if (0 <? length acc)%nat then batchDelete c1 acc else (Ok tt, c1)) = (r2, c2) /\
      match r2 with
      | Ok _ => truncating afterOffset c (keys_under prefix0 (objects c)) [] c2
      | Err _ => True
      end).
    { destruct (0 <? length acc)%nat eqn:Hlen.
      - destruct (batchDelete c1 acc) as [[u|e] c2] eqn:HB.
        + exists (Ok u), c2. split; [reflexivity|]. eapply truncating_flush; eassumption.
        + exists (Err e), c2. split; [reflexivity|exact I].
      - exists (Ok tt), c1. split; [reflexivity|].
        apply Nat.ltb_ge in Hlen. destruct acc; [exact HT|cbn in Hlen; lia]. }
    destruct Hfinal as (r2 & c2 & -> & Hr2).
    destruct r2 as [u|e].
    2:{ exists (Err e), w, c2. split; reflexivity. }
    exists (Ok tt), (set_length w afterOffset), c2.
    split.
    { destruct (Z.eqb_spec afterOffset 0) as [->|_]; reflexivity. }
    destruct Hr2 as (Hl & Hm & deleted & Hobj & Hmem).
    split; [reflexivity|]. split; [exact Hl|]. split; [exact Hm|].
    intros k. rewrite Hobj.
    destruct (decide (k ∈ deleted)) as [Hd|Hd];
      destruct (decide (String.prefix prefix0 k = true /\ beyond afterOffset k = true))
        as [[Hp Hb]|Hn]; try reflexivity.
    + exfalso. apply Hn. destruct (Hmem k) as [Hmem1 _].
      destruct (Hmem1 (or_introl Hd)) as [Hin Hb]. apply keys_under_elem in Hin. tauto.
    + destruct (objects c !! k) as [v|] eqn:Hv; [|reflexivity].
      exfalso. destruct (Hmem k) as [_ Hmem2].
      destruct Hmem2 as [H|H].
      * split; [|exact Hb]. apply keys_under_elem. split; [exists v; exact Hv|exact Hp].
      * contradiction.
      * apply elem_of_nil in H. destruct H.
Qed.


Lemma prefix_append (p s : string) : String.prefix p (p +:+ s) = true.
Proof.
  induction p as [|a p IH]; [destruct s; reflexivity|].
  rewrite append_cons. cbn [String.prefix].
  destruct (ascii_dec a a); [exact IH|congruence].
Qed.

Lemma getObjectKey_prefix (w : S3WAL) (offset : Z) :
  String.prefix (S3WAL.prefix w +:+ "/") (getObjectKey w offset) = true.
Proof.
  unfold getObjectKey. rewrite <- append_assoc. apply prefix_append.
Qed.

Lemma getObjectKey_set_length (w : S3WAL) (n offset : Z) :
  getObjectKey (set_length w n) offset = getObjectKey w offset.
Proof. reflexivity. Qed.

(** C2, amended. A [Truncate(k)] that returns no error has deleted
    exactly the objects under the prefix whose key decodes to an offset
    greater than [k] and has set the cached length to [k].  After it,
    [Read(j)] finds no object for any [j > k]; [Read(j)] for [j <= k]
    returns what it returned before; and a [Recover] whose listing is
    served returns the greatest offset still stored, which is at most [k],
    and is [k] when [k] is 0 or the object of offset [k] was in the
    store. *)
Theorem Truncate_deletes_after (w : S3WAL) (k : Z) (c : S3) (w' : S3WAL) (c' : S3) :
  let prefix0 := S3WAL.prefix w +:+ "/" in
  Truncate w k c = Some (Ok tt, w', c') ->
  (forall key, objects c' !! key =
               if decide (String.prefix prefix0 key = true /\ beyond k key = true)
               then None else objects c !! key) /\
  S3WAL.length w' = k /\
  (forall j c2, U64.In j -> k < j ->
     objects c2 = objects c' -> hd Served (faults c2) = Served ->
     fst (Read w' j c2) = Err (ErrGetObject (getObjectKey w j) NoSuchKey)) /\
  (forall j c1 c2, U64.In j -> j <= k ->
     objects c1 = objects c -> objects c2 = objects c' ->
     hd Served (faults c1) = hd Served (faults c2) ->
     fst (Read w' j c2) = fst (Read w j c1)) /\
  (forall c2, objects c2 = objects c' -> listing_served prefix0 c2 ->
     exists m c3, Recover w' c2 = Some (Ok m, set_length w' m, c3) /\
                  0 <= m <= Z.max 0 k /\
                  (k = 0 \/ (U64.In k /\ is_Some (objects c !! getObjectKey w k)) -> m = k)).
Proof.
  intros prefix0 HT.
  destruct (Truncate_run w k c) as (r & w2 & c2 & Hrun & Hr).
  rewrite HT in Hrun. inversion Hrun. subst r w2 c2. clear Hrun.
  destruct Hr as (Hw & _ & _ & Hobj). fold prefix0 in Hobj.
  assert (Hkey : forall j, U64.In j -> beyond k (getObjectKey w j) = (k <? j)).
  { intros j Hj. apply beyond_decoded, getOffsetFromKey_getObjectKey, Hj. }
  split; [exact Hobj|]. split; [subst w'; reflexivity|]. split; [|split].
  - intros j c2 Hj Hlt Ho Hf. rewrite Read_served by exact Hf.
    subst w'. rewrite getObjectKey_set_length, Ho, Hobj.
    destruct (decide _) as [_|Hn]; [reflexivity|].
    exfalso. apply Hn. split; [apply getObjectKey_prefix|].
    rewrite Hkey by exact Hj. apply Z.ltb_lt. exact Hlt.
  - intros j c1 c2 Hj Hle Ho1 Ho2 Hf. symmetry. apply Read_ext.
    + subst w'. reflexivity.
    + rewrite Ho1, Ho2, Hobj.
      destruct (decide _) as [[_ Hb]|_]; [|reflexivity].
      rewrite Hkey in Hb by exact Hj. apply Z.ltb_lt in Hb. lia.
    + exact Hf.
  - intros c2 Ho2 Hserved.
    assert (Hp : S3WAL.prefix w' = S3WAL.prefix w) by (subst w'; reflexivity).
    destruct (Recover_bounds w' c2) as (r & w3 & c3 & Hrun & _ & Hr).
    pose proof (fun key => keys_under_elem (S3WAL.prefix w' +:+ "/") (objects c2) key) as Hks.
    cbv zeta in Hr. rewrite Hp in Hks, Hr. fold prefix0 in Hks, Hr.
    destruct r as [m|e]; [|destruct Hr as [Hns _]; contradiction].
    destruct Hr as (_ & -> & Hm0 & Hub & Hatt).
    exists m, c3. split; [exact Hrun|].
    assert (Hstored : forall key o, key ∈ keys_under prefix0 (objects c2) ->
                                    getOffsetFromKey key = Ok o -> 0 <= o <= Z.max 0 k).
    { intros key o Hin Hd. apply Hks in Hin. destruct Hin as [[v Hv] Hpre].
      rewrite Ho2, Hobj in Hv.
      pose proof (getOffsetFromKey_range key o Hd) as Hrange. unfold U64.In in Hrange.
      destruct (decide _) as [_|Hn]; [discriminate|].
      rewrite (beyond_decoded k key o Hd) in Hn.
      destruct (Z.ltb_spec k o); [exfalso; apply Hn; split; [exact Hpre|reflexivity]|lia]. }
    assert (Hm : 0 <= m <= Z.max 0 k).
    { destruct Hatt as [->|(key & Hin & Hd)]; [lia|eapply Hstored; eassumption]. }
    split; [exact Hm|].
    intros [->|[Hk [v Hv]]]; [lia|].
    assert (Hin : getObjectKey w k ∈ keys_under prefix0 (objects c2)).
    { apply Hks. split; [|apply getObjectKey_prefix].
      rewrite Ho2, Hobj. destruct (decide _) as [[_ Hb]|_]; [|exists v; exact Hv].
      rewrite Hkey in Hb by exact Hk. apply Z.ltb_lt in Hb. lia. }
    pose proof (Hub _ _ Hin (getOffsetFromKey_getObjectKey w k Hk)).
    unfold U64.In in Hk. lia.
Qed.

Lemma Truncate_deletes_after_witness :
  let w := fst Sample.three in
  let c := snd Sample.three in
  let w' := fst (Sample.truncate 2 Sample.three) in
  let c' := snd (Sample.truncate 2 Sample.three) in
  let prefix0 := S3WAL.prefix w +:+ "/" in
  Truncate w 2 c = Some (Ok tt, w', c') /\
  (forall key, objects c' !! key =
               if decide (String.prefix prefix0 key = true /\ beyond 2 key = true)
               then None else objects c !! key) /\
  S3WAL.length w' = 2 /\
  (forall j c2, U64.In j -> 2 < j ->
     objects c2 = objects c' -> hd Served (faults c2) = Served ->
     fst (Read w' j c2) = Err (ErrGetObject (getObjectKey w j) NoSuchKey)) /\
  (forall j c1 c2, U64.In j -> j <= 2 ->
     objects c1 = objects c -> objects c2 = objects c' ->
     hd Served (faults c1) = hd Served (faults c2) ->
     fst (Read w' j c2) = fst (Read w j c1)) /\
  (forall c2, objects c2 = objects c' -> listing_served prefix0 c2 ->
     exists m c3, Recover w' c2 = Some (Ok m, set_length w' m, c3) /\
                  0 <= m <= Z.max 0 2 /\
                  (2 = 0 \/ (U64.In 2 /\ is_Some (objects c !! getObjectKey w 2)) -> m = 2)).
Proof.
  assert (H : Truncate (fst Sample.three) 2 (snd Sample.three) =
              Some (Ok tt, fst (Sample.truncate 2 Sample.three),
                    snd (Sample.truncate 2 Sample.three)))
    by (vm_compute; reflexivity).
  split; [exact H|].
  exact (Truncate_deletes_after (fst Sample.three) 2 (snd Sample.three) _ _ H).
Defined.

(** C2 as stated fails: [Truncate(5)] on a log of three records succeeds
    and sets the cache to 5, but the [Recover] that follows returns 3. *)
Lemma Truncate_Recover_counterexample :
  let w := fst Sample.three in
  let c := snd Sample.three in
  let w' := fst Sample.overshot in
  let c' := snd Sample.overshot in
  Truncate w 5 c = Some (Ok tt, w', c') /\
  S3WAL.length w' = 5 /\
  listing_served "wal/" c' /\
  Recover w' c' = Some (Ok 3, set_length w' 3, after_listing "wal/" c') /\
  ¬ (exists w2 c2, Recover w' c' = Some (Ok 5, w2, c2)).
Proof.
  split; [vm_compute; reflexivity|].
  split; [vm_compute; reflexivity|].
  split; [vm_compute; constructor|].
  assert (H : Recover (fst Sample.overshot) (snd Sample.overshot) =
              Some (Ok 3, set_length (fst Sample.overshot) 3,
                    after_listing "wal/" (snd Sample.overshot)))
    by (vm_compute; reflexivity).
  split; [exact H|].
  intros (w2 & c2 & H2). rewrite H in H2. discriminate H2.
Qed.


(** ** LastRecord on sample logs *)

Lemma LastRecord_greatest_key_witness :
  let w := fst Sample.three in
  let c := snd Sample.three in
  let prefix0 := S3WAL.prefix w +:+ "/" in
  let ks := keys_under prefix0 (objects c) in
  let c1 := after_listing prefix0 c in
  listing_served prefix0 c /\
  (forall k, k ∈ ks <-> is_Some (objects c !! k) /\ String.prefix prefix0 k = true) /\
  match last ks with
  | None =>
      ks = [] /\ LastRecord w c = Some (Err ErrEmpty, set_length w 0, c1)
  | Some k =>
      k ∈ ks /\ (forall k', k' ∈ ks -> String.le k' k) /\
      match getOffsetFromKey k with
      | Ok o =>
          LastRecord w c =
          Some (fst (Read (set_length w o) o c1), set_length w o,
                snd (Read (set_length w o) o c1))
      | Err e => LastRecord w c = Some (Err (ErrParseLastKey k e), w, c1)
      end
  end.
Proof.
  assert (H : listing_served (S3WAL.prefix (fst Sample.three) +:+ "/") (snd Sample.three))
    by (vm_compute; constructor).
  split; [exact H|].
  exact (LastRecord_greatest_key (fst Sample.three) (snd Sample.three) H).
Defined.

(** C7 as stated fails: with records 1 to 3 and a stray object "wal/zzz"
    under the prefix, the greatest key that decodes is that of offset 3 and
    its record reads back, but [LastRecord] takes "wal/zzz", fails on it and
    leaves the cache at 0. *)
Lemma LastRecord_malformed_counterexample :
  let w := Sample.wal in
  let c := snd Sample.stray in
  listing_served "wal/" c /\
  keys_under "wal/" (objects c) =
    ["wal/00000000000000000001"; "wal/00000000000000000002";
     "wal/00000000000000000003"; "wal/zzz"]%string /\
  getOffsetFromKey "wal/00000000000000000003" = Ok 3 /\
  fst (Read w 3 c) = Ok {| Offset := 3; Data := Sample.rec3 |} /\
  LastRecord w c =
    Some (Err (ErrParseLastKey "wal/zzz" (ErrParseUint ErrSyntax "zzz")), w,
          after_listing "wal/" c) /\
  ¬ (exists r c', LastRecord w c = Some (Ok r, set_length w 3, c')).
Proof.
  split; [vm_compute; constructor|].
  split; [vm_compute; reflexivity|].
  split; [vm_compute; reflexivity|].
  split; [vm_compute; reflexivity|].
  assert (H : LastRecord Sample.wal (snd Sample.stray) =
              Some (Err (ErrParseLastKey "wal/zzz" (ErrParseUint ErrSyntax "zzz")),
                    Sample.wal, after_listing "wal/" (snd Sample.stray)))
    by (vm_compute; reflexivity).
  split; [exact H|].
  intros (r & c' & H2). rewrite H in H2. discriminate H2.
Qed.



(** ** Contiguous offsets *)

Lemma getObjectKey_le (w : S3WAL) (a b : Z) :
  U64.In a -> U64.In b -> (String.le (getObjectKey w a) (getObjectKey w b) <-> a <= b).
Proof.
  intros Ha Hb. unfold String.le, String.leb.
  rewrite (getObjectKey_compare w a b Ha Hb).
  destruct (Z.compare_spec a b); cbn; split; intros; try lia; try exact I; contradiction.
Qed.

Lemma getObjectKey_inj (w : S3WAL) (a b : Z) :
  U64.In a -> U64.In b -> getObjectKey w a = getObjectKey w b -> a = b.
Proof.
  intros Ha Hb E. pose proof (getObjectKey_compare w a b Ha Hb) as Hc.
  rewrite E, compare_refl in Hc. symmetry in Hc. apply Z.compare_eq_iff in Hc. exact Hc.
Qed.

Lemma keys_upto_elem (w : S3WAL) (n : Z) (k : string) :
  k ∈ keys_upto w n <-> exists i, 1 <= i <= n /\ k = getObjectKey w i.
Proof.
  unfold keys_upto. rewrite list_elem_of_fmap. split.
  - intros (i & -> & Hi). apply elem_of_seqZ in Hi. exists i. split; [lia|reflexivity].
  - intros (i & Hi & ->). exists i. split; [reflexivity|]. apply elem_of_seqZ. lia.
Qed.

Lemma keys_upto_sorted (w : S3WAL) (n : nat) :
  Z.of_nat n <= U64.max ->
  StronglySorted String.le (keys_upto w (Z.of_nat n)) /\ NoDup (keys_upto w (Z.of_nat n)).
Proof.
  induction n as [|n IH]; intros Hn.
  - unfold keys_upto. rewrite seqZ_nil by lia. split; constructor.
  - destruct IH as [HS HN]; [lia|].
    unfold keys_upto in *. rewrite seqZ_S, fmap_app. cbn [fmap list_fmap].
    assert (Hin : U64.In (1 + Z.of_nat n)) by (unfold U64.In, U64.max in *; lia).
    assert (Hlt : forall k, k ∈ getObjectKey w <$> seqZ 1 (Z.of_nat n) ->
                            String.le k (getObjectKey w (1 + Z.of_nat n)) /\
                            k <> getObjectKey w (1 + Z.of_nat n)).
    { intros k Hk. apply (keys_upto_elem w (Z.of_nat n) k) in Hk.
      destruct Hk as (i & Hi & ->).
      assert (Hii : U64.In i) by (unfold U64.In, U64.max in *; lia).
      split.
      - apply getObjectKey_le; [exact Hii|exact Hin|lia].
      - intros E. apply getObjectKey_inj in E; [lia|exact Hii|exact Hin]. }
    split.
    + apply StronglySorted_app_2; [|exact HS|repeat constructor].
      intros x1 x2 H1 H2. apply list_elem_of_singleton in H2. subst x2. apply Hlt, H1.
    + apply NoDup_app. split; [exact HN|]. split; [|apply NoDup_singleton].
      intros x H1 H2. apply list_elem_of_singleton in H2. subst x.
      apply (Hlt _ H1). reflexivity.
Qed.

Lemma contiguous_keys (w : S3WAL) (c : S3) :
  contiguous w c ->
  keys_under (S3WAL.prefix w +:+ "/") (objects c) = keys_upto w (S3WAL.length w).
Proof.
  intros [Hn Hk].
  destruct (keys_upto_sorted w (Z.to_nat (S3WAL.length w))) as [HS HN]; [lia|].
  rewrite Z2Nat.id in HS, HN by lia.
  apply sorted_keys_unique.
  - apply keys_under_sorted.
  - apply keys_under_NoDup.
  - exact HS.
  - exact HN.
  - intros k. rewrite Hk, keys_upto_elem. reflexivity.
Qed.

Lemma contiguous_same (w : S3WAL) (c c' : S3) :
  objects c' = objects c -> contiguous w c -> contiguous w c'.
Proof. intros Ho [Hn Hk]. split; [exact Hn|]. rewrite Ho. exact Hk. Qed.

Lemma contiguous_at (w : S3WAL) (m : Z) (c : S3) :
  contiguous (set_length w m) c <->
  0 <= m <= U64.max /\
  forall k, k ∈ keys_under (S3WAL.prefix w +:+ "/") (objects c) <->
            exists i, 1 <= i <= m /\ k = getObjectKey w i.
Proof. reflexivity. Qed.

Lemma contiguous_here (w : S3WAL) (c : S3) :
  contiguous w c <-> contiguous (set_length w (S3WAL.length w)) c.
Proof. destruct w. reflexivity. Qed.

(** Storing the object of the next offset, over a log with or without
    that key. *)
Lemma contiguous_put (w : S3WAL) (m n : Z) (c c' : S3) (body : list byte) :
  contiguous (set_length w m) c -> m = n \/ m = n + 1 -> 0 <= n < U64.max ->
  objects c' = <[getObjectKey w (n + 1) := body]> (objects c) ->
  contiguous (set_length w (n + 1)) c'.
Proof.
  intros Hc Hm Hn Ho. apply (proj1 (contiguous_at w m _)) in Hc. destruct Hc as [Hm0 Hk].
  apply (proj2 (contiguous_at w (n + 1) _)). split; [lia|]. intros k.
  rewrite keys_under_elem, Ho, lookup_insert_is_Some.
  specialize (Hk k). rewrite keys_under_elem in Hk. split.
  - intros [[<-|[Hne Hs]] Hp].
    + exists (n + 1). split; [lia|reflexivity].
    + destruct Hk as [Hk _]. destruct (Hk (conj Hs Hp)) as (i & Hi & ->).
      exists i. split; [destruct Hm; lia|reflexivity].
  - intros (i & Hi & ->). split; [|apply getObjectKey_prefix].
    destruct (decide (i = n + 1)) as [->|Hne]; [left; reflexivity|].
    destruct Hk as [_ Hk].
    destruct Hk as [Hs _]; [exists i; split; [destruct Hm; lia|reflexivity]|].
    destruct (decide (getObjectKey w (n + 1) = getObjectKey w i)) as [E|E];
      [left; exact E|right; split; assumption].
Qed.

Lemma contiguous_Append (w : S3WAL) (data : list byte) (c : S3)
    (o : Z) (w' : S3WAL) (c' : S3) :
  S3WAL.length w < U64.max ->
  contiguous w c -> Append w data c = (Ok o, w', c') -> contiguous w' c'.
Proof.
  intros Hlt Hc HA. pose proof Hc as [Hn _]. apply contiguous_here in Hc.
  apply Append_inv in HA. cbv zeta in HA.
  assert (Hnext : U64.add (S3WAL.length w) 1 = S3WAL.length w + 1).
  { unfold U64.add, U64.wrap, U64.max in *. apply Z.mod_small. lia. }
  rewrite Hnext in HA.
  destruct HA as [(u & HP & _ & ->)|(e & _ & Hr & _)]; [|discriminate].
  apply PutObject_Ok in HP. destruct HP as (_ & Ho & _).
  eapply contiguous_put; [exact Hc|left; reflexivity|lia|exact Ho].
Qed.

Lemma nearly_same (w : S3WAL) (c c' : S3) :
  objects c' = objects c -> nearly_contiguous w c -> nearly_contiguous w c'.
Proof.
  intros Ho [Hc|[Hn Hc]]; [left|right; split; [exact Hn|]];
    eapply contiguous_same; eassumption.
Qed.

(** [Append] keeps the keys within one of the cache, whatever it returns,
    and makes them exact when it succeeds. *)
Lemma nearly_Append (w : S3WAL) (data : list byte) (c : S3)
    (r : result Error Z) (w' : S3WAL) (c' : S3) :
  S3WAL.length w < U64.max ->
  nearly_contiguous w c -> Append w data c = (r, w', c') ->
  nearly_contiguous w' c' /\ (is_Ok r -> contiguous w' c').
Proof.
  intros Hlt Hnc HA.
  assert (Hstate : exists m, contiguous (set_length w m) c /\
                     (m = S3WAL.length w \/ m = S3WAL.length w + 1) /\
                     0 <= S3WAL.length w).
  { destruct Hnc as [Hc|[Hn Hc]].
    - exists (S3WAL.length w). split; [apply contiguous_here, Hc|].
      split; [left; reflexivity|apply Hc].
    - exists (S3WAL.length w + 1). split; [exact Hc|]. split; [right; reflexivity|exact Hn]. }
  destruct Hstate as (m & Hc & Hm & Hn).
  apply Append_inv in HA. cbv zeta in HA.
  assert (Hnext : U64.add (S3WAL.length w) 1 = S3WAL.length w + 1).
  { unfold U64.add, U64.wrap, U64.max in *. apply Z.mod_small. lia. }
  rewrite Hnext in HA.
  destruct HA as [(u & HP & -> & ->)|(e & HP & -> & ->)].
  - apply PutObject_Ok in HP. destruct HP as (_ & Ho & _).
    assert (Hc' : contiguous (set_length w (S3WAL.length w + 1)) c').
    { eapply contiguous_put; [exact Hc|exact Hm|lia|exact Ho]. }
    split; [left; exact Hc'|intros _; exact Hc'].
  - split; [|intros []].
    apply PutObject_Err in HP.
    destruct HP as (_ & (msg & _ & [[_ Ho]|[_ Ho]]) & _).
    + eapply nearly_same; eassumption.
    + right. split; [exact Hn|].
      eapply contiguous_put; [exact Hc|exact Hm|lia|exact Ho].
Qed.

(** [LastRecord] on a store whose keys are those of the offsets 1 to [m]:
    its listing fails and nothing changes, or the cache becomes [m]. *)
Lemma contiguous_LastRecord (w : S3WAL) (m : Z) (c : S3)
    (r : result Error Record_) (w' : S3WAL) (c' : S3) :
  contiguous (set_length w m) c -> LastRecord w c = Some (r, w', c') ->
  (w' = w /\ objects c' = objects c) \/ contiguous w' c'.
Proof.
  intros Hc HL.
  destruct (LastRecord_run w c) as (r2 & w2 & c2 & Hrun & Ho & _ & _ & Hcase).
  rewrite HL in Hrun. inversion Hrun. subst r2 w2 c2. clear Hrun.
  destruct Hcase as [(_ & -> & _)|(_ & Hcase)]; [left; split; [reflexivity|exact Ho]|].
  right. pose proof Hc as Hc0. apply (proj1 (contiguous_at w m _)) in Hc. destruct Hc as [Hn Hk].
  cbv zeta in Hcase.
  destruct (last (keys_under _ _)) as [k|] eqn:Hlast.
  - destruct (last_greatest _ _ (keys_under_sorted _ _) Hlast) as [Hin Hmax].
    pose proof Hin as Hin'. apply Hk in Hin'. destruct Hin' as (i & Hi & ->).
    assert (Hii : U64.In i) by (unfold U64.In, U64.max in *; lia).
    rewrite (getOffsetFromKey_getObjectKey w i Hii) in Hcase.
    destruct Hcase as [-> _].
    assert (Hnn : U64.In m) by (unfold U64.In, U64.max in *; lia).
    assert (Hle : String.le (getObjectKey w m) (getObjectKey w i)).
    { apply Hmax, Hk. exists m. split; [lia|reflexivity]. }
    apply getObjectKey_le in Hle; [|exact Hnn|exact Hii].
    assert (i = m) by lia. subst i.
    eapply contiguous_same; eassumption.
  - destruct Hcase as (_ & -> & _). apply last_None in Hlast.
    assert (m = 0).
    { destruct (Z.eq_dec m 0) as [E|E]; [exact E|]. exfalso.
      assert (Hin : getObjectKey w 1 ∈ keys_under (S3WAL.prefix w +:+ "/") (objects c)).
      { apply Hk. exists 1. split; [lia|reflexivity]. }
      rewrite Hlast in Hin. apply elem_of_nil in Hin. exact Hin. }
    subst m. eapply contiguous_same; eassumption.
Qed.

Lemma contiguous_Recover (w : S3WAL) (m : Z) (c : S3)
    (r : result Error Z) (w' : S3WAL) (c' : S3) :
  contiguous (set_length w m) c -> Recover w c = Some (r, w', c') ->
  (w' = w /\ objects c' = objects c) \/ contiguous w' c'.
Proof.
  intros Hc HR.
  destruct (Recover_bounds w c) as (r2 & w2 & c2 & Hrun & Ho & Hcase).
  rewrite HR in Hrun. inversion Hrun. subst r2 w2 c2. clear Hrun.
  destruct r as [mx|e].
  2:{ destruct Hcase as (_ & -> & _). left. split; [reflexivity|exact Ho]. }
  right. destruct Hcase as (_ & -> & Hm0 & Hub & Hatt).
  pose proof Hc as Hc0. apply (proj1 (contiguous_at w m _)) in Hc. destruct Hc as [Hn Hk].
  assert (Hdec : forall i, 1 <= i <= m -> getOffsetFromKey (getObjectKey w i) = Ok i).
  { intros i Hi. apply getOffsetFromKey_getObjectKey. unfold U64.In, U64.max in *. lia. }
  assert (Hge : m <= mx).
  { destruct (Z.eq_dec m 0) as [E|E]; [lia|].
    eapply (Hub (getObjectKey w m)).
    - apply Hk. exists m. split; [lia|reflexivity].
    - apply Hdec. lia. }
  assert (mx = m).
  { destruct Hatt as [->|(k & Hin & Hd)]; [lia|].
    apply Hk in Hin. destruct Hin as (i & Hi & ->).
    rewrite (Hdec i Hi) in Hd. inversion Hd. lia. }
  subst mx. eapply contiguous_same; eassumption.
Qed.

Lemma contiguous_Truncate_at (w : S3WAL) (m k : Z) (c : S3) (w' : S3WAL) (c' : S3) :
  0 <= k <= m ->
  contiguous (set_length w m) c -> Truncate w k c = Some (Ok tt, w', c') -> contiguous w' c'.
Proof.
  intros Hk0 Hc HT. apply (proj1 (contiguous_at w m _)) in Hc. destruct Hc as [Hn Hk].
  destruct (Truncate_run w k c) as (r2 & w2 & c2 & Hrun & Hr).
  rewrite HT in Hrun. inversion Hrun. subst r2 w2 c2. clear Hrun.
  destruct Hr as (-> & _ & _ & Hobj).
  apply (proj2 (contiguous_at w k _)). split; [lia|]. intros key.
  rewrite keys_under_elem, Hobj. specialize (Hk key). rewrite keys_under_elem in Hk.
  assert (Hb : forall i, 1 <= i <= m -> beyond k (getObjectKey w i) = (k <? i)).
  { intros i Hi. apply beyond_decoded, getOffsetFromKey_getObjectKey.
    unfold U64.In, U64.max in *. lia. }
  split.
  - intros [Hs Hp]. destruct (decide _) as [_|Hnot]; [destruct Hs; discriminate|].
    destruct Hk as [Hk _]. destruct (Hk (conj Hs Hp)) as (i & Hi & ->).
    exists i. split; [|reflexivity]. split; [lia|].
    destruct (Z.ltb_spec k i) as [Hlt|Hge]; [|lia].
    exfalso. apply Hnot. split; [exact Hp|]. rewrite Hb by exact Hi.
    apply Z.ltb_lt. exact Hlt.
  - intros (i & Hi & ->). destruct Hk as [_ Hk].
    destruct Hk as [Hs Hp]; [exists i; split; [lia|reflexivity]|].
    split; [|exact Hp].
    destruct (decide _) as [[_ Hbb]|_]; [|exact Hs].
    rewrite Hb in Hbb by lia. apply Z.ltb_lt in Hbb. lia.
Qed.

Lemma contiguous_Truncate (w : S3WAL) (k : Z) (c : S3) (w' : S3WAL) (c' : S3) :
  0 <= k <= S3WAL.length w ->
  contiguous w c -> Truncate w k c = Some (Ok tt, w', c') -> contiguous w' c'.
Proof.
  intros Hk Hc. apply contiguous_here in Hc. eapply contiguous_Truncate_at; eassumption.
Qed.

(** Every state of a history has its keys within one of the cache. *)
Lemma reachable_is_nearly (prefix0 : string) (w : S3WAL) (c : S3) :
  reachable truncate_within prefix0 w c -> nearly_contiguous w c.
Proof.
  induction 1 as [c Hempty|o w c w' c' _ IH Hok Hrun].
  - left. split; [cbn; unfold U64.max, U64.modulus; lia|]. intros k. rewrite Hempty. split.
    + intros H. apply elem_of_nil in H. destruct H.
    + intros (i & Hi & _). cbn in Hi. lia.
  - assert (Hstate : exists m, contiguous (set_length w m) c /\ S3WAL.length w <= m).
    { destruct IH as [Hc|[Hn Hc]].
      - exists (S3WAL.length w). split; [apply contiguous_here, Hc|lia].
      - exists (S3WAL.length w + 1). split; [exact Hc|lia]. }
    destruct Hstate as (m & Hc & Hm).
    destruct o as [data|offset| | |k]; cbn [run] in Hrun.
    + destruct (Append w data c) as [[r w2] c2] eqn:HA. inversion Hrun. subst w2 c2.
      eapply nearly_Append; eassumption.
    + inversion Hrun. subst w' c'. eapply nearly_same; [|exact IH].
      apply Read_state.
    + destruct (LastRecord w c) as [[[r w2] c2]|] eqn:HL; [|discriminate].
      inversion Hrun. subst w2 c2.
      destruct (contiguous_LastRecord w m c r w' c' Hc HL) as [[-> Ho]|Hc'].
      * eapply nearly_same; eassumption.
      * left. exact Hc'.
    + destruct (Recover w c) as [[[r w2] c2]|] eqn:HR; [|discriminate].
      inversion Hrun. subst w2 c2.
      destruct (contiguous_Recover w m c r w' c' Hc HR) as [[-> Ho]|Hc'].
      * eapply nearly_same; eassumption.
      * left. exact Hc'.
    + destruct Hok as (Hk & w3 & c3 & HT). rewrite HT in Hrun. inversion Hrun. subst w3 c3.
      left. eapply (contiguous_Truncate_at w m k); [lia|exact Hc|exact HT].
Qed.

(** No object sits under the key of offset 0 in such a state. *)
Lemma contiguous_no_zero (w : S3WAL) (c : S3) :
  contiguous w c -> objects c !! getObjectKey w 0 = None.
Proof.
  intros [Hn Hk]. destruct (objects c !! getObjectKey w 0) as [b|] eqn:Hb; [|reflexivity].
  exfalso.
  assert (Hin : getObjectKey w 0 ∈ keys_under (S3WAL.prefix w +:+ "/") (objects c)).
  { apply keys_under_elem. split; [exists b; exact Hb|apply getObjectKey_prefix]. }
  apply Hk in Hin. destruct Hin as (i & Hi & E).
  apply getObjectKey_inj in E; unfold U64.In, U64.max, U64.modulus in *; lia.
Qed.

Lemma nearly_no_zero (w : S3WAL) (c : S3) :
  nearly_contiguous w c -> objects c !! getObjectKey w 0 = None.
Proof.
  intros [Hc|[_ Hc]]; [apply contiguous_no_zero, Hc|].
  apply contiguous_no_zero in Hc. exact Hc.
Qed.

(** C8, amended. Start from a new log over a store with nothing under
    the prefix and call [Append] (while the cache is below 2^64-1),
    [Read], [LastRecord], [Recover] and [Truncate(k)] with [k] at most the
    cached length and no failure, in any order, requests failing or not,
    a failed write having stored its object or not. In every state so
    reached the keys under the prefix are exactly those of the offsets 1
    to the cached length, in order, or those and the key of the next
    offset, which an [Append] that failed after its object was stored
    leaves behind. An [Append] that succeeds is given the cached length
    plus 1, and after it the keys are exactly those of the offsets 1 to
    the new cached length. *)
Theorem reachable_contiguous (prefix0 : string) (w : S3WAL) (c : S3) :
  reachable truncate_within prefix0 w c ->
  0 <= S3WAL.length w <= U64.max /\
  (keys_under (S3WAL.prefix w +:+ "/") (objects c) = keys_upto w (S3WAL.length w) \/
   (S3WAL.length w < U64.max /\
    keys_under (S3WAL.prefix w +:+ "/") (objects c) = keys_upto w (S3WAL.length w + 1))) /\
  forall data o w' c',
    Append w data c = (Ok o, w', c') ->
    o = U64.add (S3WAL.length w) 1 /\
    (S3WAL.length w < U64.max ->
     o = S3WAL.length w + 1 /\
     keys_under (S3WAL.prefix w' +:+ "/") (objects c') = keys_upto w' (S3WAL.length w')).
Proof.
  intros Hreach.
  pose proof (reachable_is_nearly prefix0 w c Hreach) as Hnc.
  assert (Hn : 0 <= S3WAL.length w <= U64.max).
  { destruct Hnc as [Hc|[Hn Hc]]; [apply Hc|].
    apply (proj1 (contiguous_at w (S3WAL.length w + 1) _)) in Hc. lia. }
  split; [exact Hn|]. split.
  - destruct Hnc as [Hc|[_ Hc]]; [left; apply contiguous_keys, Hc|].
    right. pose proof Hc as Hc0. apply (proj1 (contiguous_at w (S3WAL.length w + 1) _)) in Hc0.
    split; [lia|]. apply (contiguous_keys _ _ Hc).
  - intros data o w' c' HA.
    assert (Ho : o = U64.add (S3WAL.length w) 1).
    { apply Append_inv in HA. cbv zeta in HA.
      destruct HA as [(u & _ & Ho & _)|(e & _ & Ho & _)]; [|discriminate].
      inversion Ho. reflexivity. }
    split; [exact Ho|]. intros Hlt. split.
    + rewrite Ho. unfold U64.add, U64.wrap, U64.max in *. apply Z.mod_small. lia.
    + apply contiguous_keys.
      apply (nearly_Append w data c (Ok o) w' c' Hlt Hnc HA). exact I.
Qed.


Lemma reachable_contiguous_witness :
  let w := fst Sample.orphaned in
  let c := snd Sample.orphaned in
  reachable truncate_within "/wal/" w c /\
  0 <= S3WAL.length w <= U64.max /\
  (keys_under (S3WAL.prefix w +:+ "/") (objects c) = keys_upto w (S3WAL.length w) \/
   (S3WAL.length w < U64.max /\
    keys_under (S3WAL.prefix w +:+ "/") (objects c) = keys_upto w (S3WAL.length w + 1))) /\
  forall data o w' c',
    Append w data c = (Ok o, w', c') ->
    o = U64.add (S3WAL.length w) 1 /\
    (S3WAL.length w < U64.max ->
     o = S3WAL.length w + 1 /\
     keys_under (S3WAL.prefix w' +:+ "/") (objects c') = keys_upto w' (S3WAL.length w')).
Proof.
  pose (s0 := (Sample.wal, Sample.bucket 2 [Served; Interrupted "timeout"%string])).
  pose (s1 := Sample.append Sample.rec1 s0).
  assert (H0 : reachable truncate_within "/wal/" (fst s0) (snd s0)).
  { apply reach_new. vm_compute. reflexivity. }
  assert (H1 : reachable truncate_within "/wal/" (fst s1) (snd s1)).
  { apply (reach_call _ _ (OpAppend Sample.rec1) (fst s0) (snd s0)); [exact H0| |];
      vm_compute; reflexivity. }
  assert (H2 : reachable truncate_within "/wal/" (fst Sample.orphaned) (snd Sample.orphaned)).
  { apply (reach_call _ _ (OpAppend Sample.rec2) (fst s1) (snd s1)); [exact H1| |];
      vm_compute; reflexivity. }
  split; [exact H2|].
  exact (reachable_contiguous "/wal/" _ _ H2).
Defined.

(** C8 as stated fails: on the empty log [Truncate(5)] succeeds and sets
    the cache to 5, the [Append] that follows is given offset 6, and the
    store then holds the record of offset 6 alone: no sequence starting
    at 1. *)
Lemma contiguous_counterexample :
  let w0 := Sample.wal in
  let c0 := Sample.bucket 2 [] in
  let s1 := Sample.truncate 5 (w0, c0) in
  let s2 := Sample.gapped in
  keys_under "wal/" (objects c0) = [] /\
  Truncate w0 5 c0 = Some (Ok tt, fst s1, snd s1) /\
  Append (fst s1) Sample.rec1 (snd s1) = (Ok 6, fst s2, snd s2) /\
  keys_under "wal/" (objects (snd s2)) = ["wal/00000000000000000006"%string] /\
  ¬ (exists n, keys_under "wal/" (objects (snd s2)) = keys_upto (fst s2) n).
Proof.
  split; [vm_compute; reflexivity|].
  split; [vm_compute; reflexivity|].
  split; [vm_compute; reflexivity|].
  assert (H : keys_under "wal/" (objects (snd Sample.gapped)) =
              ["wal/00000000000000000006"%string]) by (vm_compute; reflexivity).
  split; [exact H|].
  intros [n Hn]. rewrite H in Hn. unfold keys_upto in Hn.
  destruct (Z.lt_ge_cases 0 n) as [Hpos|Hneg].
  - rewrite seqZ_cons in Hn by exact Hpos. cbn [fmap list_fmap] in Hn.
    inversion Hn as [[Hk Ht]]; vm_compute in Hk; discriminate Hk.
  - rewrite seqZ_nil in Hn by exact Hneg. discriminate Hn.
Qed.

(** An [Append] can fail with its object stored: when the write is
    interrupted on the empty log, [Append] returns the put error and the
    cache stays 0 while the key of offset 1 is in the store; [Recover]
    then counts the record, and a second [Append] replaces it. *)
Example Append_interrupted :
  let w := Sample.wal in
  let c := Sample.bucket 2 [Interrupted "timeout"] in
  let body (data : list byte) := be_bytes 8 1 ++ data ++ SHA256.Sum256 (be_bytes 8 1 ++ data) in
  exists c1 c2 c3,
    Append w Sample.rec1 c = (Err (ErrPutObject 1 (RequestFailed "timeout")), w, c1) /\
    objects c1 = {[ "wal/00000000000000000001"%string := body Sample.rec1 ]} /\
    Recover w c1 = Some (Ok 1, set_length w 1, c2) /\
    Append w Sample.rec2 c1 = (Ok 1, set_length w 1, c3) /\
    objects c3 = {[ "wal/00000000000000000001"%string := body Sample.rec2 ]}.
Proof.
  eexists _, _, _. split; [vm_compute; reflexivity|].
  split; [apply map_eq; intros k; vm_compute; reflexivity|].
  split; [vm_compute; reflexivity|].
  split; [vm_compute; reflexivity|].
  vm_compute. reflexivity.
Qed.

(** A [Truncate] that fails midway can leave a gap too: with the object of
    offset 2 locked, [Truncate(0)] on three records reports the per-key
    error, keeps the cache at 3 and leaves the record of offset 2 alone in
    the store. *)
Example Truncate_partial_failure :
  let w := fst Sample.held in
  let c := snd Sample.held in
  exists c',
    Truncate w 0 c =
      Some (Err (ErrDeleteObjectsErrors [("wal/00000000000000000002", "AccessDenied")]%string),
            w, c') /\
    keys_under "wal/" (objects c') = ["wal/00000000000000000002"%string].
Proof.
  eexists. split; vm_compute; reflexivity.
Qed.


(** ** Read at offset 0 *)

(** C9, amended. [Read(0)] is an ordinary lookup of the key of offset 0:
    when its request is served it fails with NotFound exactly when no
    object is stored under that key, which is so in every state reached
    from an empty log by [Append] below 2^64-1, [Read], [LastRecord],
    [Recover] and successful [Truncate]s within the log; and it returns
    the record when the object there is a frame of offset 0. *)
Theorem Read_zero (w : S3WAL) (c : S3) :
  hd Served (faults c) = Served ->
  let key := getObjectKey w 0 in
  (objects c !! key = None <-> fst (Read w 0 c) = Err (ErrGetObject key NoSuchKey)) /\
  (forall prefix0, reachable truncate_within prefix0 w c ->
     fst (Read w 0 c) = Err (ErrGetObject key NoSuchKey)) /\
  (forall data,
     objects c !! key = Some (be_bytes 8 0 ++ data ++ SHA256.Sum256 (be_bytes 8 0 ++ data)) ->
     fst (Read w 0 c) = Ok {| Offset := 0; Data := data |}).
Proof.
  intros Hf key. rewrite Read_served by exact Hf. fold key. split; [|split].
  2:{ intros prefix0 Hreach. apply reachable_is_nearly, nearly_no_zero in Hreach.
      fold key in Hreach. rewrite Hreach. reflexivity. }
  - destruct (objects c !! key) as [b|] eqn:Hb.
    + split; [discriminate|]. unfold parseRecord.
      destruct (_ <? _)%nat; [discriminate|].
      destruct (negb (_ =? _)); [discriminate|].
      destruct (negb (validateChecksum b)); discriminate.
    + split; reflexivity.
  - intros data Hb. rewrite Hb. apply parseRecord_framed.
    unfold U64.In, U64.modulus. lia.
Qed.

Lemma Read_zero_witness :
  let w := fst Sample.wrapped in
  let c := snd Sample.wrapped in
  let key := getObjectKey w 0 in
  hd Served (faults c) = Served /\
  (objects c !! key = None <-> fst (Read w 0 c) = Err (ErrGetObject key NoSuchKey)) /\
  (forall prefix0, reachable truncate_within prefix0 w c ->
     fst (Read w 0 c) = Err (ErrGetObject key NoSuchKey)) /\
  (forall data,
     objects c !! key = Some (be_bytes 8 0 ++ data ++ SHA256.Sum256 (be_bytes 8 0 ++ data)) ->
     fst (Read w 0 c) = Ok {| Offset := 0; Data := data |}).
Proof.
  assert (H : hd Served (faults (snd Sample.wrapped)) = Served) by (vm_compute; reflexivity).
  split; [exact H|].
  exact (Read_zero (fst Sample.wrapped) (snd Sample.wrapped) H).
Defined.

(** C9 as stated fails: [Truncate(2^64-1)] on the empty log sets the cache
    to 2^64-1, the [Append] that follows wraps to offset 0 and stores a
    record under the key of offset 0, and [Read(0)] returns it. *)
Lemma Read_zero_counterexample :
  let w0 := Sample.wal in
  let c0 := Sample.bucket 2 [] in
  let s1 := Sample.truncate U64.max (w0, c0) in
  let s2 := Sample.wrapped in
  Truncate w0 U64.max c0 = Some (Ok tt, fst s1, snd s1) /\
  Append (fst s1) Sample.rec1 (snd s1) = (Ok 0, fst s2, snd s2) /\
  fst (Read (fst s2) 0 (snd s2)) = Ok {| Offset := 0; Data := Sample.rec1 |} /\
  ¬ (exists e, fst (Read (fst s2) 0 (snd s2)) = Err e /\ NotFound e).
Proof.
  split; [vm_compute; reflexivity|].
  split; [vm_compute; reflexivity|].
  assert (H : fst (Read (fst Sample.wrapped) 0 (snd Sample.wrapped)) =
              Ok {| Offset := 0; Data := Sample.rec1 |}) by (vm_compute; reflexivity).
  split; [exact H|].
  intros (e & He & _). rewrite H in He. discriminate He.
Qed.



(** ** The demo run

    The run of the demo program and of the test script: five records are
    appended at offsets 1 to 5, record 3 reads back, the last record is
    record 5, and after [Truncate(3)] a [Recover] returns 3 while records 4
    and 5 are gone. *)
Example demo_run :
  let record (i : string) := list_byte_of_string ("Record #" +:+ i) in
  let s0 := (NewS3WAL "wal-demo", Sample.bucket 1000 []) in
  let s1 := Sample.append (record "1") s0 in
  let s2 := Sample.append (record "2") s1 in
  let s3 := Sample.append (record "3") s2 in
  let s4 := Sample.append (record "4") s3 in
  let s5 := Sample.append (record "5") s4 in
  let s6 := Sample.truncate 3 s5 in
  (fst <$> (fst <$> Recover (fst s0) (snd s0))) = Some (Ok 0) /\
  S3WAL.length <$> [fst s1; fst s2; fst s3; fst s4; fst s5] = [1; 2; 3; 4; 5] /\
  fst (Read (fst s5) 3 (snd s5)) = Ok {| Offset := 3; Data := record "3" |} /\
  (fst <$> (fst <$> LastRecord (fst s5) (snd s5))) =
    Some (Ok {| Offset := 5; Data := record "5" |}) /\
  (fst <$> (fst <$> Truncate (fst s5) 3 (snd s5))) = Some (Ok tt) /\
  (fst <$> (fst <$> Recover (fst s6) (snd s6))) = Some (Ok 3) /\
  fst (Read (fst s6) 4 (snd s6)) =
    Err (ErrGetObject "wal-demo/00000000000000000004" NoSuchKey) /\
  fst (Read (fst s6) 5 (snd s6)) =
    Err (ErrGetObject "wal-demo/00000000000000000005" NoSuchKey).
Proof.
  vm_compute. repeat split; reflexivity.
Qed.


(** * Further properties of the package *)

(** ** What [Read] accepts *)

Lemma byte_of_Z_of_byte (b : byte) : byte_of_Z (Z_of_byte b) = b.
Proof.
  unfold byte_of_Z. rewrite Z.mod_small by apply Z_of_byte_range.
  unfold Z_of_byte. rewrite N2Z.id, Byte.of_to_N. reflexivity.
Qed.

Lemma be_value_range (bs : list byte) : 0 <= be_value bs < 256 ^ Z.of_nat (length bs).
Proof.
  induction bs as [|b bs IH] using rev_ind.
  - cbn. lia.
  - rewrite be_value_snoc, length_app. cbn [length].
    replace (Z.of_nat (length bs + 1)) with (Z.succ (Z.of_nat (length bs))) by lia.
    rewrite Z.pow_succ_r by lia. pose proof (Z_of_byte_range b). lia.
Qed.

Lemma be_bytes_be_value (bs : list byte) : be_bytes (length bs) (be_value bs) = bs.
Proof.
  induction bs as [|b bs IH] using rev_ind; [reflexivity|].
  rewrite be_value_snoc, length_app. cbn [length].
  replace (length bs + 1)%nat with (S (length bs)) by lia. cbn [be_bytes].
  pose proof (Z_of_byte_range b) as Hb.
  replace ((be_value bs * 256 + Z_of_byte b) / 256) with (be_value bs)
    by (apply Z.div_unique with (r := Z_of_byte b); lia).
  replace ((be_value bs * 256 + Z_of_byte b) mod 256) with (Z_of_byte b)
    by (apply Z.mod_unique with (q := be_value bs); lia).
  rewrite IH, byte_of_Z_of_byte. reflexivity.
Qed.

Lemma validateChecksum_true (full : list byte) :
  validateChecksum full = true ->
  (SHA256.Size <= length full)%nat /\
  full = take (length full - SHA256.Size) full ++
         SHA256.Sum256 (take (length full - SHA256.Size) full).
Proof.
  unfold validateChecksum. destruct (Nat.ltb_spec (length full) SHA256.Size); [discriminate|].
  unfold bytes_Equal. intros E. apply bool_decide_eq_true in E.
  split; [assumption|]. rewrite E. symmetry. apply take_drop.
Qed.

(** X2. [validateChecksum] accepts exactly the byte strings that end with
    the SHA-256 digest of what precedes it; anything shorter than a digest
    is rejected. *)
Theorem validateChecksum_iff (full : list byte) :
  validateChecksum full = true <->
  exists payload, full = payload ++ SHA256.Sum256 payload.
Proof.
  split.
  - intros H. apply validateChecksum_true in H. destruct H as [_ H]. eexists. exact H.
  - intros [payload ->]. apply validateChecksum_framed.
Qed.

Lemma parseRecord_Ok (key : string) (offset : Z) (data : list byte) (r : Record_) :
  parseRecord key offset data = Ok r ->
  Offset r = offset /\ U64.In offset /\
  data = be_bytes 8 offset ++ Data r ++ SHA256.Sum256 (be_bytes 8 offset ++ Data r).
Proof.
  unfold parseRecord.
  destruct (Nat.ltb_spec (length data) (8 + SHA256.Size)) as [|Hlen]; [discriminate|].
  destruct (Z.eqb_spec (be_value (take 8 data)) offset) as [Hoff|]; [|discriminate].
  cbn [negb]. destruct (validateChecksum data) eqn:Hv; [|discriminate]. cbn [negb].
  intros E. inversion E. subst r. clear E. cbn [Offset Data].
  apply validateChecksum_true in Hv. destruct Hv as [_ Hv].
  set (n := (length data - SHA256.Size)%nat) in *.
  assert (Hl8 : length (take 8 data) = 8%nat) by (rewrite length_take; lia).
  assert (Hhdr : be_bytes 8 offset = take 8 data).
  { rewrite <- Hoff, <- Hl8 at 1. apply be_bytes_be_value. }
  assert (Hpay : take n data = be_bytes 8 offset ++ drop 8 (take n data)).
  { rewrite Hhdr. rewrite <- (take_drop 8 (take n data)) at 1. f_equal.
    rewrite take_take. f_equal. unfold n, SHA256.Size in *. lia. }
  split; [exact Hoff|]. split.
  - pose proof (be_value_range (take 8 data)) as Hr. rewrite Hl8, Hoff in Hr.
    unfold U64.In, U64.modulus. change (256 ^ Z.of_nat 8) with (2 ^ 64) in Hr. exact Hr.
  - rewrite app_assoc, <- Hpay. exact Hv.
Qed.

(** X1. [Read] returns a record only for a well-formed object: when
    [Read(offset)] succeeds, the record carries that offset, and the bytes
    stored under the key of the offset are exactly the 8 big-endian bytes
    of the offset, the record's data and the SHA-256 of the two; the store
    is left as it was. *)
Theorem Read_sound (w : S3WAL) (offset : Z) (c : S3) (r : Record_) (c' : S3) :
  Read w offset c = (Ok r, c') ->
  Offset r = offset /\
  objects c !! getObjectKey w offset =
    Some (be_bytes 8 offset ++ Data r ++ SHA256.Sum256 (be_bytes 8 offset ++ Data r)) /\
  objects c' = objects c.
Proof.
  intros HR. pose proof (Read_state w offset c) as Hst. rewrite HR in Hst. cbn [snd] in Hst.
  destruct Hst as (Hobj & _). revert HR.
  unfold Read, GetObject, next_fault. cbn [objects].
  destruct (hd Served (faults c)) as [|msg|msg]; [|discriminate|].
  - destruct (objects c !! getObjectKey w offset) as [b|]; [|discriminate].
    unfold ReadAll. cbn [broken content].
    destruct (parseRecord (getObjectKey w offset) offset b) as [r'|e] eqn:HP; [|discriminate].
    intros E. inversion E. subst r' c'. clear E.
    apply parseRecord_Ok in HP. destruct HP as (Ho & _ & Hb).
    split; [exact Ho|]. split; [f_equal; exact Hb|reflexivity].
  - destruct (objects c !! getObjectKey w offset) as [b|]; discriminate.
Qed.

Lemma Read_sound_witness :
  let w := fst Sample.three in
  let c := snd Sample.three in
  let r := {| Offset := 2; Data := Sample.rec2 |} in
  let c' := snd (Read w 2 c) in
  Read w 2 c = (Ok r, c') /\
  Offset r = 2 /\
  objects c !! getObjectKey w 2 =
    Some (be_bytes 8 2 ++ Data r ++ SHA256.Sum256 (be_bytes 8 2 ++ Data r)) /\
  objects c' = objects c.
Proof.
  assert (H : Read (fst Sample.three) 2 (snd Sample.three) =
              (Ok {| Offset := 2; Data := Sample.rec2 |},
               snd (Read (fst Sample.three) 2 (snd Sample.three))))
    by (vm_compute; reflexivity).
  split; [exact H|].
  exact (Read_sound (fst Sample.three) 2 (snd Sample.three) _ _ H).
Defined.

(** X3. A frame stored under the key of another offset is refused: when
    the object under the key of [offset] starts with 8 bytes that are not
    the big-endian bytes of [offset] and is long enough to be a frame,
    [Read(offset)] fails with the offset mismatch, reporting the offset it
    found, whatever the rest of the object (a valid frame of another offset
    included). *)
Theorem Read_offset_mismatch (w : S3WAL) (offset : Z) (c : S3) (hdr rest : list byte) :
  hd Served (faults c) = Served ->
  objects c !! getObjectKey w offset = Some (hdr ++ rest) ->
  length hdr = 8%nat -> (SHA256.Size <= length rest)%nat ->
  hdr <> be_bytes 8 offset ->
  fst (Read w offset c) =
    Err (ErrOffsetMismatch (getObjectKey w offset) offset (be_value hdr)).
Proof.
  intros Hf Hobj Hh Hrest Hne. rewrite Read_served by exact Hf. rewrite Hobj.
  unfold parseRecord. rewrite length_app, Hh.
  destruct (Nat.ltb_spec (8 + length rest) (8 + SHA256.Size)); [lia|].
  rewrite <- Hh, take_app_length, Hh.
  destruct (Z.eqb_spec (be_value hdr) offset) as [E|_]; [|reflexivity].
  exfalso. apply Hne. rewrite <- E, <- Hh. symmetry. apply be_bytes_be_value.
Qed.

Lemma Read_offset_mismatch_witness :
  let w := Sample.wal in
  let c := snd Sample.misplaced in
  let hdr := be_bytes 8 1 in
  let rest := Sample.rec1 ++ SHA256.Sum256 (be_bytes 8 1 ++ Sample.rec1) in
  hd Served (faults c) = Served /\
  objects c !! getObjectKey w 4 = Some (hdr ++ rest) /\
  length hdr = 8%nat /\ (SHA256.Size <= length rest)%nat /\
  hdr <> be_bytes 8 4 /\
  fst (Read w 4 c) = Err (ErrOffsetMismatch (getObjectKey w 4) 4 (be_value hdr)).
Proof.
  assert (H1 : hd Served (faults (snd Sample.misplaced)) = Served) by (vm_compute; reflexivity).
  assert (H2 : objects (snd Sample.misplaced) !! getObjectKey Sample.wal 4 =
               Some (be_bytes 8 1 ++ (Sample.rec1 ++ SHA256.Sum256 (be_bytes 8 1 ++ Sample.rec1))))
    by (vm_compute; reflexivity).
  assert (H3 : length (be_bytes 8 1) = 8%nat) by reflexivity.
  assert (H4 : (SHA256.Size <=
                length (Sample.rec1 ++ SHA256.Sum256 (be_bytes 8 1 ++ Sample.rec1)))%nat)
    by (rewrite length_app, Sum256_length; lia).
  assert (H5 : be_bytes 8 1 <> be_bytes 8 4) by (vm_compute; discriminate).
  repeat (split; [assumption|]).
  exact (Read_offset_mismatch Sample.wal 4 (snd Sample.misplaced) _ _ H1 H2 H3 H4 H5).
Defined.

(** X4. A frame whose trailer is not the digest of what precedes it is
    refused: when the object under the key of [offset] is the offset's 8
    bytes, some data, and 32 bytes other than the SHA-256 of the two,
    [Read(offset)] fails with the checksum mismatch. *)
Theorem Read_checksum_mismatch (w : S3WAL) (offset : Z) (c : S3) (data trailer : list byte) :
  hd Served (faults c) = Served -> U64.In offset ->
  objects c !! getObjectKey w offset = Some (be_bytes 8 offset ++ data ++ trailer) ->
  length trailer = SHA256.Size ->
  trailer <> SHA256.Sum256 (be_bytes 8 offset ++ data) ->
  fst (Read w offset c) = Err (ErrChecksumMismatch offset (getObjectKey w offset)).
Proof.
  intros Hf Hoff Hobj Hlen Hne. rewrite Read_served by exact Hf. rewrite Hobj.
  unfold parseRecord. rewrite !length_app, be_bytes_length, Hlen.
  destruct (Nat.ltb_spec (8 + (length data + SHA256.Size)) (8 + SHA256.Size)); [lia|].
  assert (Ht : take 8 (be_bytes 8 offset ++ data ++ trailer) = be_bytes 8 offset).
  { apply take_app_length'. rewrite be_bytes_length. reflexivity. }
  rewrite Ht, be_value_be_bytes_u64, Z.eqb_refl by exact Hoff. cbn [negb].
  destruct (validateChecksum (be_bytes 8 offset ++ data ++ trailer)) eqn:Hv; [|reflexivity].
  exfalso. apply validateChecksum_true in Hv. destruct Hv as [_ Hv].
  rewrite !length_app, be_bytes_length, Hlen in Hv.
  replace (8 + (length data + SHA256.Size) - SHA256.Size)%nat
    with (length (be_bytes 8 offset ++ data)) in Hv
    by (rewrite length_app, be_bytes_length; lia).
  rewrite (app_assoc (be_bytes 8 offset) data trailer) in Hv at 2 3.
  rewrite take_app_length in Hv. rewrite app_assoc in Hv.
  apply app_inv_head in Hv. contradiction.
Qed.

Lemma Read_checksum_mismatch_witness :
  let w := Sample.wal in
  let c := snd Sample.flipped in
  let trailer := SHA256.Sum256 [] in
  hd Served (faults c) = Served /\ U64.In 4 /\
  objects c !! getObjectKey w 4 = Some (be_bytes 8 4 ++ Sample.rec1 ++ trailer) /\
  length trailer = SHA256.Size /\
  trailer <> SHA256.Sum256 (be_bytes 8 4 ++ Sample.rec1) /\
  fst (Read w 4 c) = Err (ErrChecksumMismatch 4 (getObjectKey w 4)).
Proof.
  assert (H1 : hd Served (faults (snd Sample.flipped)) = Served) by (vm_compute; reflexivity).
  assert (H2 : U64.In 4) by (unfold U64.In, U64.modulus; lia).
  assert (H3 : objects (snd Sample.flipped) !! getObjectKey Sample.wal 4 =
               Some (be_bytes 8 4 ++ Sample.rec1 ++ SHA256.Sum256 []))
    by (vm_compute; reflexivity).
  assert (H4 : length (SHA256.Sum256 []) = SHA256.Size) by apply Sum256_length.
  assert (H5 : SHA256.Sum256 [] <> SHA256.Sum256 (be_bytes 8 4 ++ Sample.rec1))
    by (vm_compute; discriminate).
  repeat (split; [assumption|]).
  exact (Read_checksum_mismatch Sample.wal 4 (snd Sample.flipped) _ _ H1 H2 H3 H4 H5).
Defined.


(** ** What [getOffsetFromKey] reads in a key *)

Lemma LastIndexByte_from_absent (i found : Z) (s : string) (c : ascii) :
  c ∉ list_ascii_of_string s -> LastIndexByte_from i found s c = found.
Proof.
  revert i found. induction s as [|a s IH]; intros i found Hc; [reflexivity|].
  cbn [LastIndexByte_from list_ascii_of_string] in *.
  apply not_elem_of_cons in Hc. destruct Hc as [Hne Hc].
  destruct (Ascii.eqb_spec a c) as [E|_]; [congruence|]. apply IH, Hc.
Qed.

Lemma getOffsetFromKey_no_slash (key : string) :
  "/"%char ∉ list_ascii_of_string key ->
  getOffsetFromKey key = Err (ErrInvalidKeyFormat key).
Proof.
  intros H. unfold getOffsetFromKey, LastIndexByte.
  rewrite LastIndexByte_from_absent by exact H. reflexivity.
Qed.

Lemma getOffsetFromKey_segment (a b : string) :
  "/"%char ∉ list_ascii_of_string b ->
  getOffsetFromKey (a +:+ "/" +:+ b) =
  match b with
  | EmptyString => Err (ErrInvalidKeyFormat (a +:+ "/"))
  | _ => ParseUint b
  end.
Proof.
  intros H. change ("/" +:+ b) with (String "/" b).
  unfold getOffsetFromKey, LastIndexByte.
  rewrite LastIndexByte_from_append. cbn [LastIndexByte_from].
  change (Ascii.eqb "/" "/") with true. cbv iota.
  rewrite LastIndexByte_from_absent by exact H.
  rewrite append_length. cbn [String.length].
  destruct (Z.ltb_spec (0 + Z.of_nat (String.length a)) 0); [lia|]. cbn [orb].
  destruct b as [|x b].
  - cbn [String.length].
    destruct (Z.eqb_spec (0 + Z.of_nat (String.length a))
                (Z.of_nat (String.length a + 1) - 1)); [reflexivity|lia].
  - cbn [String.length].
    destruct (Z.eqb_spec (0 + Z.of_nat (String.length a))
                (Z.of_nat (String.length a + S (S (String.length b))) - 1)); [lia|].
    replace (Z.to_nat (0 + Z.of_nat (String.length a) + 1))
      with (String.length (a +:+ "/")) by (rewrite append_length; cbn [String.length]; lia).
    change (String "/" (String x b)) with ("/" +:+ String x b).
    rewrite <- append_assoc, string_from_append. reflexivity.
Qed.

(** X5. Only what follows the last slash of a key counts: a key without
    a slash, or with nothing after its last slash, is refused as an
    invalid key format, and otherwise the result is that of parsing the
    last segment as a decimal [uint64], whatever precedes it. *)
Theorem getOffsetFromKey_last_segment (a b : string) :
  "/"%char ∉ list_ascii_of_string b ->
  getOffsetFromKey b = Err (ErrInvalidKeyFormat b) /\
  getOffsetFromKey (a +:+ "/") = Err (ErrInvalidKeyFormat (a +:+ "/")) /\
  (b <> EmptyString -> getOffsetFromKey (a +:+ "/" +:+ b) = ParseUint b).
Proof.
  intros H. split; [apply getOffsetFromKey_no_slash, H|]. split.
  - apply (getOffsetFromKey_segment a ""). cbn. apply not_elem_of_nil.
  - intros Hb. rewrite getOffsetFromKey_segment by exact H. destruct b; congruence.
Qed.

Lemma getOffsetFromKey_last_segment_witness :
  ("/"%char ∉ list_ascii_of_string "12a") /\
  getOffsetFromKey "12a" = Err (ErrInvalidKeyFormat "12a") /\
  getOffsetFromKey ("wal/x" +:+ "/") = Err (ErrInvalidKeyFormat ("wal/x" +:+ "/")) /\
  ("12a"%string <> EmptyString ->
   getOffsetFromKey ("wal/x" +:+ "/" +:+ "12a") = ParseUint "12a").
Proof.
  assert (H : "/"%char ∉ list_ascii_of_string "12a").
  { cbn. intros Hin. repeat (apply elem_of_cons in Hin; destruct Hin as [Hin|Hin];
      [discriminate Hin|]). apply elem_of_nil in Hin. exact Hin. }
  split; [exact H|]. exact (getOffsetFromKey_last_segment "wal/x" "12a" H).
Defined.

Lemma dec_fixed_no_slash (k : nat) (n : Z) (acc : string) :
  "/"%char ∉ list_ascii_of_string acc ->
  "/"%char ∉ list_ascii_of_string (dec_fixed k n acc).
Proof.
  revert n acc. induction k as [|k IH]; intros n acc Hacc; [exact Hacc|].
  cbn [dec_fixed]. apply IH. cbn [list_ascii_of_string].
  apply not_elem_of_cons. split; [|exact Hacc].
  intros E. pose proof (digit_char_not_slash (n mod 10) ltac:(apply Z.mod_pos_bound; lia)) as Hd.
  rewrite <- E in Hd. rewrite Ascii.eqb_refl in Hd. discriminate Hd.
Qed.

Lemma ParseUint_digit_overflow (s0 s : string) (d v : Z) :
  0 <= d < 10 -> 0 <= v <= U64.max -> U64.max < v * 10 + d ->
  ParseUint_digits s0 (String (digit_char d) s) v = Err (ErrParseUint ErrRange s0).
Proof.
  intros Hd Hv Hmax. cbn [ParseUint_digits].
  rewrite digit_char_code by exact Hd.
  unfold cutoff, U64.add, U64.wrap, U64.max, U64.modulus in *.
  change (2 ^ 64) with 18446744073709551616 in *.
  change ((18446744073709551616 - 1) / 10 + 1) with 1844674407370955162.
  destruct (Z.leb_spec 48 (48 + d)); [|lia].
  destruct (Z.leb_spec (48 + d) 57); [|lia]. cbn [andb].
  destruct (Z.leb_spec 1844674407370955162 v); [reflexivity|].
  replace (48 + d - 48) with d by lia.
  rewrite (Z.mod_small (v * 10)) by lia.
  replace ((v * 10 + d) mod 18446744073709551616) with (v * 10 + d - 18446744073709551616)
    by (apply Z.mod_unique with (q := 1); lia).
  destruct (Z.ltb_spec (v * 10 + d - 18446744073709551616) (v * 10)); [reflexivity|lia].
Qed.

(** Digits whose value is past 2^64-1 are a range error, wherever the
    overflow shows. *)
Lemma ParseUint_digits_dec_fixed_overflow (s0 : string) (k : nat) (n : Z) (acc : string) (m : Z) :
  0 <= n < 10 ^ Z.of_nat k -> 0 <= m <= U64.max -> U64.max < m * 10 ^ Z.of_nat k + n ->
  ParseUint_digits s0 (dec_fixed k n acc) m = Err (ErrParseUint ErrRange s0).
Proof.
  revert n acc. induction k as [|k IH]; intros n acc Hn Hm Hmax.
  - change (10 ^ Z.of_nat 0) with 1 in *. lia.
  - rewrite Nat2Z.inj_succ, Z.pow_succ_r in * by lia.
    set (P := 10 ^ Z.of_nat k) in *.
    assert (HP : 0 < P) by (apply Z.pow_pos_nonneg; lia).
    pose proof (Z.div_mod n 10 ltac:(lia)) as Hdm.
    pose proof (Z.mod_pos_bound n 10 ltac:(lia)) as Hmod.
    assert (Hq : 0 <= n / 10 < P).
    { split; [apply Z.div_pos; lia|]. apply Z.div_lt_upper_bound; lia. }
    cbn [dec_fixed].
    destruct (Z.le_gt_cases (m * P + n / 10) U64.max) as [Hle|Hgt].
    + rewrite ParseUint_digits_dec_fixed; [|exact Hq|lia|exact Hle].
      apply ParseUint_digit_overflow; [exact Hmod|nia|nia].
    + apply IH; [exact Hq|exact Hm|lia].
Qed.

Lemma ParseUint_nonempty (s : string) :
  s <> ""%string -> ParseUint s = ParseUint_digits s s 0.
Proof. destruct s; [congruence|reflexivity]. Qed.

(** X6. The digits after the last slash are read for their value, not
    their width: for any prefix and any number [k >= 1] of decimal digits,
    the key made of the [k]-digit form of [n] decodes to [n] when [n] is at
    most 2^64-1, and is refused with a range error otherwise. So keys
    padded to another width than 20 decode to the same offsets. *)
Theorem getOffsetFromKey_any_width (p : string) (k : nat) (n : Z) :
  (1 <= k)%nat -> 0 <= n < 10 ^ Z.of_nat k ->
  getOffsetFromKey (p +:+ "/" +:+ dec_fixed k n "") =
  if n <=? U64.max then Ok n
  else Err (ErrParseUint ErrRange (dec_fixed k n "")).
Proof.
  intros Hk Hn.
  rewrite getOffsetFromKey_segment by (apply dec_fixed_no_slash; cbn; apply not_elem_of_nil).
  pose proof (dec_fixed_length k n "") as Hlen. cbn [String.length] in Hlen.
  assert (Hne : dec_fixed k n "" <> ""%string).
  { intros E. rewrite E in Hlen. cbn in Hlen. lia. }
  destruct (dec_fixed k n "") as [|x s] eqn:E; [congruence|].
  rewrite <- E in *. rewrite ParseUint_nonempty by exact Hne.
  destruct (Z.leb_spec n U64.max) as [Hle|Hgt].
  - rewrite ParseUint_digits_dec_fixed; [|exact Hn|lia|lia].
    cbn [ParseUint_digits]. f_equal; lia.
  - apply ParseUint_digits_dec_fixed_overflow; [exact Hn|unfold U64.max, U64.modulus; lia|lia].
Qed.

Lemma getOffsetFromKey_any_width_witness :
  (1 <= 3)%nat /\ 0 <= 7 < 10 ^ Z.of_nat 3 /\
  getOffsetFromKey ("wal" +:+ "/" +:+ dec_fixed 3 7 "") =
  if 7 <=? U64.max then Ok 7
  else Err (ErrParseUint ErrRange (dec_fixed 3 7 "")).
Proof.
  assert (H1 : (1 <= 3)%nat) by lia.
  assert (H2 : 0 <= 7 < 10 ^ Z.of_nat 3) by (cbn; lia).
  split; [exact H1|]. split; [exact H2|].
  exact (getOffsetFromKey_any_width "wal" 3 7 H1 H2).
Defined.

(** ** The prefix of a new log *)

Lemma TrimLeft_slash_cons (a : ascii) (s : string) :
  TrimLeft_slash (String a s) = if Ascii.eqb a "/" then TrimLeft_slash s else String a s.
Proof. destruct a as [[] [] [] [] [] [] [] []]; reflexivity. Qed.

Lemma slashes_S (k : nat) : slashes (S k) = String "/" (slashes k).
Proof. reflexivity. Qed.

Lemma slashes_snoc (k : nat) : slashes k +:+ "/" = String "/" (slashes k).
Proof.
  induction k as [|k IH]; [reflexivity|].
  rewrite slashes_S, append_cons, IH. reflexivity.
Qed.

Lemma TrimLeft_slash_spec (s : string) :
  (exists i, s = slashes i +:+ TrimLeft_slash s) /\
  forall t, TrimLeft_slash s <> String "/" t.
Proof.
  induction s as [|a s [[i Hi] Hn]].
  - split; [exists O; reflexivity|discriminate].
  - rewrite TrimLeft_slash_cons. destruct (Ascii.eqb_spec a "/") as [->|Hne].
    + split; [|exact Hn]. exists (S i). rewrite slashes_S, append_cons. f_equal. exact Hi.
    + split; [exists O; reflexivity|]. intros t E. inversion E. contradiction.
Qed.

Lemma TrimLeft_slash_id (s : string) :
  (forall t, s <> String "/" t) -> TrimLeft_slash s = s.
Proof.
  intros H. destruct s as [|a s]; [reflexivity|].
  rewrite TrimLeft_slash_cons. destruct (Ascii.eqb_spec a "/") as [->|_]; [|reflexivity].
  exfalso. exact (H s eq_refl).
Qed.

Lemma append_empty_r (s : string) : s +:+ "" = s.
Proof. induction s as [|a s IH]; [reflexivity|]. rewrite append_cons, IH. reflexivity. Qed.

Lemma rev_app_append (s acc : string) : String.rev_app s acc = String.rev s +:+ acc.
Proof.
  unfold String.rev. revert acc. induction s as [|a s IH]; intros acc; [reflexivity|].
  cbn [String.rev_app]. rewrite IH, (IH (String a "")), append_assoc. reflexivity.
Qed.

Lemma rev_cons (a : ascii) (s : string) : String.rev (String a s) = String.rev s +:+ String a "".
Proof. unfold String.rev at 1. cbn [String.rev_app]. apply rev_app_append. Qed.

Lemma rev_append (a b : string) : String.rev (a +:+ b) = String.rev b +:+ String.rev a.
Proof.
  induction a as [|x a IH].
  - rewrite append_nil. cbn. rewrite append_empty_r. reflexivity.
  - rewrite append_cons, !rev_cons, IH, append_assoc. reflexivity.
Qed.

Lemma rev_involutive (s : string) : String.rev (String.rev s) = s.
Proof.
  induction s as [|a s IH]; [reflexivity|].
  rewrite rev_cons, rev_append, IH. reflexivity.
Qed.

Lemma rev_slashes (k : nat) : String.rev (slashes k) = slashes k.
Proof.
  induction k as [|k IH]; [reflexivity|].
  rewrite slashes_S, rev_cons, IH. apply slashes_snoc.
Qed.

(** X7. [NewS3WAL] starts with an empty cache and a normalized prefix:
    the prefix it keeps is the given one without its leading and trailing
    slashes, it neither starts nor ends with a slash, and normalizing it
    again changes nothing. *)
Theorem NewS3WAL_normalized (prefix0 : string) :
  let w := NewS3WAL prefix0 in
  S3WAL.length w = 0 /\
  (exists i j, prefix0 = slashes i +:+ S3WAL.prefix w +:+ slashes j) /\
  (forall s, S3WAL.prefix w <> String "/" s) /\
  (forall s, S3WAL.prefix w <> s +:+ "/") /\
  NewS3WAL (S3WAL.prefix w) = w.
Proof.
  cbv zeta. unfold NewS3WAL. cbn [S3WAL.prefix S3WAL.length]. unfold Trim_slash.
  destruct (TrimLeft_slash_spec prefix0) as [[i Hi] Hu].
  set (u := TrimLeft_slash prefix0) in *.
  destruct (TrimLeft_slash_spec (String.rev u)) as [[j Hj] Hv].
  set (v := TrimLeft_slash (String.rev u)) in *.
  assert (Hu' : u = String.rev v +:+ slashes j).
  { rewrite <- (rev_involutive u), Hj, rev_append, rev_slashes. reflexivity. }
  assert (Hlead : forall s, String.rev v <> String "/" s).
  { intros s E. apply (Hu (s +:+ slashes j)). rewrite Hu', E. reflexivity. }
  assert (Htrail : forall s, String.rev v <> s +:+ "/").
  { intros s E. apply (Hv (String.rev s)).
    rewrite <- (rev_involutive v), E, rev_append. reflexivity. }
  split; [reflexivity|]. split; [|split; [exact Hlead|split; [exact Htrail|]]].
  - exists i, j. rewrite Hi at 1. rewrite Hu'. reflexivity.
  - f_equal. rewrite (TrimLeft_slash_id (String.rev v)) by exact Hlead.
    rewrite rev_involutive, (TrimLeft_slash_id v) by exact Hv. reflexivity.
Qed.


(** ** Deleting in batches *)

Lemma batchDelete_state (c : S3) (keys : list string) :
  let c' := snd (batchDelete c keys) in
  locked c' = locked c /\ MaxKeys c' = MaxKeys c /\
  forall k, objects c' !! k = objects c !! k \/
            (objects c' !! k = None /\ k ∈ keys /\ k ∉ locked c).
Proof.
  cbv zeta. unfold batchDelete. destruct keys as [|x keys].
  { repeat split. intros k. left. reflexivity. }
  remember (x :: keys) as ks eqn:Hks. clear Hks.
  unfold DeleteObjects, next_fault.
  assert (H : forall k,
    delete_unlocked (locked c) ks (objects c) !! k = objects c !! k \/
    (delete_unlocked (locked c) ks (objects c) !! k = None /\ k ∈ ks /\ k ∉ locked c)).
  { intros k. rewrite delete_unlocked_lookup.
    destruct (decide (k ∈ ks /\ k ∉ locked c)) as [[H1 H2]|_]; [right|left]; auto. }
  destruct (hd Served (faults c)); cbn [locked objects];
    try (repeat split; first [exact H | intros k; left; reflexivity]).
  destruct ((fun k => (k, "AccessDenied"%string)) <$> filter (fun k => k ∈ locked c) ks);
    cbn [snd set_objects locked MaxKeys objects]; repeat split; exact H.
Qed.

(** X8. What the results of [batchDelete] tell the caller. With no keys it
    sends no request. Whatever it returns, the objects outside the batch
    are untouched and an object of the batch is as before or gone. When
    it returns no error every key of the batch is gone; when it returns
    the error that gathers the per-key errors, at least one key is named
    and every key of the batch that the error does not name is gone.
    After the error of the call itself nothing more is known: the batch
    may have been deleted or not. *)
Theorem batchDelete_sound (c : S3) (keys : list string)
    (r : result Error unit) (c' : S3) :
  batchDelete c keys = (r, c') ->
  (keys = [] -> r = Ok tt /\ c' = c) /\
  (forall k, k ∉ keys -> objects c' !! k = objects c !! k) /\
  (forall k, objects c' !! k = objects c !! k \/ objects c' !! k = None) /\
  (r = Ok tt -> forall k, k ∈ keys -> objects c' !! k = None) /\
  (forall parts, r = Err (ErrDeleteObjectsErrors parts) ->
     parts <> [] /\
     forall k, k ∈ keys -> k ∉ parts.*1 -> objects c' !! k = None).
Proof.
  intros HB.
  pose proof (batchDelete_state c keys) as Hst. rewrite HB in Hst. cbn [snd] in Hst.
  destruct Hst as (_ & _ & Hst).
  split; [intros ->; inversion HB; split; reflexivity|].
  split; [intros k Hk; destruct (Hst k) as [E|(_ & Hin & _)]; [exact E|contradiction]|].
  split; [intros k; destruct (Hst k) as [E|(E & _)]; [left|right]; exact E|].
  revert HB. unfold batchDelete. destruct keys as [|x keys].
  { intros E. inversion E. split; [intros _ k Hk|intros parts Hp; discriminate Hp].
    apply elem_of_nil in Hk. destruct Hk. }
  remember (x :: keys) as ks eqn:Hks. clear Hks Hst.
  unfold DeleteObjects, next_fault. cbn [locked objects].
  remember (filter (fun k => k ∈ locked c) ks) as refused eqn:Hrefused.
  assert (Hgone : forall k, k ∈ ks -> k ∉ refused ->
            delete_unlocked (locked c) ks (objects c) !! k = None).
  { intros k Hk Hr. rewrite delete_unlocked_lookup.
    destruct (decide (k ∈ ks /\ k ∉ locked c)) as [_|Hn]; [reflexivity|].
    exfalso. apply Hn. split; [exact Hk|]. intros Hl. apply Hr.
    rewrite Hrefused. apply list_elem_of_filter. split; assumption. }
  clear Hrefused.
  destruct (hd Served (faults c)); cbn [locked objects].
  - destruct refused as [|y refused']; cbn [fmap list_fmap]; intros E;
      inversion E; subst; cbn [set_objects objects].
    + split; [|intros parts Hp; discriminate Hp].
      intros _ k Hk. apply Hgone; [exact Hk|]. intros H. apply elem_of_nil in H. exact H.
    + split; [discriminate|]. intros parts Hp. inversion Hp. subst parts.
      split; [discriminate|]. intros k Hk Hnot. apply Hgone; [exact Hk|].
      intros Hin. apply Hnot.
      change (k ∈ ((fun k0 : string => (k0, "AccessDenied"%string)) <$> (y :: refused')).*1).
      rewrite <- list_fmap_compose. apply list_elem_of_fmap. exists k. split; [reflexivity|exact Hin].
  - intros E. inversion E. split; [discriminate|]. intros parts Hp. discriminate Hp.
  - intros E. inversion E. split; [discriminate|]. intros parts Hp. discriminate Hp.
Qed.

Lemma batchDelete_sound_witness :
  let c := snd Sample.held in
  let keys := keys_under "wal/" (objects c) in
  let r := Err (ErrDeleteObjectsErrors [("wal/00000000000000000002", "AccessDenied")]%string) in
  let c' := snd (batchDelete c keys) in
  batchDelete c keys = (r, c') /\
  (keys = [] -> r = Ok tt /\ c' = c) /\
  (forall k, k ∉ keys -> objects c' !! k = objects c !! k) /\
  (forall k, objects c' !! k = objects c !! k \/ objects c' !! k = None) /\
  (r = Ok tt -> forall k, k ∈ keys -> objects c' !! k = None) /\
  (forall parts, r = Err (ErrDeleteObjectsErrors parts) ->
     parts <> [] /\
     forall k, k ∈ keys -> k ∉ parts.*1 -> objects c' !! k = None).
Proof.
  assert (H : batchDelete (snd Sample.held) (keys_under "wal/" (objects (snd Sample.held))) =
              (Err (ErrDeleteObjectsErrors
                      [("wal/00000000000000000002", "AccessDenied")]%string),
               snd (batchDelete (snd Sample.held)
                      (keys_under "wal/" (objects (snd Sample.held))))))
    by (vm_compute; reflexivity).
  split; [exact H|].
  exact (batchDelete_sound (snd Sample.held) _ _ _ H).
Defined.

(** ** What [Truncate] never does *)

Lemma truncating_pruned (a : Z) (c : S3) (done acc : list string) (c1 : S3) :
  truncating a c done acc c1 -> pruned a c done c1.
Proof.
  intros (Hl & Hm & deleted & Hobj & Hmem). split; [exact Hl|]. split; [exact Hm|].
  intros k. rewrite Hobj. destruct (decide (k ∈ deleted)) as [Hd|_]; [right|left; reflexivity].
  split; [reflexivity|]. apply Hmem. left. exact Hd.
Qed.

Lemma pruned_more (a : Z) (c : S3) (ks ks' : list string) (c1 : S3) :
  (forall k, k ∈ ks -> k ∈ ks') -> pruned a c ks c1 -> pruned a c ks' c1.
Proof.
  intros Hsub (Hl & Hm & H). split; [exact Hl|]. split; [exact Hm|].
  intros k. destruct (H k) as [E|(E & Hin & Hb)]; [left; exact E|right; auto].
Qed.

Lemma truncating_batchDelete (a : Z) (c : S3) (done acc : list string) (c1 : S3) :
  truncating a c done acc c1 -> pruned a c done (snd (batchDelete c1 acc)).
Proof.
  intros HT. pose proof (truncating_pruned _ _ _ _ _ HT) as (Hl & Hm & Hp).
  destruct HT as (_ & _ & deleted & Hobj & Hmem).
  destruct (batchDelete_state c1 acc) as (Hl2 & Hm2 & H2).
  split; [congruence|]. split; [congruence|].
  intros k. destruct (H2 k) as [E|(E & Hin & _)].
  - rewrite E. apply Hp.
  - right. split; [exact E|]. apply Hmem. right. exact Hin.
Qed.

Lemma truncate_page_pruned (a : Z) (c : S3) (page : list string) :
  forall (done acc : list string) (c1 : S3),
    truncating a c done acc c1 ->
    pruned a c (done ++ page) (snd (truncate_page a acc (key_object <$> page) c1)).
Proof.
  induction page as [|k page IH]; intros done acc c1 HT.
  - cbn. rewrite app_nil_r. apply truncating_pruned in HT. exact HT.
  - cbn [fmap list_fmap truncate_page key_object Key]. fold (fmap key_object page).
    replace (done ++ k :: page) with ((done ++ [k]) ++ page)
      by (rewrite <- app_assoc; reflexivity).
    destruct (getOffsetFromKey k) as [o|e] eqn:Hd.
    2:{ apply IH. apply truncating_skip; [|exact HT]. eapply beyond_malformed, Hd. }
    pose proof (beyond_decoded a k o Hd) as Hb.
    set (acc1 := if a <? o then acc ++ [k] else acc).
    assert (HT1 : truncating a c (done ++ [k]) acc1 c1).
    { unfold acc1. destruct (a <? o).
      - apply truncating_keep; assumption.
      - apply truncating_skip; assumption. }
    destruct (length acc1 =? batch_limit)%nat.
    + pose proof (truncating_batchDelete _ _ _ _ _ HT1) as HP.
      destruct (batchDelete c1 acc1) as [[u|e] c2] eqn:HB; cbn [snd] in HP.
      * apply IH. eapply truncating_flush; eassumption.
      * cbn [snd]. eapply pruned_more; [|exact HP].
        intros k' Hk'. apply elem_of_app. left. exact Hk'.
    + apply IH. exact HT1.
Qed.

Lemma Truncate_pruned (w : S3WAL) (k : Z) (c : S3)
    (r : result Error unit) (w' : S3WAL) (c' : S3) :
  Truncate w k c = Some (r, w', c') ->
  pruned k c (keys_under (S3WAL.prefix w +:+ "/") (objects c)) c' /\
  (forall e, r = Err e -> w' = w) /\ (r = Ok tt -> w' = set_length w k).
Proof.
  intros HT. set (prefix0 := S3WAL.prefix w +:+ "/").
  destruct (forPages_run ErrListTruncate (truncate_page k) prefix0
              (keys_under prefix0 (objects c)) (MaxKeys c)
              (fun _ done acc c1 => truncating k c done acc c1)
              (fun _ c1 => pruned k c (keys_under prefix0 (objects c)) c1)
              (keys_under_nonempty _ _))
    with (fuel := page_fuel prefix0 c) (p := NewListObjectsV2Paginator prefix0)
         (i := O) (done := @nil string) (rest := keys_under prefix0 (objects c))
         (acc := @nil string) (c := c)
    as (r1 & c1 & Hrun & Hr).
  - intros i done rest acc c1 HT1 Hsplit. split; [apply HT1|].
    eapply truncating_listing; eassumption.
  - intros i done rest acc c1 msg HT1 Hsplit _ _.
    apply truncating_pruned in HT1. eapply pruned_more; [|exact HT1].
    intros k' Hk'. rewrite Hsplit. apply elem_of_app. left. exact Hk'.
  - intros i done page rest acc c1 HT1 Hsplit _ _ _.
    assert (HT2 : truncating k c done acc (snd (next_fault c1))).
    { destruct HT1 as (Hl & Hm & deleted & Hobj & Hmem).
      split; [exact Hl|]. split; [exact Hm|]. exists deleted. split; assumption. }
    pose proof (truncate_page_truncating k c page done acc _ HT2) as H1.
    pose proof (truncate_page_pruned k c page done acc _ HT2) as H2.
    destruct (truncate_page k acc (key_object <$> page) (snd (next_fault c1)))
      as [[acc'|e] c2]; [exact H1|].
    cbn [snd] in H2. eapply pruned_more; [|exact H2].
    intros k' Hk'. rewrite Hsplit, app_assoc. apply elem_of_app. left. exact Hk'.
  - reflexivity.
  - split; [reflexivity| |]; cbn [firstPage NewListObjectsV2Paginator].
    + intros _. repeat split.
    + discriminate.
  - split; [reflexivity|]. split; [reflexivity|]. exists []. split.
    + intros k'. destruct (decide (k' ∈ [])) as [H|_]; [|reflexivity].
      apply elem_of_nil in H. destruct H.
    + intros k'. split; [intros [H|H]|intros [H _]]; apply elem_of_nil in H; destruct H.
  - intros _. unfold page_fuel. lia.
  - revert HT. unfold Truncate. cbv zeta. fold prefix0. rewrite Hrun.
    destruct r1 as [acc|e].
    2:{ intros E. inversion E. subst. split; [exact Hr|]. split; [reflexivity|discriminate]. }
    destruct Hr as (_ & _ & HT1).
    destruct (0 <? length acc)%nat.
    + pose proof (truncating_batchDelete _ _ _ _ _ HT1) as HP.
      destruct (batchDelete c1 acc) as [[u|e] c2]; cbn [snd] in HP;
        intros E; inversion E; subst; (split; [exact HP|]).
      * split; [discriminate|]. intros _.
        destruct (Z.eqb_spec k 0) as [->|_]; reflexivity.
      * split; [reflexivity|discriminate].
    + intros E. inversion E. subst. split; [apply truncating_pruned in HT1; exact HT1|].
      split; [discriminate|]. intros _. destruct (Z.eqb_spec k 0) as [->|_]; reflexivity.
Qed.

(** X9. Whatever [Truncate(k)] returns, it has touched nothing it should
    keep: every object of the store is either as before or gone, and the
    ones gone lie under the prefix and have a key that decodes to an offset
    beyond [k]. When it returns an error the cached length is unchanged,
    though part of the deletions may be done. *)
Theorem Truncate_keeps (w : S3WAL) (k : Z) (c : S3)
    (r : result Error unit) (w' : S3WAL) (c' : S3) :
  Truncate w k c = Some (r, w', c') ->
  (forall key,
     objects c' !! key = objects c !! key \/
     (objects c' !! key = None /\ is_Some (objects c !! key) /\
      String.prefix (S3WAL.prefix w +:+ "/") key = true /\ beyond k key = true)) /\
  locked c' = locked c /\ MaxKeys c' = MaxKeys c /\
  (forall e, r = Err e -> w' = w) /\
  (r = Ok tt -> w' = set_length w k).
Proof.
  intros HT.
  destruct (Truncate_pruned w k c r w' c' HT) as ((Hl & Hm & Hp) & Herr & Hok).
  split; [|repeat split; assumption].
  intros key. destruct (Hp key) as [E|(E & Hin & Hb)]; [left; exact E|].
  right. apply keys_under_elem in Hin. destruct Hin as [Hs Hpre].
  split; [exact E|]. split; [exact Hs|]. split; assumption.
Qed.

Lemma Truncate_keeps_witness :
  let w := fst Sample.held in
  let c := snd Sample.held in
  let r := Err (ErrDeleteObjectsErrors [("wal/00000000000000000002", "AccessDenied")]%string) in
  let w' := fst (Sample.truncate 0 Sample.held) in
  let c' := snd (Sample.truncate 0 Sample.held) in
  Truncate w 0 c = Some (r, w', c') /\
  (forall key,
     objects c' !! key = objects c !! key \/
     (objects c' !! key = None /\ is_Some (objects c !! key) /\
      String.prefix (S3WAL.prefix w +:+ "/") key = true /\ beyond 0 key = true)) /\
  locked c' = locked c /\ MaxKeys c' = MaxKeys c /\
  (forall e, r = Err e -> w' = w) /\
  (r = Ok tt -> w' = set_length w 0).
Proof.
  assert (H : Truncate (fst Sample.held) 0 (snd Sample.held) =
              Some (Err (ErrDeleteObjectsErrors
                           [("wal/00000000000000000002", "AccessDenied")]%string),
                    fst (Sample.truncate 0 Sample.held),
                    snd (Sample.truncate 0 Sample.held)))
    by (vm_compute; reflexivity).
  split; [exact H|].
  exact (Truncate_keeps (fst Sample.held) 0 (snd Sample.held) _ _ _ H).
Defined.


(** ** When [Truncate] succeeds *)

Lemma all_served_next (c : S3) :
  all_served c -> hd Served (faults c) = Served /\ all_served (snd (next_fault c)).
Proof.
  unfold all_served, next_fault. cbn [snd faults].
  destruct (faults c) as [|f fs]; intros H.
  - split; [reflexivity|constructor].
  - inversion H; subst. split; [reflexivity|assumption].
Qed.

Lemma batchDelete_served (c1 : S3) (keys : list string) :
  all_served c1 -> (forall k, k ∈ keys -> k ∉ locked c1) ->
  exists c2, batchDelete c1 keys = (Ok tt, c2) /\ all_served c2 /\ locked c2 = locked c1.
Proof.
  intros HS Hfree. unfold batchDelete. destruct keys as [|x keys].
  { exists c1. repeat split; assumption. }
  remember (x :: keys) as ks eqn:Hks. clear Hks.
  destruct (all_served_next c1 HS) as [Hh HS'].
  unfold DeleteObjects. unfold next_fault in *. rewrite Hh. cbn [locked objects snd] in *.
  rewrite (filter_none (fun k => k ∈ locked c1) ks).
  - cbn [fmap list_fmap]. eexists. split; [reflexivity|]. split; [exact HS'|reflexivity].
  - apply Forall_forall. exact Hfree.
Qed.

Lemma truncate_page_served (a : Z) (page : list string) :
  forall (acc : list string) (c1 : S3),
    all_served c1 ->
    (forall k, k ∈ acc -> k ∉ locked c1) ->
    (forall k, k ∈ page -> beyond a k = true -> k ∉ locked c1) ->
    exists acc' c2,
      truncate_page a acc (key_object <$> page) c1 = (Ok acc', c2) /\
      all_served c2 /\ locked c2 = locked c1 /\ (forall k, k ∈ acc' -> k ∉ locked c2).
Proof.
  induction page as [|k page IH]; intros acc c1 HS Hacc Hpage.
  - exists acc, c1. repeat split; assumption.
  - cbn [fmap list_fmap truncate_page key_object Key]. fold (fmap key_object page).
    assert (Hrest : forall k', k' ∈ page -> beyond a k' = true -> k' ∉ locked c1).
    { intros k' Hk'. apply Hpage. right. exact Hk'. }
    destruct (getOffsetFromKey k) as [o|e] eqn:Hd; [|apply IH; assumption].
    pose proof (beyond_decoded a k o Hd) as Hb.
    set (acc1 := if a <? o then acc ++ [k] else acc).
    assert (Hacc1 : forall k', k' ∈ acc1 -> k' ∉ locked c1).
    { unfold acc1. destruct (a <? o) eqn:Hlt; [|exact Hacc].
      intros k' Hk'. apply elem_of_app in Hk'. destruct Hk' as [Hk'|Hk']; [auto|].
      apply list_elem_of_singleton in Hk'. subst k'. apply Hpage; [left|exact Hb]. }
    destruct (length acc1 =? batch_limit)%nat; [|apply IH; assumption].
    destruct (batchDelete_served c1 acc1 HS Hacc1) as (c2 & -> & HS2 & Hl2).
    destruct (IH [] c2 HS2) as (acc' & c3 & Hrun & HS3 & Hl3 & Hacc3).
    + intros k' Hk'. apply elem_of_nil in Hk'. destruct Hk'.
    + rewrite Hl2. exact Hrest.
    + exists acc', c3. split; [exact Hrun|]. split; [exact HS3|]. split; [congruence|exact Hacc3].
Qed.

Lemma Truncate_served (w : S3WAL) (k : Z) (c : S3) :
  all_served c ->
  (forall key, key ∈ locked c -> is_Some (objects c !! key) ->
               String.prefix (S3WAL.prefix w +:+ "/") key = true -> beyond k key = false) ->
  exists c', Truncate w k c = Some (Ok tt, set_length w k, c') /\ all_served c'.
Proof.
  intros HS Hfree. set (prefix0 := S3WAL.prefix w +:+ "/").
  set (ks := keys_under prefix0 (objects c)).
  assert (Hks : forall key, key ∈ ks -> beyond k key = true -> key ∉ locked c).
  { intros key Hin Hb Hl. apply keys_under_elem in Hin. destruct Hin as [Hs Hp].
    rewrite (Hfree key Hl Hs Hp) in Hb. discriminate. }
  destruct (forPages_run ErrListTruncate (truncate_page k) prefix0 ks (MaxKeys c)
              (fun _ done acc c1 =>
                 truncating k c done acc c1 /\ all_served c1 /\
                 (forall key, key ∈ acc -> key ∉ locked c1))
              (fun _ _ => False) (keys_under_nonempty _ _))
    with (fuel := page_fuel prefix0 c) (p := NewListObjectsV2Paginator prefix0)
         (i := O) (done := @nil string) (rest := ks) (acc := @nil string) (c := c)
    as (r1 & c1 & Hrun & Hr).
  - intros i done rest acc c1 (HT1 & _) Hsplit. split; [apply HT1|].
    eapply truncating_listing; eassumption.
  - intros i done rest acc c1 msg (_ & HS1 & _) _ _ Hh.
    apply all_served_next in HS1. destruct HS1 as [HS1 _].
    rewrite HS1 in Hh. destruct Hh; discriminate.
  - intros i done page rest acc c1 (HT1 & HS1 & Hacc) Hsplit _ _ _.
    apply all_served_next in HS1. destruct HS1 as [_ HS1].
    assert (HT2 : truncating k c done acc (snd (next_fault c1))).
    { destruct HT1 as (Hl & Hm & deleted & Hobj & Hmem).
      split; [exact Hl|]. split; [exact Hm|]. exists deleted. split; assumption. }
    assert (Hl1 : locked (snd (next_fault c1)) = locked c) by apply HT1.
    pose proof (truncate_page_truncating k c page done acc _ HT2) as H1.
    destruct (truncate_page_served k page acc (snd (next_fault c1)) HS1)
      as (acc' & c2 & Hpg & HS2 & Hl2 & Hacc2).
    + exact Hacc.
    + intros key Hin Hb. rewrite Hl1. apply Hks; [|exact Hb].
      unfold ks in Hsplit |- *. rewrite Hsplit, !elem_of_app. auto.
    + rewrite Hpg in H1 |- *. split; [exact H1|]. split; [exact HS2|exact Hacc2].
  - reflexivity.
  - split; [reflexivity| |]; cbn [firstPage NewListObjectsV2Paginator].
    + intros _. repeat split.
    + discriminate.
  - split; [|split; [exact HS|]].
    + split; [reflexivity|]. split; [reflexivity|]. exists []. split.
      * intros k'. destruct (decide (k' ∈ [])) as [H|_]; [|reflexivity].
        apply elem_of_nil in H. destruct H.
      * intros k'. split; [intros [H|H]|intros [H _]]; apply elem_of_nil in H; destruct H.
    + intros key H. apply elem_of_nil in H. destruct H.
  - intros _. unfold page_fuel. fold ks. lia.
  - destruct r1 as [acc|e]; [|destruct Hr].
    destruct Hr as (_ & _ & HT1 & HS1 & Hacc).
    destruct (batchDelete_served c1 acc HS1 Hacc) as (c2 & HB & HS2 & _).
    assert (Hfin : exists c3,
              (if (0 <? length acc)%nat then batchDelete c1 acc else (Ok tt, c1)) = (Ok tt, c3) /\
              all_served c3).
    { destruct (0 <? length acc)%nat.
      - exists c2. split; [exact HB|exact HS2].
      - exists c1. split; [reflexivity|exact HS1]. }
    destruct Hfin as (c3 & Hfin & HS3).
    exists c3. split; [|exact HS3].
    unfold Truncate. cbv zeta. fold prefix0. rewrite Hrun, Hfin.
    destruct (Z.eqb_spec k 0) as [->|_]; reflexivity.
Qed.

(** X10. When every request is served and the store holds no object under
    the prefix that is both locked against deletion and beyond [k],
    [Truncate(k)] returns no error, caches [k] as the length and leaves
    the store without exactly the objects under the prefix whose key
    decodes to an offset beyond [k], whatever the page size and however
    many batches it takes. *)
Theorem Truncate_succeeds (w : S3WAL) (k : Z) (c : S3) :
  all_served c ->
  (forall key, key ∈ locked c -> is_Some (objects c !! key) ->
               String.prefix (S3WAL.prefix w +:+ "/") key = true -> beyond k key = false) ->
  exists c', Truncate w k c = Some (Ok tt, set_length w k, c') /\
             all_served c' /\ locked c' = locked c /\ MaxKeys c' = MaxKeys c /\
             forall key, objects c' !! key =
               if decide (String.prefix (S3WAL.prefix w +:+ "/") key = true /\
                          beyond k key = true)
               then None else objects c !! key.
Proof.
  intros HS Hfree.
  destruct (Truncate_served w k c HS Hfree) as (c' & HT & HS').
  destruct (Truncate_run w k c) as (r2 & w2 & c2 & Hrun & Hr).
  rewrite HT in Hrun. inversion Hrun. subst r2 w2 c2. clear Hrun.
  destruct Hr as (_ & Hl & Hm & Hobj).
  exists c'. split; [exact HT|]. split; [exact HS'|]. split; [exact Hl|].
  split; [exact Hm|]. exact Hobj.
Qed.

Lemma Truncate_succeeds_witness :
  let w := fst Sample.held in
  let c := snd Sample.held in
  all_served c /\
  (forall key, key ∈ locked c -> is_Some (objects c !! key) ->
               String.prefix (S3WAL.prefix w +:+ "/") key = true -> beyond 2 key = false) /\
  exists c', Truncate w 2 c = Some (Ok tt, set_length w 2, c') /\
             all_served c' /\ locked c' = locked c /\ MaxKeys c' = MaxKeys c /\
             forall key, objects c' !! key =
               if decide (String.prefix (S3WAL.prefix w +:+ "/") key = true /\
                          beyond 2 key = true)
               then None else objects c !! key.
Proof.
  assert (H1 : all_served (snd Sample.held)) by constructor.
  assert (H2 : forall key, key ∈ locked (snd Sample.held) ->
                 is_Some (objects (snd Sample.held) !! key) ->
                 String.prefix (S3WAL.prefix (fst Sample.held) +:+ "/") key = true ->
                 beyond 2 key = false).
  { intros key Hl _ _.
    change (key ∈ ({["wal/00000000000000000002"%string]} : gset string)) in Hl.
    apply elem_of_singleton in Hl. subst key. vm_compute. reflexivity. }
  split; [exact H1|]. split; [exact H2|].
  exact (Truncate_succeeds (fst Sample.held) 2 (snd Sample.held) H1 H2).
Defined.


(** ** The log as a list of records *)

Lemma holds_same (w : S3WAL) (c c' : S3) (ds : list (list byte)) :
  objects c' = objects c -> holds w c ds -> holds w c' ds.
Proof.
  intros Ho (Hlen & Hc & Hobj). split; [exact Hlen|].
  split; [eapply contiguous_same; eassumption|]. rewrite Ho. exact Hobj.
Qed.

Lemma holds_bound (w : S3WAL) (c : S3) (ds : list (list byte)) :
  holds w c ds -> Z.of_nat (length ds) <= U64.max.
Proof. intros (Hlen & [Hn _] & _). lia. Qed.

Lemma holds_lookup (w : S3WAL) (c : S3) (ds : list (list byte)) (i : Z) :
  holds w c ds -> U64.In i ->
  objects c !! getObjectKey w i =
  match record_at ds i with
  | Some d => Some (be_bytes 8 i ++ d ++ SHA256.Sum256 (be_bytes 8 i ++ d))
  | None => None
  end.
Proof.
  intros (Hlen & Hc & Hobj) Hi. unfold record_at.
  destruct (Z.leb_spec i 0) as [H0|H0].
  { assert (i = 0) by (unfold U64.In in Hi; lia). subst i. apply contiguous_no_zero, Hc. }
  destruct (ds !! Z.to_nat (i - 1)) as [d|] eqn:Hd.
  - destruct (Hobj _ _ Hd) as (body & Hb & Hs).
    replace (Z.of_nat (S (Z.to_nat (i - 1)))) with i in Hb, Hs by lia.
    rewrite prepareBody_eq in Hb. inversion Hb. subst body. exact Hs.
  - apply lookup_ge_None in Hd.
    destruct (objects c !! getObjectKey w i) as [b|] eqn:Hb; [|reflexivity]. exfalso.
    destruct Hc as [Hn Hk].
    assert (Hin : getObjectKey w i ∈ keys_under (S3WAL.prefix w +:+ "/") (objects c)).
    { apply keys_under_elem. split; [exists b; exact Hb|apply getObjectKey_prefix]. }
    apply Hk in Hin. destruct Hin as (j & Hj & E).
    apply getObjectKey_inj in E; [lia|exact Hi|].
    unfold U64.In, U64.max in *. lia.
Qed.

Lemma all_served_listing (p : string) (c : S3) :
  all_served c -> listing_served p c /\ all_served (after_listing p c).
Proof.
  unfold all_served, listing_served, after_listing. cbn [faults]. intros H.
  split; [apply Forall_take|apply Forall_drop]; exact H.
Qed.

Lemma all_served_hd (c : S3) : all_served c -> hd Served (faults c) = Served.
Proof.
  unfold all_served. destruct (faults c) as [|f fs]; intros H; [reflexivity|].
  inversion H; subst. reflexivity.
Qed.

Lemma set_length_same (w : S3WAL) : set_length w (S3WAL.length w) = w.
Proof. destruct w. reflexivity. Qed.

Lemma set_length_twice (w : S3WAL) (a b : Z) : set_length (set_length w a) b = set_length w b.
Proof. reflexivity. Qed.

Lemma keys_upto_last (w : S3WAL) (n : nat) :
  last (keys_upto w (Z.of_nat n)) =
  if Nat.eqb n 0 then None else Some (getObjectKey w (Z.of_nat n)).
Proof.
  destruct n as [|n]; [reflexivity|].
  unfold keys_upto. rewrite seqZ_S, fmap_app, last_app. cbn. do 3 f_equal. lia.
Qed.

Lemma three_holds :
  holds (fst Sample.three) (snd Sample.three) [Sample.rec1; Sample.rec2; Sample.rec3].
Proof.
  split; [reflexivity|]. split.
  - split; [vm_compute; split; discriminate|]. intros k.
    rewrite <- keys_upto_elem. vm_compute keys_under. vm_compute keys_upto. reflexivity.
  - intros [|[|[|i]]] d Hd; inversion Hd; subst d; eexists;
      (split; [apply prepareBody_eq|]); vm_compute; reflexivity.
Qed.

Lemma holds_put (w : S3WAL) (c c' : S3) (ds : list (list byte)) (data : list byte) :
  holds w c ds -> Z.of_nat (length ds) < U64.max ->
  objects c' =
    <[getObjectKey w (Z.of_nat (length ds) + 1) :=
        be_bytes 8 (Z.of_nat (length ds) + 1) ++ data ++
        SHA256.Sum256 (be_bytes 8 (Z.of_nat (length ds) + 1) ++ data)]> (objects c) ->
  holds (set_length w (Z.of_nat (length ds) + 1)) c' (ds ++ [data]).
Proof.
  intros (Hlen & Hc & Hobj) Hlt Ho.
  split; [|split].
  - cbn. rewrite length_app. cbn. lia.
  - apply (proj1 (contiguous_here w c)) in Hc. rewrite Hlen in Hc.
    eapply contiguous_put; [exact Hc|left; reflexivity|lia|exact Ho].
  - intros i d Hd.
    change (getObjectKey (set_length w (Z.of_nat (length ds) + 1))) with (getObjectKey w).
    rewrite Ho. apply lookup_app_Some in Hd.
    destruct Hc as [Hn _].
    destruct Hd as [Hd|[Hge Hd]].
    + destruct (Hobj i d Hd) as (body & Hb & Hlk). exists body. split; [exact Hb|].
      rewrite lookup_insert_ne; [exact Hlk|].
      apply lookup_lt_Some in Hd. intros E.
      apply getObjectKey_inj in E; unfold U64.In, U64.max in *; lia.
    + apply list_lookup_singleton_Some in Hd. destruct Hd as [Hi ->].
      assert (i = length ds) by lia. subst i.
      eexists. split; [apply prepareBody_eq|].
      replace (Z.of_nat (S (length ds))) with (Z.of_nat (length ds) + 1) by lia.
      apply lookup_insert_eq.
Qed.

Lemma holds_Append (w : S3WAL) (c : S3) (ds : list (list byte)) (data : list byte) :
  holds w c ds -> Z.of_nat (length ds) < U64.max ->
  hd Served (faults c) = Served ->
  exists c',
    Append w data c =
      (Ok (Z.of_nat (length ds) + 1), set_length w (Z.of_nat (length ds) + 1), c') /\
    holds (set_length w (Z.of_nat (length ds) + 1)) c' (ds ++ [data]) /\
    locked c' = locked c /\ faults c' = tl (faults c).
Proof.
  intros Hh Hlt Hs. pose proof Hh as (Hlen & Hc & Hobj).
  destruct (Append w data c) as [[r w'] c'] eqn:HA.
  apply Append_inv in HA. cbv zeta in HA.
  assert (Hnext : U64.add (S3WAL.length w) 1 = Z.of_nat (length ds) + 1).
  { unfold U64.add, U64.wrap, U64.max in *. rewrite Hlen. apply Z.mod_small. lia. }
  rewrite Hnext in HA.
  destruct HA as [(u & HP & -> & ->)|(e & HP & _)].
  2:{ apply PutObject_Err in HP. destruct HP as [HP _]. contradiction. }
  apply PutObject_Ok in HP. destruct HP as (_ & Ho & Hl & _ & Hf).
  exists c'. split; [reflexivity|]. split; [|split; assumption].
  eapply holds_put; eassumption.
Qed.

(** X11. On a log that holds the records [ds], fewer than 2^64-1 of
    them, an [Append] whose request is served returns the offset
    [length ds + 1] and leaves a log that holds [ds] followed by the new
    record. One whose request is refused returns an error and leaves a
    log that still holds [ds]. One whose request is interrupted returns
    an error and keeps the cached length, but the record is stored: the
    store is that of the log of [ds] followed by the new record, which a
    handle with the cache one higher would hold. *)
Theorem Append_snoc (w : S3WAL) (c : S3) (ds : list (list byte)) (data : list byte) :
  holds w c ds -> Z.of_nat (length ds) < U64.max ->
  exists r w' c',
    Append w data c = (r, w', c') /\
    match hd Served (faults c) with
    | Served => r = Ok (Z.of_nat (length ds) + 1) /\ holds w' c' (ds ++ [data])
    | Refused _ => (exists e, r = Err e) /\ holds w' c' ds
    | Interrupted _ =>
        (exists e, r = Err e) /\ w' = w /\
        holds (set_length w (Z.of_nat (length ds) + 1)) c' (ds ++ [data])
    end.
Proof.
  intros Hh Hlt.
  destruct (hd Served (faults c)) as [|msg|msg] eqn:Hs.
  { destruct (holds_Append w c ds data Hh Hlt Hs) as (c' & HA & Hh' & _).
    eexists _, _, c'. split; [exact HA|]. split; [reflexivity|exact Hh']. }
  all: destruct (Append w data c) as [[r w'] c'] eqn:HA; exists r, w', c';
    (split; [reflexivity|]); apply Append_inv in HA; cbv zeta in HA;
    destruct HA as [(u & HP & _)|(e & HP & -> & ->)];
    [apply PutObject_Ok in HP; destruct HP as [HP _]; congruence|];
    apply PutObject_Err in HP;
    destruct HP as (_ & (msg' & _ & [[Hf Ho]|[Hf Ho]]) & _); try congruence;
    (split; [eexists; reflexivity|]).
  - eapply holds_same; eassumption.
  - split; [reflexivity|].
    assert (Hnext : U64.add (S3WAL.length w) 1 = Z.of_nat (length ds) + 1).
    { destruct Hh as (Hlen & _). unfold U64.add, U64.wrap, U64.max in *.
      rewrite Hlen. apply Z.mod_small. lia. }
    rewrite Hnext in Ho. eapply holds_put; eassumption.
Qed.

Lemma Append_snoc_witness :
  let w := fst Sample.three in
  let c := {| objects := objects (snd Sample.three); locked := ∅; MaxKeys := 2;
              faults := [Interrupted "timeout"] |} in
  let ds := [Sample.rec1; Sample.rec2; Sample.rec3] in
  holds w c ds /\ Z.of_nat (length ds) < U64.max /\
  exists r w' c',
    Append w Sample.rec1 c = (r, w', c') /\
    match hd Served (faults c) with
    | Served => r = Ok (Z.of_nat (length ds) + 1) /\ holds w' c' (ds ++ [Sample.rec1])
    | Refused _ => (exists e, r = Err e) /\ holds w' c' ds
    | Interrupted _ =>
        (exists e, r = Err e) /\ w' = w /\
        holds (set_length w (Z.of_nat (length ds) + 1)) c' (ds ++ [Sample.rec1])
    end.
Proof.
  assert (H : holds (fst Sample.three)
                {| objects := objects (snd Sample.three); locked := ∅; MaxKeys := 2;
                   faults := [Interrupted "timeout"%string] |}
                [Sample.rec1; Sample.rec2; Sample.rec3]).
  { eapply holds_same; [|exact three_holds]. reflexivity. }
  assert (Hlt : Z.of_nat (length [Sample.rec1; Sample.rec2; Sample.rec3]) < U64.max)
    by (vm_compute; reflexivity).
  split; [exact H|]. split; [exact Hlt|].
  exact (Append_snoc (fst Sample.three) _ _ Sample.rec1 H Hlt).
Defined.

(** X12. On a log that holds the records [ds], a served [Read] of an
    offset between 1 and [length ds] returns that offset with the record
    at that place of [ds]; of any other offset, 0 included, it reports
    that there is no such key. The log holds [ds] afterwards. *)
Theorem Read_lookup (w : S3WAL) (c : S3) (ds : list (list byte)) (offset : Z) :
  holds w c ds -> U64.In offset -> hd Served (faults c) = Served ->
  fst (Read w offset c) =
    match record_at ds offset with
    | Some d => Ok {| Offset := offset; Data := d |}
    | None => Err (ErrGetObject (getObjectKey w offset) NoSuchKey)
    end /\
  holds w (snd (Read w offset c)) ds.
Proof.
  intros Hh Hi Hs. split.
  - rewrite (Read_served w offset c Hs), (holds_lookup w c ds offset Hh Hi).
    destruct (record_at ds offset) as [d|]; [|reflexivity].
    apply parseRecord_framed. exact Hi.
  - eapply holds_same; [|exact Hh]. apply Read_state.
Qed.

Lemma Read_lookup_witness :
  let w := fst Sample.three in
  let c := snd Sample.three in
  let ds := [Sample.rec1; Sample.rec2; Sample.rec3] in
  holds w c ds /\ U64.In 2 /\ hd Served (faults c) = Served /\
  fst (Read w 2 c) =
    match record_at ds 2 with
    | Some d => Ok {| Offset := 2; Data := d |}
    | None => Err (ErrGetObject (getObjectKey w 2) NoSuchKey)
    end /\
  holds w (snd (Read w 2 c)) ds.
Proof.
  pose proof three_holds as H.
  assert (Hi : U64.In 2) by (vm_compute; split; [discriminate|reflexivity]).
  assert (Hs : hd Served (faults (snd Sample.three)) = Served) by reflexivity.
  split; [exact H|]. split; [exact Hi|]. split; [exact Hs|].
  exact (Read_lookup (fst Sample.three) (snd Sample.three) _ 2 H Hi Hs).
Defined.

Lemma holds_LastRecord (w : S3WAL) (c : S3) (ds : list (list byte)) (stale : Z) :
  holds w c ds -> all_served c ->
  exists c',
    LastRecord (set_length w stale) c =
      Some (match last ds with
            | Some d => Ok {| Offset := Z.of_nat (length ds); Data := d |}
            | None => Err ErrEmpty
            end, w, c') /\
    holds w c' ds /\ all_served c' /\ locked c' = locked c.
Proof.
  intros Hh HS. pose proof Hh as (Hlen & Hc & Hobj).
  pose proof (holds_bound _ _ _ Hh) as Hmax.
  set (w0 := set_length w stale).
  destruct (all_served_listing (S3WAL.prefix w0 +:+ "/") c HS) as [Hls HS1].
  destruct (LastRecord_run w0 c) as (r & w' & c' & Hrun & Ho & Hl & _ & Hcase).
  destruct Hcase as [(Hno & _)|(_ & Hcase)]; [contradiction|].
  cbv zeta in Hcase. change (S3WAL.prefix w0) with (S3WAL.prefix w) in Hcase, HS1.
  rewrite (contiguous_keys w c Hc), Hlen, keys_upto_last in Hcase.
  assert (Hw : set_length w (Z.of_nat (length ds)) = w)
    by (rewrite <- Hlen; apply set_length_same).
  destruct (Nat.eqb_spec (length ds) 0) as [Hz|Hn].
  - apply nil_length_inv in Hz. subst ds. destruct Hcase as (-> & -> & ->).
    exists (after_listing (S3WAL.prefix w +:+ "/") c). rewrite Hrun.
    unfold w0. rewrite set_length_twice. change 0 with (Z.of_nat (length (@nil (list byte)))).
    rewrite Hw. split; [reflexivity|]. split; [|split; [exact HS1|reflexivity]].
    eapply holds_same; [|exact Hh]. reflexivity.
  - assert (Hin : U64.In (Z.of_nat (length ds))) by (unfold U64.In, U64.max in *; lia).
    change (getObjectKey w0) with (getObjectKey w) in Hcase.
    rewrite (getOffsetFromKey_getObjectKey w _ Hin) in Hcase.
    destruct Hcase as [-> HR]. unfold w0 in HR. rewrite set_length_twice, Hw in HR.
    set (c1 := after_listing (S3WAL.prefix w +:+ "/") c) in *.
    assert (Hh1 : holds w c1 ds) by (eapply holds_same; [|exact Hh]; reflexivity).
    assert (Hrec : record_at ds (Z.of_nat (length ds)) = last ds).
    { unfold record_at. destruct (Z.leb_spec (Z.of_nat (length ds)) 0); [lia|].
      rewrite last_lookup. f_equal. lia. }
    assert (Hsome : is_Some (last ds)).
    { rewrite last_lookup. apply lookup_lt_is_Some. lia. }
    destruct Hsome as [d Hd].
    pose proof (Read_served w (Z.of_nat (length ds)) c1 (all_served_hd c1 HS1)) as HRd.
    rewrite (holds_lookup w c1 ds _ Hh1 Hin), Hrec, Hd in HRd.
    rewrite parseRecord_framed in HRd by exact Hin.
    rewrite <- HR in HRd. cbn [fst] in HRd. subst r.
    exists c'. rewrite Hrun. unfold w0. rewrite set_length_twice, Hw, Hd.
    split; [reflexivity|]. split; [eapply holds_same; eassumption|].
    split; [|exact Hl].
    assert (Hc' : c' = snd (Read w (Z.of_nat (length ds)) c1)) by (rewrite <- HR; reflexivity).
    unfold all_served. rewrite Hc'.
    destruct (Read_state w (Z.of_nat (length ds)) c1) as (_ & _ & _ & ->).
    unfold all_served in HS1. destruct (faults c1); [constructor|].
    inversion HS1; assumption.
Qed.

(** X13. On a log that holds the records [ds], with every request
    served, [LastRecord] returns the last record of [ds] with the offset
    [length ds], or the error of an empty log when [ds] is empty, whatever
    stale length the handle had cached; the handle then caches
    [length ds]. *)
Theorem LastRecord_last (w : S3WAL) (c : S3) (ds : list (list byte)) (stale : Z) :
  holds w c ds -> all_served c ->
  exists c',
    LastRecord (set_length w stale) c =
      Some (match last ds with
            | Some d => Ok {| Offset := Z.of_nat (length ds); Data := d |}
            | None => Err ErrEmpty
            end, w, c') /\
    holds w c' ds /\ all_served c'.
Proof.
  intros Hh HS.
  destruct (holds_LastRecord w c ds stale Hh HS) as (c' & HL & Hh' & HS' & _).
  exists c'. split; [exact HL|]. split; [exact Hh'|exact HS'].
Qed.

Lemma LastRecord_last_witness :
  let w := fst Sample.three in
  let c := snd Sample.three in
  let ds := [Sample.rec1; Sample.rec2; Sample.rec3] in
  holds w c ds /\ all_served c /\
  exists c',
    LastRecord (set_length w 0) c =
      Some (match last ds with
            | Some d => Ok {| Offset := Z.of_nat (length ds); Data := d |}
            | None => Err ErrEmpty
            end, w, c') /\
    holds w c' ds /\ all_served c'.
Proof.
  pose proof three_holds as H.
  assert (HS : all_served (snd Sample.three)) by constructor.
  split; [exact H|]. split; [exact HS|].
  exact (LastRecord_last (fst Sample.three) (snd Sample.three) _ 0 H HS).
Defined.

Lemma holds_Recover (w : S3WAL) (c : S3) (ds : list (list byte)) (stale : Z) :
  holds w c ds -> all_served c ->
  exists c',
    Recover (set_length w stale) c = Some (Ok (Z.of_nat (length ds)), w, c') /\
    holds w c' ds /\ all_served c' /\ locked c' = locked c.
Proof.
  intros Hh HS. pose proof Hh as (Hlen & Hc & Hobj).
  pose proof (holds_bound _ _ _ Hh) as Hmax.
  set (w0 := set_length w stale).
  destruct (all_served_listing (S3WAL.prefix w0 +:+ "/") c HS) as [Hls HS1].
  destruct (Recover_run w0 c) as (r & w' & c' & Hrun & Ho & _ & _ & Hcase).
  destruct (Recover_bounds w0 c) as (r2 & w2 & c2 & Hrun2 & _ & Hb).
  rewrite Hrun in Hrun2. inversion Hrun2. subst r2 w2 c2. clear Hrun2.
  destruct r as [m|e]; [|destruct Hcase as [Hno _]; contradiction].
  destruct Hcase as (_ & _ & _ & ->). destruct Hb as (_ & -> & Hm0 & Hub & Hatt).
  cbv zeta in Hub, Hatt. change (S3WAL.prefix w0) with (S3WAL.prefix w) in *.
  destruct Hc as [Hn Hk].
  assert (Hdec : forall i, 1 <= i <= S3WAL.length w ->
                           getOffsetFromKey (getObjectKey w i) = Ok i).
  { intros i Hi. apply getOffsetFromKey_getObjectKey. unfold U64.In, U64.max in *. lia. }
  assert (Hge : S3WAL.length w <= m).
  { destruct (Z.eq_dec (S3WAL.length w) 0) as [E|E]; [lia|].
    eapply (Hub (getObjectKey w (S3WAL.length w))).
    - apply Hk. exists (S3WAL.length w). split; [lia|reflexivity].
    - apply Hdec. lia. }
  assert (Hm : m = Z.of_nat (length ds)).
  { rewrite <- Hlen. destruct Hatt as [->|(k & Hin & Hd)]; [lia|].
    apply Hk in Hin. destruct Hin as (i & Hi & ->).
    rewrite (Hdec i Hi) in Hd. inversion Hd. lia. }
  exists (after_listing (S3WAL.prefix w +:+ "/") c). rewrite Hrun, Hm.
  unfold w0. rewrite set_length_twice, <- Hlen, set_length_same.
  split; [reflexivity|]. split; [|split; [exact HS1|reflexivity]].
  eapply holds_same; [|exact Hh]. reflexivity.
Qed.

(** X14. On a log that holds the records [ds], with every request
    served, [Recover] returns [length ds] and caches it, whatever stale
    length the handle had cached: a new handle on the same prefix is
    brought to the state of the one that wrote the log. *)
Theorem Recover_length (w : S3WAL) (c : S3) (ds : list (list byte)) (stale : Z) :
  holds w c ds -> all_served c ->
  exists c',
    Recover (set_length w stale) c = Some (Ok (Z.of_nat (length ds)), w, c') /\
    holds w c' ds /\ all_served c'.
Proof.
  intros Hh HS.
  destruct (holds_Recover w c ds stale Hh HS) as (c' & HR & Hh' & HS' & _).
  exists c'. split; [exact HR|]. split; [exact Hh'|exact HS'].
Qed.

Lemma Recover_length_witness :
  let w := fst Sample.three in
  let c := snd Sample.three in
  let ds := [Sample.rec1; Sample.rec2; Sample.rec3] in
  holds w c ds /\ all_served c /\
  exists c',
    Recover (set_length w 0) c = Some (Ok (Z.of_nat (length ds)), w, c') /\
    holds w c' ds /\ all_served c'.
Proof.
  pose proof three_holds as H.
  assert (HS : all_served (snd Sample.three)) by constructor.
  split; [exact H|]. split; [exact HS|].
  exact (Recover_length (fst Sample.three) (snd Sample.three) _ 0 H HS).
Defined.

Lemma holds_Truncate (w : S3WAL) (c : S3) (ds : list (list byte)) (k : Z) :
  holds w c ds -> 0 <= k <= Z.of_nat (length ds) -> all_served c ->
  (forall key, key ∈ locked c -> String.prefix (S3WAL.prefix w +:+ "/") key = false) ->
  exists c',
    Truncate w k c = Some (Ok tt, set_length w k, c') /\
    holds (set_length w k) c' (take (Z.to_nat k) ds) /\ all_served c' /\
    locked c' = locked c.
Proof.
  intros Hh Hk HS Hfree. pose proof Hh as (Hlen & Hc & Hobj).
  pose proof (holds_bound _ _ _ Hh) as Hmax.
  destruct (Truncate_served w k c HS) as (c' & HT & HS').
  { intros key Hl _ Hp. rewrite (Hfree key Hl) in Hp. discriminate. }
  exists c'. split; [exact HT|].
  assert (Hc' : contiguous (set_length w k) c').
  { eapply contiguous_Truncate; [|exact Hc|exact HT]. lia. }
  destruct (Truncate_run w k c) as (r2 & w2 & c2 & Hrun & Hr).
  rewrite HT in Hrun. inversion Hrun. subst r2 w2 c2. clear Hrun.
  destruct Hr as (_ & Hlk & _ & Ho).
  split; [|split; [exact HS'|exact Hlk]].
  split; [|split; [exact Hc'|]].
  - cbn. rewrite length_take. lia.
  - intros i d Hd. apply lookup_take_Some in Hd. destruct Hd as [Hd Hi].
    destruct (Hobj i d Hd) as (body & Hb & Hl). exists body. split; [exact Hb|].
    change (getObjectKey (set_length w k)) with (getObjectKey w).
    rewrite Ho. apply lookup_lt_Some in Hd.
    assert (Hin : U64.In (Z.of_nat (S i))) by (unfold U64.In, U64.max in *; lia).
    rewrite (beyond_decoded k _ _ (getOffsetFromKey_getObjectKey w _ Hin)).
    destruct (decide _) as [[_ Hlt]|_]; [|exact Hl].
    apply Z.ltb_lt in Hlt. lia.
Qed.

(** X15. On a log that holds the records [ds], with every request served
    and no key under the prefix locked against deletion, [Truncate(k)]
    with [k] at most [length ds] returns no error and leaves a log that
    holds the first [k] records of [ds]. *)
Theorem Truncate_take (w : S3WAL) (c : S3) (ds : list (list byte)) (k : Z) :
  holds w c ds -> 0 <= k <= Z.of_nat (length ds) -> all_served c ->
  (forall key, key ∈ locked c -> String.prefix (S3WAL.prefix w +:+ "/") key = false) ->
  exists w' c',
    Truncate w k c = Some (Ok tt, w', c') /\
    holds w' c' (take (Z.to_nat k) ds) /\ all_served c'.
Proof.
  intros Hh Hk HS Hfree.
  destruct (holds_Truncate w c ds k Hh Hk HS Hfree) as (c' & HT & Hh' & HS' & _).
  exists (set_length w k), c'. split; [exact HT|]. split; [exact Hh'|exact HS'].
Qed.

Lemma Truncate_take_witness :
  let w := fst Sample.three in
  let c := snd Sample.three in
  let ds := [Sample.rec1; Sample.rec2; Sample.rec3] in
  holds w c ds /\ 0 <= 1 <= Z.of_nat (length ds) /\ all_served c /\
  (forall key, key ∈ locked c -> String.prefix (S3WAL.prefix w +:+ "/") key = false) /\
  exists w' c',
    Truncate w 1 c = Some (Ok tt, w', c') /\
    holds w' c' (take (Z.to_nat 1) ds) /\ all_served c'.
Proof.
  pose proof three_holds as H.
  assert (HS : all_served (snd Sample.three)) by constructor.
  assert (Hk : 0 <= 1 <= Z.of_nat (length [Sample.rec1; Sample.rec2; Sample.rec3]))
    by (cbn; lia).
  assert (Hfree : forall key, key ∈ locked (snd Sample.three) ->
                    String.prefix (S3WAL.prefix (fst Sample.three) +:+ "/") key = false).
  { intros key Hl. change (key ∈ (∅ : gset string)) in Hl. apply elem_of_empty in Hl.
    destruct Hl. }
  split; [exact H|]. split; [exact Hk|]. split; [exact HS|]. split; [exact Hfree|].
  exact (Truncate_take (fst Sample.three) (snd Sample.three) _ 1 H Hk HS Hfree).
Defined.


(** ** Handles that share a store *)

Lemma keys_under_insert_present (p : string) (m : gmap string (list byte))
    (key : string) (b : list byte) :
  is_Some (m !! key) -> keys_under p (<[key := b]> m) = keys_under p m.
Proof.
  intros Hs. apply sorted_keys_unique.
  - apply keys_under_sorted.
  - apply keys_under_NoDup.
  - apply keys_under_sorted.
  - apply keys_under_NoDup.
  - intros k. rewrite !keys_under_elem, lookup_insert_is_Some.
    split; [intros [[<-|[_ H]] Hp]|intros [H Hp]]; try (split; assumption).
    split; [|exact Hp]. destruct (decide (key = k)) as [E|E]; [left; exact E|right; auto].
Qed.

(** X16. [Append] does not look at the store: from a handle whose cached
    length [stale] is behind a log that holds [ds], a served [Append]
    returns [stale + 1] without error and replaces the record already at
    that offset, so the log then holds [ds] with that one record
    exchanged. *)
Theorem Append_stale_overwrites (w : S3WAL) (c : S3) (ds : list (list byte))
    (stale : Z) (data : list byte) :
  holds w c ds -> 0 <= stale < Z.of_nat (length ds) ->
  hd Served (faults c) = Served ->
  exists c',
    Append (set_length w stale) data c = (Ok (stale + 1), set_length w (stale + 1), c') /\
    holds w c' (<[Z.to_nat stale := data]> ds).
Proof.
  intros Hh Hst Hs. pose proof Hh as (Hlen & Hc & Hobj).
  pose proof (holds_bound _ _ _ Hh) as Hmax.
  destruct (Append (set_length w stale) data c) as [[r w'] c'] eqn:HA.
  apply Append_inv in HA. cbv zeta in HA. cbn [set_length S3WAL.length] in HA.
  assert (Hnext : U64.add stale 1 = stale + 1).
  { unfold U64.add, U64.wrap, U64.max in *. apply Z.mod_small. lia. }
  rewrite Hnext in HA.
  change (getObjectKey (set_length w stale)) with (getObjectKey w) in HA.
  destruct HA as [(u & HP & -> & ->)|(e & HP & _)].
  2:{ apply PutObject_Err in HP. destruct HP as [HP _]. contradiction. }
  apply PutObject_Ok in HP. destruct HP as (_ & Ho & _).
  exists c'. split; [reflexivity|].
  assert (Hin : U64.In (stale + 1)) by (unfold U64.In, U64.max in *; lia).
  assert (Hold : is_Some (objects c !! getObjectKey w (stale + 1))).
  { destruct (lookup_lt_is_Some_2 ds (Z.to_nat stale)) as [d Hd]; [lia|].
    destruct (Hobj _ _ Hd) as (body & _ & Hl).
    replace (Z.of_nat (S (Z.to_nat stale))) with (stale + 1) in Hl by lia. eauto. }
  split; [rewrite length_insert; exact Hlen|]. split.
  - destruct Hc as [Hn Hk]. split; [exact Hn|].
    rewrite Ho, keys_under_insert_present by exact Hold. exact Hk.
  - intros i d Hd. rewrite Ho.
    destruct (decide (i = Z.to_nat stale)) as [->|Hne].
    + rewrite list_lookup_insert_eq in Hd by lia. inversion Hd. subst d.
      replace (Z.of_nat (S (Z.to_nat stale))) with (stale + 1) by lia.
      eexists. split; [apply prepareBody_eq|]. apply lookup_insert_eq.
    + rewrite list_lookup_insert_ne in Hd by congruence.
      destruct (Hobj i d Hd) as (body & Hb & Hl). exists body. split; [exact Hb|].
      rewrite lookup_insert_ne; [exact Hl|].
      apply lookup_lt_Some in Hd. intros E.
      apply getObjectKey_inj in E; unfold U64.In, U64.max in *; lia.
Qed.

Lemma Append_stale_overwrites_witness :
  let w := fst Sample.three in
  let c := snd Sample.three in
  let ds := [Sample.rec1; Sample.rec2; Sample.rec3] in
  holds w c ds /\ 0 <= 0 < Z.of_nat (length ds) /\
  hd Served (faults c) = Served /\
  exists c',
    Append (set_length w 0) Sample.rec3 c = (Ok (0 + 1), set_length w (0 + 1), c') /\
    holds w c' (<[Z.to_nat 0 := Sample.rec3]> ds).
Proof.
  pose proof three_holds as H.
  assert (Hst : 0 <= 0 < Z.of_nat (length [Sample.rec1; Sample.rec2; Sample.rec3]))
    by (cbn; lia).
  assert (Hs : hd Served (faults (snd Sample.three)) = Served) by reflexivity.
  split; [exact H|]. split; [exact Hst|]. split; [exact Hs|].
  exact (Append_stale_overwrites (fst Sample.three) (snd Sample.three) _ 0
           Sample.rec3 H Hst Hs).
Defined.

Lemma prefix_app_l (p a b : string) :
  String.prefix p a = true -> String.prefix p (a +:+ b) = true.
Proof.
  revert a. induction p as [|x p IH]; intros a H; [destruct (a +:+ b); reflexivity|].
  destruct a as [|y a]; [discriminate|]. rewrite append_cons. cbn in H |- *.
  destruct (ascii_dec x y); [apply IH; exact H|discriminate].
Qed.

(** X17. A log whose prefix lies under the prefix of another is not kept
    apart from it: every record of the inner log counts as a record of
    the outer one, since a key is decoded from its last segment alone.
    [Recover] on the outer log returns at least the offset of any inner
    record, and a [Truncate(k)] of the outer log that succeeds deletes
    every inner record beyond [k]. *)
Theorem nested_prefix_shared (w inner : S3WAL) (i : Z) (c : S3) :
  String.prefix (S3WAL.prefix w +:+ "/") (S3WAL.prefix inner) = true ->
  U64.In i -> is_Some (objects c !! getObjectKey inner i) ->
  (forall m w' c', Recover w c = Some (Ok m, w', c') -> i <= m) /\
  (forall k w' c', Truncate w k c = Some (Ok tt, w', c') -> k < i ->
                   objects c' !! getObjectKey inner i = None).
Proof.
  intros Hp Hi Hs.
  assert (Hpre : String.prefix (S3WAL.prefix w +:+ "/") (getObjectKey inner i) = true).
  { unfold getObjectKey. apply prefix_app_l. exact Hp. }
  pose proof (getOffsetFromKey_getObjectKey inner i Hi) as Hdec.
  split.
  - intros m w' c' HR.
    destruct (Recover_bounds w c) as (r2 & w2 & c2 & Hrun & _ & Hb).
    rewrite HR in Hrun. inversion Hrun. subst r2 w2 c2. clear Hrun.
    destruct Hb as (_ & _ & _ & Hub & _).
    apply (Hub (getObjectKey inner i)); [|exact Hdec].
    apply keys_under_elem. split; assumption.
  - intros k w' c' HT Hk.
    destruct (Truncate_run w k c) as (r2 & w2 & c2 & Hrun & Hr).
    rewrite HT in Hrun. inversion Hrun. subst r2 w2 c2. clear Hrun.
    destruct Hr as (_ & _ & _ & Ho). rewrite Ho.
    destruct (decide _) as [_|Hn]; [reflexivity|].
    exfalso. apply Hn. split; [exact Hpre|].
    rewrite (beyond_decoded k _ _ Hdec). apply Z.ltb_lt. exact Hk.
Qed.

Lemma nested_prefix_shared_witness :
  let w := Sample.wal in
  let inner := Sample.inner in
  let c := snd Sample.nested in
  String.prefix (S3WAL.prefix w +:+ "/") (S3WAL.prefix inner) = true /\
  U64.In 1 /\ is_Some (objects c !! getObjectKey inner 1) /\
  (forall m w' c', Recover w c = Some (Ok m, w', c') -> 1 <= m) /\
  (forall k w' c', Truncate w k c = Some (Ok tt, w', c') -> k < 1 ->
                   objects c' !! getObjectKey inner 1 = None).
Proof.
  assert (Hp : String.prefix (S3WAL.prefix Sample.wal +:+ "/")
                 (S3WAL.prefix Sample.inner) = true) by (vm_compute; reflexivity).
  assert (Hi : U64.In 1) by (vm_compute; split; [discriminate|reflexivity]).
  assert (Hs : is_Some (objects (snd Sample.nested) !! getObjectKey Sample.inner 1)).
  { vm_compute. eexists. reflexivity. }
  split; [exact Hp|]. split; [exact Hi|]. split; [exact Hs|].
  exact (nested_prefix_shared Sample.wal Sample.inner 1 (snd Sample.nested) Hp Hi Hs).
Defined.

(** X18. No call touches the rest of the store: after [Append], [Read],
    [LastRecord], [Recover] or [Truncate], whatever it returned, every key
    that does not start with the prefix of the log followed by a slash
    has the object it had, and the handle has the prefix it had. *)
Theorem run_frame (o : Op) (w : S3WAL) (c : S3) (w' : S3WAL) (c' : S3) :
  run o w c = Some (w', c') ->
  S3WAL.prefix w' = S3WAL.prefix w /\
  locked c' = locked c /\ MaxKeys c' = MaxKeys c /\
  forall key, String.prefix (S3WAL.prefix w +:+ "/") key = false ->
              objects c' !! key = objects c !! key.
Proof.
  intros Hrun. destruct o as [data|offset| | |k]; cbn [run] in Hrun.
  - destruct (Append w data c) as [[r w2] c2] eqn:HA. inversion Hrun. subst w2 c2.
    apply Append_inv in HA. cbv zeta in HA.
    destruct HA as [(u & HP & _ & ->)|(e & HP & _ & ->)].
    + apply PutObject_Ok in HP. destruct HP as (_ & Ho & Hl & Hm & _).
      split; [reflexivity|]. split; [exact Hl|]. split; [exact Hm|].
      intros key Hp. rewrite Ho. apply lookup_insert_ne. intros <-.
      rewrite getObjectKey_prefix in Hp. discriminate.
    + pose proof HP as HP'. apply PutObject_Err in HP. destruct HP as (_ & _ & Hl & Hm & _).
      split; [reflexivity|]. split; [exact Hl|]. split; [exact Hm|].
      intros key Hp. eapply PutObject_other; [exact HP'|]. intros ->.
      rewrite getObjectKey_prefix in Hp. discriminate.
  - inversion Hrun. subst w' c'. destruct (Read_state w offset c) as (Ho & Hl & Hm & _).
    split; [reflexivity|]. split; [exact Hl|]. split; [exact Hm|].
    intros key _. rewrite Ho. reflexivity.
  - destruct (LastRecord_run w c) as (r2 & w2 & c2 & HL & Ho & Hl & Hm & Hcase).
    rewrite HL in Hrun. inversion Hrun. subst w2 c2.
    split; [|split; [exact Hl|split; [exact Hm|intros key _; rewrite Ho; reflexivity]]].
    destruct Hcase as [(_ & -> & _)|(_ & Hcase)]; [reflexivity|]. cbv zeta in Hcase.
    destruct (last _) as [lk|]; [|destruct Hcase as (_ & -> & _); reflexivity].
    destruct (getOffsetFromKey lk); [destruct Hcase as [-> _]|destruct Hcase as (_ & -> & _)];
      reflexivity.
  - destruct (Recover_run w c) as (r2 & w2 & c2 & HR & Ho & Hl & Hm & Hcase).
    rewrite HR in Hrun. inversion Hrun. subst w2 c2.
    split; [|split; [exact Hl|split; [exact Hm|intros key _; rewrite Ho; reflexivity]]].
    destruct r2; [destruct Hcase as (_ & _ & -> & _)|destruct Hcase as (_ & -> & _)];
      reflexivity.
  - destruct (Truncate w k c) as [[[r w2] c2]|] eqn:HT; [|discriminate].
    inversion Hrun. subst w2 c2.
    destruct (Truncate_pruned w k c r w' c' HT) as ((Hl & Hm & Hp) & Herr & Hok).
    split; [|split; [exact Hl|split; [exact Hm|]]].
    + destruct r as [[]|e]; [rewrite Hok by reflexivity|rewrite (Herr e) by reflexivity];
        reflexivity.
    + intros key Hpre. destruct (Hp key) as [E|(_ & Hin & _)]; [exact E|].
      apply keys_under_elem in Hin. destruct Hin as [_ Hin]. congruence.
Qed.

Lemma run_frame_witness :
  let w := Sample.inner in
  let c := snd Sample.three in
  let w' := fst Sample.nested in
  let c' := snd Sample.nested in
  run (OpAppend Sample.rec1) w c = Some (w', c') /\
  S3WAL.prefix w' = S3WAL.prefix w /\
  locked c' = locked c /\ MaxKeys c' = MaxKeys c /\
  forall key, String.prefix (S3WAL.prefix w +:+ "/") key = false ->
              objects c' !! key = objects c !! key.
Proof.
  assert (H : run (OpAppend Sample.rec1) Sample.inner (snd Sample.three) =
              Some (fst Sample.nested, snd Sample.nested)) by reflexivity.
  split; [exact H|].
  exact (run_frame (OpAppend Sample.rec1) Sample.inner (snd Sample.three) _ _ H).
Defined.


(** ** Running the programs *)

Lemma bind_ok {A B : Type} (m : Prog.M A) (f : A -> Prog.M B) (s : Prog.state)
    (a : A) (s' : Prog.state) :
  m s = Some (Some a, s') -> (m ≫= f) s = f a s'.
Proof. intros H. unfold mbind, Prog.M_bind. rewrite H. reflexivity. Qed.

Lemma bind_fatal {A B : Type} (m : Prog.M A) (f : A -> Prog.M B) (s s' : Prog.state) :
  m s = Some (None, s') -> (m ≫= f) s = Some (None, s').
Proof. intros H. unfold mbind, Prog.M_bind. rewrite H. reflexivity. Qed.

Lemma run_printf (format : string) (args : list Prog.Arg) (s : Prog.state) :
  Prog.printf format args s =
  Some (Some tt, {| Prog.out := Prog.out s ++ [Prog.Print format args];
                    Prog.wal := Prog.wal s; Prog.client := Prog.client s |}).
Proof. reflexivity. Qed.

Lemma run_Append (o : list Prog.Line) (w : S3WAL) (c : S3) (data : list byte)
    (r : result Error Z) (w' : S3WAL) (c' : S3) :
  Append w data c = (r, w', c') ->
  Prog.wal_Append data {| Prog.out := o; Prog.wal := w; Prog.client := c |} =
  Some (Some r, {| Prog.out := o; Prog.wal := w'; Prog.client := c' |}).
Proof. intros H. unfold Prog.wal_Append. cbn [Prog.wal Prog.client]. rewrite H. reflexivity. Qed.

Lemma run_Read (o : list Prog.Line) (w : S3WAL) (c : S3) (offset : Z) :
  Prog.wal_Read offset {| Prog.out := o; Prog.wal := w; Prog.client := c |} =
  Some (Some (fst (Read w offset c)),
        {| Prog.out := o; Prog.wal := w; Prog.client := snd (Read w offset c) |}).
Proof.
  unfold Prog.wal_Read. cbn [Prog.wal Prog.client]. destruct (Read w offset c). reflexivity.
Qed.

Lemma run_LastRecord (o : list Prog.Line) (w : S3WAL) (c : S3)
    (r : result Error Record_) (w' : S3WAL) (c' : S3) :
  LastRecord w c = Some (r, w', c') ->
  Prog.wal_LastRecord {| Prog.out := o; Prog.wal := w; Prog.client := c |} =
  Some (Some r, {| Prog.out := o; Prog.wal := w'; Prog.client := c' |}).
Proof.
  intros H. unfold Prog.wal_LastRecord. cbn [Prog.wal Prog.client]. rewrite H. reflexivity.
Qed.

Lemma run_Recover (o : list Prog.Line) (w : S3WAL) (c : S3)
    (r : result Error Z) (w' : S3WAL) (c' : S3) :
  Recover w c = Some (r, w', c') ->
  Prog.wal_Recover {| Prog.out := o; Prog.wal := w; Prog.client := c |} =
  Some (Some r, {| Prog.out := o; Prog.wal := w'; Prog.client := c' |}).
Proof.
  intros H. unfold Prog.wal_Recover. cbn [Prog.wal Prog.client]. rewrite H. reflexivity.
Qed.

Lemma run_Truncate (o : list Prog.Line) (w : S3WAL) (c : S3) (k : Z)
    (r : result Error unit) (w' : S3WAL) (c' : S3) :
  Truncate w k c = Some (r, w', c') ->
  Prog.wal_Truncate k {| Prog.out := o; Prog.wal := w; Prog.client := c |} =
  Some (Some r, {| Prog.out := o; Prog.wal := w'; Prog.client := c' |}).
Proof.
  intros H. unfold Prog.wal_Truncate. cbn [Prog.wal Prog.client]. rewrite H. reflexivity.
Qed.

Tactic Notation "step" uconstr(H) :=
  rewrite (bind_ok _ _ _ _ _ H);
  cbn [Prog.out Prog.wal Prog.client Prog.value_or_zero Offset Data].

Ltac say :=
  first [ rewrite (bind_ok _ _ _ _ _ (run_printf _ _ _)) | rewrite run_printf ];
  cbn [Prog.out Prog.wal Prog.client].

Lemma all_served_tl (c c' : S3) : all_served c -> faults c' = tl (faults c) -> all_served c'.
Proof.
  unfold all_served. intros H ->. destruct (faults c); [exact H|]. inversion H; assumption.
Qed.

Lemma Recover_refused (w : S3WAL) (c : S3) (msg : string) :
  hd Served (faults c) = Refused msg \/ hd Served (faults c) = Interrupted msg ->
  Recover w c = Some (Err (ErrListRecover (RequestFailed msg)), w, snd (next_fault c)).
Proof.
  intros Hf. unfold Recover, page_fuel. cbv zeta. cbn [forPages].
  change (HasMorePages (NewListObjectsV2Paginator (S3WAL.prefix w +:+ "/"))) with true.
  cbv iota. unfold NextPage. cbn [pfx nextToken NewListObjectsV2Paginator].
  rewrite (ListObjectsV2_failed c _ None msg Hf). reflexivity.
Qed.

(** X20. Run on a log that holds the records [ds], with every request
    served, the program that appends one record prints the length of the
    log, appends its greeting at the next offset and prints it back as the
    last record; the log then holds [ds] followed by the greeting. *)
Theorem Hello_main_appends (prefix0 : string) (c : S3) (ds : list (list byte)) :
  let n := Z.of_nat (length ds) in
  let w := set_length (NewS3WAL prefix0) n in
  holds w c ds -> n < U64.max -> all_served c ->
  exists c',
    Hello.main prefix0 c =
      Some (Some tt,
            {| Prog.out :=
                 [Prog.Print "Last offset:" [Prog.ArgUint n];
                  Prog.Print "Appended record at offset:" [Prog.ArgUint (n + 1)];
                  Prog.Print "Last record: offset=%d, data=%s"
                    [Prog.ArgUint (n + 1); Prog.ArgBytes Hello.greeting]];
               Prog.wal := set_length w (n + 1);
               Prog.client := c' |}) /\
    holds (set_length w (n + 1)) c' (ds ++ [Hello.greeting]).
Proof.
  intros n w Hh Hlt HS.
  destruct (holds_Recover w c ds 0 Hh HS) as (c1 & HR & Hh1 & HS1 & _).
  destruct (holds_Append w c1 ds Hello.greeting Hh1 Hlt (all_served_hd _ HS1))
    as (c2 & HA & Hh2 & _ & Hf2).
  pose proof (all_served_tl _ _ HS1 Hf2) as HS2.
  destruct (holds_LastRecord _ c2 _ (n + 1) Hh2 HS2) as (c3 & HL & Hh3 & _).
  rewrite last_snoc in HL.
  exists c3. split; [|exact Hh3].
  unfold Hello.main, Hello.body, Prog.start.
  step (run_Recover [] _ _ _ _ _ HR). say.
  step (run_Append _ _ _ _ _ _ _ HA). say.
  step (run_LastRecord _ _ _ _ _ _ HL). say.
  rewrite length_app. cbn [length app].
  replace (Z.of_nat (length ds + 1)) with (n + 1) by (unfold n; lia). reflexivity.
Qed.

Lemma Hello_main_appends_witness :
  let ds := [Sample.rec1; Sample.rec2; Sample.rec3] in
  let c := snd Sample.three in
  let n := Z.of_nat (length ds) in
  let w := set_length (NewS3WAL "/wal/") n in
  holds w c ds /\ n < U64.max /\ all_served c /\
  exists c',
    Hello.main "/wal/" c =
      Some (Some tt,
            {| Prog.out :=
                 [Prog.Print "Last offset:" [Prog.ArgUint n];
                  Prog.Print "Appended record at offset:" [Prog.ArgUint (n + 1)];
                  Prog.Print "Last record: offset=%d, data=%s"
                    [Prog.ArgUint (n + 1); Prog.ArgBytes Hello.greeting]];
               Prog.wal := set_length w (n + 1);
               Prog.client := c' |}) /\
    holds (set_length w (n + 1)) c' (ds ++ [Hello.greeting]).
Proof.
  pose proof three_holds as H.
  assert (E : fst Sample.three = set_length (NewS3WAL "/wal/") 3) by (vm_compute; reflexivity).
  rewrite E in H.
  assert (Hlt : Z.of_nat (length [Sample.rec1; Sample.rec2; Sample.rec3]) < U64.max)
    by (vm_compute; reflexivity).
  assert (HS : all_served (snd Sample.three)) by constructor.
  split; [exact H|]. split; [exact Hlt|]. split; [exact HS|].
  exact (Hello_main_appends "/wal/" (snd Sample.three)
           [Sample.rec1; Sample.rec2; Sample.rec3] H Hlt HS).
Defined.

(** X21. The program that appends one record drops the error of
    [Recover]. When the listing of [Recover] fails and the next request
    is served, it prints 0 as the last offset and appends at offset 1
    without looking: whatever the store held under
    the key of offset 1 is replaced by the greeting, and nothing else
    changes. *)
Theorem Hello_main_recover_error_dropped (prefix0 : string) (c : S3) (msg : string) :
  hd Served (faults c) = Refused msg \/ hd Served (faults c) = Interrupted msg ->
  hd Served (tl (faults c)) = Served ->
  exists r s,
    Hello.main prefix0 c = Some (r, s) /\
    take 2 (Prog.out s) =
      [Prog.Print "Last offset:" [Prog.ArgUint 0];
       Prog.Print "Appended record at offset:" [Prog.ArgUint 1]] /\
    objects (Prog.client s) =
      <[getObjectKey (NewS3WAL prefix0) 1 :=
          be_bytes 8 1 ++ Hello.greeting ++ SHA256.Sum256 (be_bytes 8 1 ++ Hello.greeting)]>
        (objects c).
Proof.
  intros Hf Hs. set (w := NewS3WAL prefix0).
  pose proof (Recover_refused w c msg Hf) as HR.
  set (c1 := snd (next_fault c)) in *.
  destruct (Append w Hello.greeting c1) as [[r2 w2] c2] eqn:HA.
  pose proof HA as HA'. apply Append_inv in HA'. cbv zeta in HA'.
  change (U64.add (S3WAL.length w) 1) with 1 in HA'.
  destruct HA' as [(u & HP & -> & ->)|(e & HP & _)].
  2:{ apply PutObject_Err in HP. destruct HP as [HP _]. contradiction. }
  apply PutObject_Ok in HP. destruct HP as (_ & Ho & _).
  destruct (LastRecord_run (set_length w 1) c2) as (r3 & w3 & c3 & HL & Ho3 & _).
  unfold Hello.main, Hello.body, Prog.start. fold w.
  step (run_Recover [] _ _ _ _ _ HR). say.
  step (run_Append _ _ _ _ _ _ _ HA). say.
  rewrite (bind_ok _ _ _ _ _ (run_LastRecord _ _ _ _ _ _ HL)).
  destruct r3 as [rec|e]; eexists _, _; (split; [reflexivity|]);
    cbn [Prog.out Prog.client app take]; (split; [reflexivity|]);
    rewrite Ho3, Ho; reflexivity.
Qed.

Lemma Hello_main_recover_error_dropped_witness :
  let c := {| objects := objects (snd Sample.three); locked := ∅; MaxKeys := 2;
              faults := [Refused "SlowDown"]%string |} in
  (hd Served (faults c) = Refused "SlowDown"%string \/
   hd Served (faults c) = Interrupted "SlowDown"%string) /\
  hd Served (tl (faults c)) = Served /\
  exists r s,
    Hello.main "/wal/" c = Some (r, s) /\
    take 2 (Prog.out s) =
      [Prog.Print "Last offset:" [Prog.ArgUint 0];
       Prog.Print "Appended record at offset:" [Prog.ArgUint 1]] /\
    objects (Prog.client s) =
      <[getObjectKey (NewS3WAL "/wal/") 1 :=
          be_bytes 8 1 ++ Hello.greeting ++ SHA256.Sum256 (be_bytes 8 1 ++ Hello.greeting)]>
        (objects c).
Proof.
  split; [left; reflexivity|]. split; [reflexivity|].
  apply (Hello_main_recover_error_dropped "/wal/" _ "SlowDown"%string);
    [left; reflexivity|reflexivity].
Defined.


(** ** The command line *)

Lemma ParseUint_range (s : string) (o : Z) : ParseUint s = Ok o -> U64.In o.
Proof.
  unfold ParseUint. destruct s; [discriminate|].
  apply ParseUint_digits_range. unfold U64.In, U64.modulus. lia.
Qed.

Lemma Truncate_stale (w : S3WAL) (stale k : Z) (c : S3) (w' : S3WAL) (c' : S3) :
  Truncate w k c = Some (Ok tt, w', c') ->
  Truncate (set_length w stale) k c = Some (Ok tt, w', c').
Proof.
  unfold Truncate. cbv zeta. cbn [S3WAL.prefix set_length].
  destruct (forPages _ _ _ _ _ _) as [[[acc|e] c1]|]; [|discriminate|discriminate].
  destruct (if (0 <? length acc)%nat then batchDelete c1 acc else (Ok tt, c1)) as [[u|e] c2];
    [|discriminate].
  intros E. inversion E. reflexivity.
Qed.

Lemma Cmd_append_once (prefix0 arg1 : string) (c : S3) :
  hd Served (faults c) = Served ->
  exists c',
    Cmd.main prefix0 ["append"; arg1]%string c =
      Some (Some tt,
            {| Prog.out := [Prog.Print "Appended record at offset: %d, data: %s"
                              [Prog.ArgUint 1; Prog.ArgBytes (list_byte_of_string arg1)]];
               Prog.wal := set_length (NewS3WAL prefix0) 1;
               Prog.client := c' |}) /\
    objects c' =
      <[getObjectKey (NewS3WAL prefix0) 1 :=
          be_bytes 8 1 ++ list_byte_of_string arg1 ++
          SHA256.Sum256 (be_bytes 8 1 ++ list_byte_of_string arg1)]> (objects c) /\
    faults c' = tl (faults c).
Proof.
  intros Hs. set (w := NewS3WAL prefix0).
  destruct (Append w (list_byte_of_string arg1) c) as [[r w'] c'] eqn:HA.
  pose proof HA as HA'. apply Append_inv in HA'. cbv zeta in HA'.
  change (U64.add (S3WAL.length w) 1) with 1 in HA'.
  destruct HA' as [(u & HP & -> & ->)|(e & HP & _)].
  2:{ apply PutObject_Err in HP. destruct HP as [HP _]. contradiction. }
  apply PutObject_Ok in HP. destruct HP as (_ & Ho & _ & _ & Hf).
  exists c'. split; [|split; assumption].
  unfold Cmd.main, Prog.start. fold w.
  change (Cmd.body ["append"; arg1]%string) with
    (r ← Prog.wal_Append (list_byte_of_string arg1);
     match r with
     | Err e => Prog.fatalf "Append failed: %v" [Prog.ArgError e]
     | Ok offset =>
         Prog.printf "Appended record at offset: %d, data: %s"
           [Prog.ArgUint offset; Prog.ArgBytes (list_byte_of_string arg1)]
     end).
  step (run_Append [] _ _ _ _ _ _ HA). reflexivity.
Qed.

(** X22. The command line makes a new handle for every invocation and
    [append] does not recover it, so every [s3wal append] writes offset 1:
    invoked for one record after another, with every request served, each
    invocation reports offset 1 and the store ends with the last record
    under the key of offset 1, the others overwritten, and nothing else
    changed. *)
Theorem Cmd_appends_overwrite (prefix0 : string) (earlier : list string) (final : string)
    (c : S3) :
  all_served c ->
  exists c',
    Cmd.script prefix0 ((fun arg1 => ["append"; arg1]%string) <$> (earlier ++ [final])) c =
      Some ((fun arg1 =>
               [Prog.Print "Appended record at offset: %d, data: %s"
                  [Prog.ArgUint 1; Prog.ArgBytes (list_byte_of_string arg1)]])
              <$> (earlier ++ [final]), c') /\
    objects c' =
      <[getObjectKey (NewS3WAL prefix0) 1 :=
          be_bytes 8 1 ++ list_byte_of_string final ++
          SHA256.Sum256 (be_bytes 8 1 ++ list_byte_of_string final)]> (objects c).
Proof.
  revert c. induction earlier as [|x earlier IH]; intros c HS.
  - destruct (Cmd_append_once prefix0 final c (all_served_hd _ HS)) as (c1 & Hrun & Ho & _).
    exists c1. split; [|exact Ho].
    cbn [app fmap list_fmap Cmd.script]. rewrite Hrun. reflexivity.
  - destruct (Cmd_append_once prefix0 x c (all_served_hd _ HS)) as (c1 & Hrun & Ho & Hf).
    destruct (IH c1 (all_served_tl _ _ HS Hf)) as (c2 & Hrest & Ho2).
    exists c2. split.
    + change ((x :: earlier) ++ [final]) with (x :: (earlier ++ [final])).
      rewrite !fmap_cons. cbn [Cmd.script]. rewrite Hrun. cbn [Prog.client Prog.out].
      rewrite Hrest. reflexivity.
    + rewrite Ho2, Ho. apply insert_insert_eq.
Qed.

Lemma Cmd_appends_overwrite_witness :
  let c := Sample.bucket 2 [] in
  all_served c /\
  exists c',
    Cmd.script "/wal/" ((fun arg1 => ["append"; arg1]%string) <$>
                          (["Record #1"%string; "Record #2"%string] ++ ["Record #3"%string])) c =
      Some ((fun arg1 =>
               [Prog.Print "Appended record at offset: %d, data: %s"
                  [Prog.ArgUint 1; Prog.ArgBytes (list_byte_of_string arg1)]])
              <$> (["Record #1"%string; "Record #2"%string] ++ ["Record #3"%string]), c') /\
    objects c' =
      <[getObjectKey (NewS3WAL "/wal/") 1 :=
          be_bytes 8 1 ++ list_byte_of_string "Record #3" ++
          SHA256.Sum256 (be_bytes 8 1 ++ list_byte_of_string "Record #3")]> (objects c).
Proof.
  assert (HS : all_served (Sample.bucket 2 [])) by constructor.
  split; [exact HS|].
  exact (Cmd_appends_overwrite "/wal/" ["Record #1"; "Record #2"]%string "Record #3"%string
           (Sample.bucket 2 []) HS).
Defined.

(** X23. On a log that holds the records [ds], with every request
    served, the commands of [s3wal] that do not append answer from a new
    handle as the log itself would: [recover] prints [length ds]; [read]
    with an operand that parses to [i] prints record [i], or dies on the
    missing key when there is none; [last] prints the last record, or dies
    on an empty log; and [truncate] with an operand that parses to [k], at
    most [length ds] and with nothing under the prefix locked, leaves the
    first [k] records. *)
Theorem Cmd_on_log (prefix0 : string) (c : S3) (ds : list (list byte)) :
  let n := Z.of_nat (length ds) in
  let w := set_length (NewS3WAL prefix0) n in
  holds w c ds -> all_served c ->
  (exists c',
     Cmd.main prefix0 ["recover"]%string c =
       Some (Some tt,
             {| Prog.out := [Prog.Print "Last offset: %d" [Prog.ArgUint n]];
                Prog.wal := w; Prog.client := c' |})) /\
  (forall arg1 i, ParseUint arg1 = Ok i ->
     exists r s,
       Cmd.main prefix0 ["read"; arg1]%string c = Some (r, s) /\
       Prog.out s =
         [match record_at ds i with
          | Some d => Prog.Print "Offset: %d, Data: %s" [Prog.ArgUint i; Prog.ArgBytes d]
          | None => Prog.Fatal "Read failed: %v"
                      [Prog.ArgError (ErrGetObject (getObjectKey w i) NoSuchKey)]
          end]) /\
  (exists r s,
     Cmd.main prefix0 ["last"]%string c = Some (r, s) /\
     Prog.out s =
       [match last ds with
        | Some d => Prog.Print "Last record: offset=%d, data=%s"
                      [Prog.ArgUint n; Prog.ArgBytes d]
        | None => Prog.Fatal "LastRecord failed: %v" [Prog.ArgError ErrEmpty]
        end]) /\
  (forall arg1 k, ParseUint arg1 = Ok k -> k <= n ->
     (forall key, key ∈ locked c -> String.prefix (S3WAL.prefix w +:+ "/") key = false) ->
     exists c',
       Cmd.main prefix0 ["truncate"; arg1]%string c =
         Some (Some tt,
               {| Prog.out := [Prog.Print "Truncated WAL after offset %d" [Prog.ArgUint k]];
                  Prog.wal := set_length w k; Prog.client := c' |}) /\
       holds (set_length w k) c' (take (Z.to_nat k) ds)).
Proof.
  intros n w Hh HS. unfold Cmd.main, Prog.start.
  change (NewS3WAL prefix0) with (set_length w 0).
  split; [|split; [|split]].
  - destruct (holds_Recover w c ds 0 Hh HS) as (c' & HR & _).
    exists c'.
    change (Cmd.body ["recover"]%string) with
      (r ← Prog.wal_Recover;
       match r with
       | Err e => Prog.fatalf "Recover failed: %v" [Prog.ArgError e]
       | Ok lastOffset => Prog.printf "Last offset: %d" [Prog.ArgUint lastOffset]
       end).
    step (run_Recover [] _ _ _ _ _ HR). reflexivity.
  - intros arg1 i Hp. pose proof (ParseUint_range _ _ Hp) as Hi.
    assert (Hbody : Cmd.body ["read"; arg1]%string =
      (r ← Prog.wal_Read i;
       match r with
       | Err e => Prog.fatalf "Read failed: %v" [Prog.ArgError e]
       | Ok rec => Prog.printf "Offset: %d, Data: %s"
                     [Prog.ArgUint (Offset rec); Prog.ArgBytes (Data rec)]
       end)).
    { cbv beta iota delta [Cmd.body]. change (String.eqb "read" "append") with false.
      change (String.eqb "read" "read") with true. cbv iota. rewrite Hp. reflexivity. }
    rewrite Hbody. rewrite (bind_ok _ _ _ _ _ (run_Read [] _ _ _)).
    rewrite (Read_served _ i c (all_served_hd _ HS)).
    change (getObjectKey (set_length w 0)) with (getObjectKey w).
    rewrite (holds_lookup w c ds i Hh Hi).
    destruct (record_at ds i) as [d|].
    + rewrite parseRecord_framed by exact Hi. eexists _, _. split; reflexivity.
    + eexists _, _. split; reflexivity.
  - destruct (holds_LastRecord w c ds 0 Hh HS) as (c' & HL & _).
    change (Cmd.body ["last"]%string) with
      (r ← Prog.wal_LastRecord;
       match r with
       | Err e => Prog.fatalf "LastRecord failed: %v" [Prog.ArgError e]
       | Ok rec => Prog.printf "Last record: offset=%d, data=%s"
                     [Prog.ArgUint (Offset rec); Prog.ArgBytes (Data rec)]
       end).
    rewrite (bind_ok _ _ _ _ _ (run_LastRecord [] _ _ _ _ _ HL)).
    destruct (last ds) as [d|]; eexists _, _; split; reflexivity.
  - intros arg1 k Hp Hk Hfree. pose proof (ParseUint_range _ _ Hp) as Hi.
    assert (Hk0 : 0 <= k <= Z.of_nat (length ds)) by (unfold U64.In in Hi; lia).
    destruct (holds_Truncate w c ds k Hh Hk0 HS Hfree) as (c' & HT & Hh' & _).
    exists c'. split; [|exact Hh'].
    assert (Hbody : Cmd.body ["truncate"; arg1]%string =
      (r ← Prog.wal_Truncate k;
       match r with
       | Err e => Prog.fatalf "Truncate failed: %v" [Prog.ArgError e]
       | Ok _ => Prog.printf "Truncated WAL after offset %d" [Prog.ArgUint k]
       end)).
    { cbv beta iota delta [Cmd.body]. change (String.eqb "truncate" "append") with false.
      change (String.eqb "truncate" "read") with false.
      change (String.eqb "truncate" "last") with false.
      change (String.eqb "truncate" "truncate") with true. cbv iota. rewrite Hp. reflexivity. }
    rewrite Hbody.
    apply (Truncate_stale w 0) in HT.
    step (run_Truncate [] _ _ _ _ _ _ HT). reflexivity.
Qed.

Lemma Cmd_on_log_witness :
  let ds := [Sample.rec1; Sample.rec2; Sample.rec3] in
  let c := snd Sample.three in
  let n := Z.of_nat (length ds) in
  let w := set_length (NewS3WAL "/wal/") n in
  holds w c ds /\ all_served c /\
  (exists c',
     Cmd.main "/wal/" ["recover"]%string c =
       Some (Some tt,
             {| Prog.out := [Prog.Print "Last offset: %d" [Prog.ArgUint n]];
                Prog.wal := w; Prog.client := c' |})) /\
  (forall arg1 i, ParseUint arg1 = Ok i ->
     exists r s,
       Cmd.main "/wal/" ["read"; arg1]%string c = Some (r, s) /\
       Prog.out s =
         [match record_at ds i with
          | Some d => Prog.Print "Offset: %d, Data: %s" [Prog.ArgUint i; Prog.ArgBytes d]
          | None => Prog.Fatal "Read failed: %v"
                      [Prog.ArgError (ErrGetObject (getObjectKey w i) NoSuchKey)]
          end]) /\
  (exists r s,
     Cmd.main "/wal/" ["last"]%string c = Some (r, s) /\
     Prog.out s =
       [match last ds with
        | Some d => Prog.Print "Last record: offset=%d, data=%s"
                      [Prog.ArgUint n; Prog.ArgBytes d]
        | None => Prog.Fatal "LastRecord failed: %v" [Prog.ArgError ErrEmpty]
        end]) /\
  (forall arg1 k, ParseUint arg1 = Ok k -> k <= n ->
     (forall key, key ∈ locked c -> String.prefix (S3WAL.prefix w +:+ "/") key = false) ->
     exists c',
       Cmd.main "/wal/" ["truncate"; arg1]%string c =
         Some (Some tt,
               {| Prog.out := [Prog.Print "Truncated WAL after offset %d" [Prog.ArgUint k]];
                  Prog.wal := set_length w k; Prog.client := c' |}) /\
       holds (set_length w k) c' (take (Z.to_nat k) ds)).
Proof.
  pose proof three_holds as H.
  assert (E : fst Sample.three = set_length (NewS3WAL "/wal/") 3) by (vm_compute; reflexivity).
  rewrite E in H.
  assert (HS : all_served (snd Sample.three)) by constructor.
  split; [exact H|]. split; [exact HS|].
  exact (Cmd_on_log "/wal/" (snd Sample.three) [Sample.rec1; Sample.rec2; Sample.rec3] H HS).
Defined.


(** ** The demonstration program *)

Lemma run_ret {A : Type} (a : A) (s : Prog.state) :
  (mret a : Prog.M A) s = Some (Some a, s).
Proof. reflexivity. Qed.

Lemma run_Read_as (o : list Prog.Line) (w : S3WAL) (c : S3) (offset : Z)
    (r : result Error Record_) :
  fst (Read w offset c) = r ->
  Prog.wal_Read offset {| Prog.out := o; Prog.wal := w; Prog.client := c |} =
  Some (Some r, {| Prog.out := o; Prog.wal := w; Prog.client := snd (Read w offset c) |}).
Proof. intros <-. apply run_Read. Qed.

Lemma Demo_appends (items : list Z) :
  forall (o : list Prog.Line) (w : S3WAL) (c : S3) (ds : list (list byte)),
    holds w c ds ->
    Z.of_nat (length ds) + Z.of_nat (length items) <= U64.max ->
    all_served c ->
    exists c',
      Prog.for_each items (fun i =>
        let data := Demo.record i in
        r ← Prog.wal_Append data;
        match r with
        | Err e => Prog.fatalf "Append failed: %v" [Prog.ArgError e]
        | Ok offset =>
            Prog.printf "Appended record at offset: %d, data: %s"
              [Prog.ArgUint offset; Prog.ArgBytes data]
        end) {| Prog.out := o; Prog.wal := w; Prog.client := c |} =
      Some (Some tt,
            {| Prog.out :=
                 o ++ imap (fun j i =>
                        Prog.Print "Appended record at offset: %d, data: %s"
                          [Prog.ArgUint (Z.of_nat (length ds) + 1 + Z.of_nat j);
                           Prog.ArgBytes (Demo.record i)]) items;
               Prog.wal := set_length w (Z.of_nat (length ds) + Z.of_nat (length items));
               Prog.client := c' |}) /\
      holds (set_length w (Z.of_nat (length ds) + Z.of_nat (length items))) c'
        (ds ++ (Demo.record <$> items)) /\
      all_served c' /\ locked c' = locked c.
Proof.
  induction items as [|i items IH]; intros o w c ds Hh Hmax HS.
  - exists c. cbn [Prog.for_each length imap fmap list_fmap].
    rewrite !app_nil_r, Z.add_0_r.
    destruct Hh as (Hlen & Hrest). rewrite <- Hlen, set_length_same.
    split; [reflexivity|]. split; [|split; [exact HS|reflexivity]].
    split; [exact Hlen|exact Hrest].
  - cbn [length] in Hmax.
    destruct (holds_Append w c ds (Demo.record i) Hh ltac:(lia) (all_served_hd _ HS))
      as (c1 & HA & Hh1 & Hl1 & Hf1).
    pose proof (all_served_tl _ _ HS Hf1) as HS1.
    destruct (IH (o ++ [Prog.Print "Appended record at offset: %d, data: %s"
                          [Prog.ArgUint (Z.of_nat (length ds) + 1);
                           Prog.ArgBytes (Demo.record i)]])
                 _ c1 _ Hh1) as (c2 & Hrun & Hh2 & HS2 & Hl2).
    { rewrite length_app. cbn [length]. lia. }
    { exact HS1. }
    exists c2.
    assert (Elen : Z.of_nat (length (ds ++ [Demo.record i])) + Z.of_nat (length items) =
                   Z.of_nat (length ds) + Z.of_nat (length (i :: items))).
    { rewrite length_app. cbn [length]. lia. }
    rewrite Elen in Hrun, Hh2. cbn [set_length S3WAL.prefix] in Hrun, Hh2.
    split; [|split; [|split; [exact HS2|congruence]]].
    + cbn [Prog.for_each]. cbv zeta.
      rewrite (bind_ok _ _ _ _ _
                 (bind_ok _ _ _ _ _ (run_Append o _ _ _ _ _ _ HA))).
      cbn [Prog.out Prog.wal Prog.client].
      rewrite Hrun. cbn [imap set_length S3WAL.prefix]. rewrite <- app_assoc. cbn [app].
      rewrite Z.add_0_r.
      erewrite (imap_ext _ (_ ∘ S) items); [reflexivity|].
      intros j x _. cbn. do 3 f_equal. rewrite length_app. cbn [length]. lia.
    + rewrite fmap_cons. rewrite <- app_assoc in Hh2. exact Hh2.
Qed.

(** X19. Run on a log that holds the records [ds], with every request
    served and nothing under the prefix locked, the program that appends
    five records prints the length of the log, appends "Record #1" to
    "Record #5" at the five next offsets, reads back what is at offset 3
    and the last record, and then truncates after offset 2: it ends with a
    log that holds only the first two records of [ds] followed by its
    five, whatever the log held before. *)
Theorem Demo_main_on_log (prefix0 : string) (c : S3) (ds : list (list byte)) :
  let n := Z.of_nat (length ds) in
  let w := set_length (NewS3WAL prefix0) n in
  let all := ds ++ (Demo.record <$> seqZ 1 5) in
  holds w c ds -> n + 5 <= U64.max -> all_served c ->
  (forall key, key ∈ locked c -> String.prefix (S3WAL.prefix w +:+ "/") key = false) ->
  exists c' third,
    all !! 2%nat = Some third /\
    Demo.main prefix0 c =
      Some (Some tt,
            {| Prog.out :=
                 [Prog.Print "Last offset:" [Prog.ArgUint n]] ++
                 ((fun i => Prog.Print "Appended record at offset: %d, data: %s"
                              [Prog.ArgUint (n + i); Prog.ArgBytes (Demo.record i)])
                    <$> seqZ 1 5) ++
                 [Prog.Print "Read record at offset %d: %s"
                    [Prog.ArgUint 3; Prog.ArgBytes third];
                  Prog.Print "Last record: offset=%d, data=%s"
                    [Prog.ArgUint (n + 5); Prog.ArgBytes (Demo.record 5)];
                  Prog.Print "Truncating WAL after offset 2..." [];
                  Prog.Print "Last offset after truncate:" [Prog.ArgUint 2]];
               Prog.wal := set_length w 2;
               Prog.client := c' |}) /\
    holds (set_length w 2) c' (take 2 all).
Proof.
  intros n w all Hh Hmax HS Hfree.
  assert (Hlen5 : Z.of_nat (length all) = n + 5).
  { unfold all. rewrite length_app, length_fmap.
    change (length (seqZ 1 5)) with 5%nat. unfold n. lia. }
  destruct (holds_Recover w c ds 0 Hh HS) as (c1 & HR & Hh1 & HS1 & Hl1).
  assert (Hroom : Z.of_nat (length ds) + Z.of_nat (length (seqZ 1 5)) <= U64.max)
    by exact Hmax.
  destruct (Demo_appends (seqZ 1 5) [Prog.Print "Last offset:" [Prog.ArgUint n]]
              w c1 ds Hh1 Hroom HS1)
    as (c5 & Hloop & Hh5 & HS5 & Hl5).
  fold all in Hh5. change (Z.of_nat (length (seqZ 1 5))) with 5 in Hloop, Hh5.
  fold n in Hloop, Hh5. cbn [set_length S3WAL.prefix] in Hloop, Hh5.
  set (w5 := set_length w (n + 5)) in *.
  assert (Hthird : is_Some (all !! 2%nat)) by (apply lookup_lt_is_Some; lia).
  destruct Hthird as [third Hthird].
  assert (H3 : U64.In 3) by (vm_compute; split; [discriminate|reflexivity]).
  pose proof (Read_served w5 3 c5 (all_served_hd _ HS5)) as HRd.
  rewrite (holds_lookup w5 c5 all 3 Hh5 H3) in HRd.
  change (record_at all 3) with (all !! 2%nat) in HRd. rewrite Hthird in HRd.
  rewrite parseRecord_framed in HRd by exact H3.
  destruct (Read_state w5 3 c5) as (Ho6 & Hl6 & _ & Hf6).
  set (c6 := snd (Read w5 3 c5)) in *.
  pose proof (holds_same _ _ _ _ Ho6 Hh5) as Hh6.
  pose proof (all_served_tl _ _ HS5 Hf6) as HS6.
  destruct (holds_LastRecord w5 c6 all (n + 5) Hh6 HS6) as (c7 & HL & Hh7 & HS7 & Hl7).
  assert (Hlast : last all = Some (Demo.record 5)).
  { unfold all. rewrite last_app. reflexivity. }
  rewrite Hlast, Hlen5 in HL.
  destruct (holds_Truncate w5 c7 all 2 Hh7 ltac:(lia) HS7) as (c8 & HT & Hh8 & HS8 & Hl8).
  { intros key Hk. apply Hfree. congruence. }
  destruct (holds_Recover (set_length w5 2) c8 _ 2 Hh8 HS8) as (c9 & HR9 & Hh9 & _).
  assert (Hlen2 : Z.of_nat (length (take (Z.to_nat 2) all)) = 2).
  { rewrite length_take. lia. }
  rewrite Hlen2 in HR9.
  exists c9, third. split; [exact Hthird|]. split; [|exact Hh9].
  unfold Demo.main, Demo.body, Prog.start.
  change (NewS3WAL prefix0) with (set_length w 0).
  step (run_Recover [] _ _ _ _ _ HR). say.
  rewrite (bind_ok _ _ _ _ _ Hloop).
  step (run_Read_as _ _ _ _ _ HRd). fold c6. say.
  step (run_LastRecord _ _ _ _ _ _ HL). say.
  say.
  step (run_Truncate _ _ _ _ _ _ _ HT).
  rewrite (bind_ok _ _ _ _ _ (run_ret _ _)).
  step (run_Recover _ _ _ _ _ _ HR9). say.
  change (seqZ 1 5) with [1; 2; 3; 4; 5].
  cbn [imap fmap list_fmap app Offset Data Prog.value_or_zero].
  change (set_length w5 2) with (set_length w 2). unfold compose. cbv beta.
  rewrite <- !Z.add_assoc.
  change (1 + Z.of_nat 0) with 1. change (1 + Z.of_nat 1) with 2.
  change (1 + Z.of_nat 2) with 3. change (1 + Z.of_nat 3) with 4.
  change (1 + Z.of_nat 4) with 5. reflexivity.
Qed.

Lemma Demo_main_on_log_witness :
  let ds := [Sample.rec1; Sample.rec2; Sample.rec3] in
  let c := snd Sample.three in
  let n := Z.of_nat (length ds) in
  let w := set_length (NewS3WAL "/wal/") n in
  let all := ds ++ (Demo.record <$> seqZ 1 5) in
  holds w c ds /\ n + 5 <= U64.max /\ all_served c /\
  (forall key, key ∈ locked c -> String.prefix (S3WAL.prefix w +:+ "/") key = false) /\
  exists c' third,
    all !! 2%nat = Some third /\
    Demo.main "/wal/" c =
      Some (Some tt,
            {| Prog.out :=
                 [Prog.Print "Last offset:" [Prog.ArgUint n]] ++
                 ((fun i => Prog.Print "Appended record at offset: %d, data: %s"
                              [Prog.ArgUint (n + i); Prog.ArgBytes (Demo.record i)])
                    <$> seqZ 1 5) ++
                 [Prog.Print "Read record at offset %d: %s"
                    [Prog.ArgUint 3; Prog.ArgBytes third];
                  Prog.Print "Last record: offset=%d, data=%s"
                    [Prog.ArgUint (n + 5); Prog.ArgBytes (Demo.record 5)];
                  Prog.Print "Truncating WAL after offset 2..." [];
                  Prog.Print "Last offset after truncate:" [Prog.ArgUint 2]];
               Prog.wal := set_length w 2;
               Prog.client := c' |}) /\
    holds (set_length w 2) c' (take 2 all).
Proof.
  pose proof three_holds as H.
  assert (E : fst Sample.three = set_length (NewS3WAL "/wal/") 3) by (vm_compute; reflexivity).
  rewrite E in H.
  assert (Hmax : Z.of_nat (length [Sample.rec1; Sample.rec2; Sample.rec3]) + 5 <= U64.max)
    by (vm_compute; discriminate).
  assert (HS : all_served (snd Sample.three)) by constructor.
  assert (Hfree : forall key, key ∈ locked (snd Sample.three) ->
            String.prefix (S3WAL.prefix (set_length (NewS3WAL "/wal/") 3) +:+ "/") key = false).
  { intros key Hl. change (key ∈ (∅ : gset string)) in Hl. apply elem_of_empty in Hl.
    destruct Hl. }
  split; [exact H|]. split; [exact Hmax|]. split; [exact HS|]. split; [exact Hfree|].
  exact (Demo_main_on_log "/wal/" (snd Sample.three)
           [Sample.rec1; Sample.rec2; Sample.rec3] H Hmax HS Hfree).
Defined.

(** ** The test script

    The script invokes the command line seventeen times on the prefix
    [wal-demo].  On an empty store every [append] reports offset 1, so
    only the fifth record is left: [read 1] prints it, the other reads
    die, and the last [recover] prints 1. *)
Example test_script_run :
  let record (i : string) := ("Record #" +:+ i)%string in
  let numbers := ["1"; "2"; "3"; "4"; "5"]%string in
  let invocations :=
    [["recover"]%string] ++
    ((fun i => ["append"; record i]%string) <$> numbers) ++
    ((fun i => ["read"; i]%string) <$> numbers) ++
    [["last"]; ["truncate"; "3"]; ["recover"]; ["read"; "4"]; ["read"; "5"]]%string in
  let missing (key : string) :=
    [Prog.Fatal "Read failed: %v" [Prog.ArgError (ErrGetObject key NoSuchKey)]] in
  let fifth := list_byte_of_string (record "5") in
  fst <$> Cmd.script "wal-demo" invocations (Sample.bucket 1000 []) =
  Some ([[Prog.Print "Last offset: %d" [Prog.ArgUint 0]]] ++
        ((fun i => [Prog.Print "Appended record at offset: %d, data: %s"
                      [Prog.ArgUint 1; Prog.ArgBytes (list_byte_of_string (record i))]])
           <$> numbers) ++
        [[Prog.Print "Offset: %d, Data: %s" [Prog.ArgUint 1; Prog.ArgBytes fifth]];
         missing "wal-demo/00000000000000000002"%string;
         missing "wal-demo/00000000000000000003"%string;
         missing "wal-demo/00000000000000000004"%string;
         missing "wal-demo/00000000000000000005"%string;
         [Prog.Print "Last record: offset=%d, data=%s" [Prog.ArgUint 1; Prog.ArgBytes fifth]];
         [Prog.Print "Truncated WAL after offset %d" [Prog.ArgUint 3]];
         [Prog.Print "Last offset: %d" [Prog.ArgUint 1]];
         missing "wal-demo/00000000000000000004"%string;
         missing "wal-demo/00000000000000000005"%string]).
Proof.
  vm_compute. reflexivity.
Qed.


(** ** Edges of [Read] and [Append] *)



(** X25. The offset of [Append] is a [uint64] sum: from a cached length
    of 2^64-1 a served [Append] returns offset 0 without error, stores
    the record under the key of twenty zeros and caches 0, and [Read(0)]
    then returns the record. *)
Theorem Append_wraps (w : S3WAL) (data : list byte) (c : S3) :
  S3WAL.length w = U64.max -> hd Served (faults c) = Served ->
  exists c',
    Append w data c = (Ok 0, set_length w 0, c') /\
    getObjectKey w 0 = S3WAL.prefix w +:+ "/" +:+ "00000000000000000000" /\
    objects c' =
      <[getObjectKey w 0 := be_bytes 8 0 ++ data ++ SHA256.Sum256 (be_bytes 8 0 ++ data)]>
        (objects c) /\
    forall c2, objects c2 = objects c' -> hd Served (faults c2) = Served ->
               fst (Read (set_length w 0) 0 c2) = Ok {| Offset := 0; Data := data |}.
Proof.
  intros Hlen Hs.
  destruct (Append w data c) as [[r w'] c'] eqn:HA.
  apply Append_inv in HA. cbv zeta in HA.
  assert (Hnext : U64.add (S3WAL.length w) 1 = 0) by (rewrite Hlen; reflexivity).
  rewrite Hnext in HA.
  destruct HA as [(u & HP & -> & ->)|(e & HP & _)].
  2:{ apply PutObject_Err in HP. destruct HP as [HP _]. contradiction. }
  apply PutObject_Ok in HP. destruct HP as (_ & Ho & _).
  exists c'. split; [reflexivity|]. split; [reflexivity|]. split; [exact Ho|].
  intros c2 Ho2 Hs2. rewrite (Read_served _ 0 c2 Hs2).
  change (getObjectKey (set_length w 0)) with (getObjectKey w).
  rewrite Ho2, Ho, lookup_insert_eq.
  apply parseRecord_framed. unfold U64.In, U64.modulus. lia.
Qed.

Lemma Append_wraps_witness :
  let w := set_length Sample.wal U64.max in
  let c := Sample.bucket 2 [] in
  S3WAL.length w = U64.max /\ hd Served (faults c) = Served /\
  exists c',
    Append w Sample.rec1 c = (Ok 0, set_length w 0, c') /\
    getObjectKey w 0 = S3WAL.prefix w +:+ "/" +:+ "00000000000000000000" /\
    objects c' =
      <[getObjectKey w 0 :=
          be_bytes 8 0 ++ Sample.rec1 ++ SHA256.Sum256 (be_bytes 8 0 ++ Sample.rec1)]>
        (objects c) /\
    forall c2, objects c2 = objects c' -> hd Served (faults c2) = Served ->
               fst (Read (set_length w 0) 0 c2) = Ok {| Offset := 0; Data := Sample.rec1 |}.
Proof.
  split; [reflexivity|]. split; [reflexivity|].
  apply (Append_wraps (set_length Sample.wal U64.max) Sample.rec1 (Sample.bucket 2 []));
    reflexivity.
Defined.

